(** * EVRP-TW: graph model, arc-flow formulator and route reconstructor

    A shallow embedding of the Python sources [utility.py], [EVRP_Graph.py],
    [EVRP_Solver.py], [data_parser.py] and [main.py].

    Conventions of the embedding:
    - Python [int] is [Z]; Python [float] is idealised as a real number [R]
      (no rounding, overflow, infinity or NaN; in particular a division by a
      zero velocity, which numpy answers with [inf] or [nan], is outside
      the idealisation);
    - Python [str] is [string], read as a sequence of code points below 256;
    - a Python exception is the [Raise] branch of [Py.result];
    - a [dict] with string keys is a [gmap string _], a [set] of strings a
      [gset string], a [list] a [list]; the one [dict] that is iterated
      over, [Routes] of [print_results], is the list of its items in
      insertion order;
    - the CPLEX model object is the record of what was submitted to it. *)

From Stdlib Require Import Reals Lra ZArith String Ascii List Lia Permutation.
From stdpp Require Import base list gmap sets strings pretty.

Local Open Scope string_scope.
Local Open Scope list_scope.
Local Open Scope Z_scope.

(** ** Python primitives *)
Module Py.

Inductive exn : Type :=
| IndexError
| KeyError
| ValueError
| RecursionError.

Inductive result (A : Type) : Type :=
| Ok (a : A)
| Raise (e : exn).
Arguments Ok {A} a.
Arguments Raise {A} e.

#[global] Instance result_ret : MRet result := λ A a, Ok a.
#[global] Instance result_bind : MBind result := λ A B f m,
  match m with
  | Ok a => f a
  | Raise e => Raise e
  end.

#[global] Instance exn_eq_dec : EqDecision exn.
Proof. solve_decision. Defined.

(** [for x in l: body], threading the state and stopping at the first
    exception. *)
Fixpoint for_each {X S : Type} (l : list X) (body : X → S → result S) (s : S)
  : result S :=
  match l with
  | [] => Ok s
  | x :: l' =>
      match body x s with
      | Ok s' => for_each l' body s'
      | Raise e => Raise e
      end
  end.

(** [len(l)] *)
Definition len {A : Type} (l : list A) : Z := Z.of_nat (length l).

(** [range(a, b)] *)
Definition range (a b : Z) : list Z :=
  map (λ k : nat, a + Z.of_nat k) (seq 0 (Z.to_nat (b - a))).

(** [l * k] for a list [l] and an int [k]: empty when [k <= 0]. *)
Fixpoint repeat_list {A : Type} (l : list A) (k : nat) : list A :=
  match k with
  | O => []
  | S k' => l ++ repeat_list l k'
  end.
Definition list_mul {A : Type} (l : list A) (k : Z) : list A :=
  repeat_list l (Z.to_nat k).

(** The position that an index [i] denotes in a sequence of length [n]:
    negative indices count from the end, anything else out of range
    raises [IndexError]. *)
Definition position (n : nat) (i : Z) : result nat :=
  let k := if i <? 0 then i + Z.of_nat n else i in
  if (0 <=? k) && (k <? Z.of_nat n) then Ok (Z.to_nat k) else Raise IndexError.

(** [l[i]] *)
Definition index {A : Type} (l : list A) (i : Z) : result A :=
  k ← position (length l) i;
  match l !! k with
  | Some a => Ok a
  | None => Raise IndexError
  end.

(** [d[k]] on a dict *)
Definition getitem {A : Type} (d : gmap string A) (k : string) : result A :=
  match d !! k with
  | Some a => Ok a
  | None => Raise KeyError
  end.

(** [s.split(c)] for a one-character separator: never empty. *)
Fixpoint split (c : ascii) (s : string) : list string :=
  match s with
  | EmptyString => [EmptyString]
  | String a s' =>
      if Ascii.eqb a c then EmptyString :: split c s'
      else match split c s' with
           | [] => [String a EmptyString]
           | w :: ws => String a w :: ws
           end
  end.

(** [l[1:]] *)
Definition slice_from_1 {A : Type} (l : list A) : list A := tail l.

(** [s.startswith(p)] *)
Definition startswith (s p : string) : bool := String.prefix p s.

(** Characters that [int()] strips around a number: the ASCII white
    space (tab to carriage return, and the space) and the two white-space
    code points above 127, next line and no-break space. The separators
    28 to 31 are not stripped. *)
Definition is_space (c : ascii) : bool :=
  let n := nat_of_ascii c in
  ((9 <=? n)%nat && (n <=? 13)%nat) || (n =? 32)%nat
  || (n =? 133)%nat || (n =? 160)%nat.

Definition digit_val (c : ascii) : option Z :=
  let n := nat_of_ascii c in
  if (48 <=? n)%nat && (n <=? 57)%nat then Some (Z.of_nat (n - 48)) else None.

Fixpoint lstrip (s : string) : string :=
  match s with
  | String a s' => if is_space a then lstrip s' else s
  | EmptyString => EmptyString
  end.

Fixpoint all_space (s : string) : bool :=
  match s with
  | String a s' => is_space a && all_space s'
  | EmptyString => true
  end.

(** Reads a non-empty run of decimal digits ([seen] tells whether one was
    read already), then only white space. *)
Fixpoint read_digits (seen : bool) (acc : Z) (s : string) : option Z :=
  match s with
  | EmptyString => if seen then Some acc else None
  | String a s' =>
      match digit_val a with
      | Some d => read_digits true (10 * acc + d) s'
      | None => if seen && all_space s then Some acc else None
      end
  end.

(** [int(s)] in base ten: white space, an optional sign, digits, white
    space. (Underscores between digits never reach it here: the callers
    split on them first.) *)
Definition int (s : string) : result Z :=
  let r :=
    match lstrip s with
    | String "-" s' => Z.opp <$> read_digits false 0 s'
    | String "+" s' => read_digits false 0 s'
    | s' => read_digits false 0 s'
    end in
  match r with
  | Some z => Ok z
  | None => Raise ValueError
  end.

(** [a, b = map(int, l)]: exactly two items, each an int. *)
Definition unpack2_int (l : list string) : result (Z * Z) :=
  match l with
  | [a; b] => i ← int a; j ← int b; Ok (i, j)
  | _ => Raise ValueError
  end.

End Py.
Export Py.

(** ** utility.py *)
Module Utility.

(** State shared by the calls of [find_route]: the closure variables
    [routes] and [visited], and the list object [current_route] that is
    passed along by reference. *)
Record search_state : Type := {
  routes : list (list string);
  visited : gset string;
  current_route : list string;
}.

Definition set_routes (st : search_state) (r : list (list string)) :=
  {| routes := r; visited := visited st; current_route := current_route st |}.
Definition set_visited (st : search_state) (v : gset string) :=
  {| routes := routes st; visited := v; current_route := current_route st |}.
Definition set_current_route (st : search_state) (c : list string) :=
  {| routes := routes st; visited := visited st; current_route := c |}.

(** [visited.add(x)] *)
Definition visited_add (x : string) (st : search_state) : search_state :=
  set_visited st ({[x]} ∪ visited st).

(** [visited.remove(x)]: [KeyError] when absent. *)
Definition visited_remove (x : string) (st : search_state) : result search_state :=
  if bool_decide (x ∈ visited st) then Ok (set_visited st (visited st ∖ {[x]}))
  else Raise KeyError.

(** [current_route.pop()]: [IndexError] when empty. *)
Definition route_pop (st : search_state) : result search_state :=
  match current_route st with
  | [] => Raise IndexError
  | _ => Ok (set_current_route st (removelast (current_route st)))
  end.

(** [map(int, label.split('_')[1:])] unpacked into two indices *)
Definition label_indices (label : string) : result (Z * Z) :=
  unpack2_int (slice_from_1 (split "_" label)).

(** The nested function [find_route]. [fuel] bounds the depth of the
    recursion; each nested call marks one more label of [sequence] as
    visited, so [length sequence] levels are enough. *)
Fixpoint find_route (fuel : nat) (sequence : list string) (end_node_idx : Z)
    (current_node : string) (st : search_state) : result search_state :=
  match fuel with
  | O => Raise RecursionError
  | S fuel' =>
      '(i, j) ← label_indices current_node;
      let st := set_current_route st (current_route st ++ [current_node]) in
      if bool_decide (j = end_node_idx) then
        Ok (set_routes st (routes st ++ [current_route st]))
      else
        st ← for_each sequence (λ next_node st,
               if bool_decide (next_node ∈ visited st) then Ok st
               else
                 '(next_i, next_j) ← label_indices next_node;
                 if bool_decide (next_i = j) then
                   st ← find_route fuel' sequence end_node_idx next_node
                          (visited_add next_node st);
                   visited_remove next_node st
                 else Ok st) st;
        route_pop st
  end.

(** [find_and_print_routes]: the result is the list [routes] that the
    function prints (the count, then one line per route). *)
Definition find_and_print_routes (sequence : list string) (end_node_idx : Z)
  : result (list (list string)) :=
  st ← for_each sequence (λ start_node st,
         if startswith start_node "x_0_"
            && bool_decide (start_node ∉ visited st) then
           st ← find_route (length sequence) sequence end_node_idx start_node
                  (set_current_route (visited_add start_node st) []);
           visited_remove start_node st
         else Ok st)
       {| routes := []; visited := ∅; current_route := [] |};
  Ok (routes st).

End Utility.
Export Utility.


(** ** data_parser.py: the node record *)
Module DataParser.

(** [class Node]. [Position] and [Window] are two-element lists in the
    source, pairs here. *)
Record Node : Type := {
  StringId : string;
  Type_ : string;
  Position : R * R;
  Demand : R;
  Window : R * R;
  ServiceTime : R;
}.

(** Python compares floats with [==]: on real numbers, equality. *)
#[global] Instance R_eq_dec : EqDecision R := Req_dec_T.

(** The eight groups of a match of the node pattern. *)
Record node_groups : Type := {
  group1 : string; group2 : string; group3 : string; group4 : string;
  group5 : string; group6 : string; group7 : string; group8 : string;
}.

(** The four values that [parse_file] builds and returns. *)
Record parsed : Type := {
  Depot_nodes : list Node;
  Customer_nodes : list Node;
  RS_nodes : list Node;
  parameters : gmap string R;
}.

Section parse_file.

(** The library calls of [parse_file] are taken as given:
    [re.match] with the node pattern and with the parameter pattern
    (the groups of the match, or [None]), and [float()]. *)
Variable node_match : string → option node_groups.
Variable parameter_match : string → option (string * string).
Variable float : string → result R.

(** The body of [for line in file]. *)
Definition parse_line (line : string) (st : parsed) : result parsed :=
  match node_match line with
  | Some m =>
      x ← float (group3 m);
      y ← float (group4 m);
      demand ← float (group5 m);
      ready ← float (group6 m);
      due ← float (group7 m);
      service ← float (group8 m);
      let node_data :=
        {| StringId := group1 m; Type_ := group2 m; Position := (x, y);
           Demand := demand; Window := (ready, due);
           ServiceTime := service |} in
      if startswith (StringId node_data) "D" then
        Ok {| Depot_nodes := Depot_nodes st ++ [node_data];
              Customer_nodes := Customer_nodes st;
              RS_nodes := RS_nodes st; parameters := parameters st |}
      else if startswith (StringId node_data) "S" then
        Ok {| Depot_nodes := Depot_nodes st;
              Customer_nodes := Customer_nodes st;
              RS_nodes := RS_nodes st ++ [node_data];
              parameters := parameters st |}
      else if startswith (StringId node_data) "C" then
        Ok {| Depot_nodes := Depot_nodes st;
              Customer_nodes := Customer_nodes st ++ [node_data];
              RS_nodes := RS_nodes st; parameters := parameters st |}
      else Raise ValueError
  | None =>
      match parameter_match line with
      | Some (key, value) =>
          val ← float value;
          Ok {| Depot_nodes := Depot_nodes st;
                Customer_nodes := Customer_nodes st;
                RS_nodes := RS_nodes st;
                parameters := <[key := val]> (parameters st) |}
      | None => Ok st
      end
  end.

(** The loop over the lines of the file. *)
Definition parse_lines (file : list string) : result parsed :=
  for_each file parse_line
    {| Depot_nodes := []; Customer_nodes := []; RS_nodes := [];
       parameters := ∅ |}.

(** [parse_file], on the lines of the opened file. *)
Definition parse_file (file : list string) : result parsed :=
  st ← parse_lines file;
  first_customer ← Py.index (Customer_nodes st) 0;
  first_depot ← Py.index (Depot_nodes st) 0;
  let customers :=
    if bool_decide (Position first_customer = Position first_depot)
    then tail (Customer_nodes st)
    else Customer_nodes st in
  Ok {| Depot_nodes := Depot_nodes st; Customer_nodes := customers;
        RS_nodes := RS_nodes st; parameters := parameters st |}.

End parse_file.

End DataParser.
Export DataParser.

(** ** EVRP_Graph.py *)
Module EVRP_Graph.

Local Open Scope R_scope.

(** [utility.euclidean_distance] *)
Definition euclidean_distance (pos1 pos2 : R * R) : R :=
  sqrt ((pos2.1 - pos1.1) ^ 2 + (pos2.2 - pos1.2) ^ 2).

(** A numpy 2-d array, as the list of its rows. *)
Abbreviation matrix := (list (list R)).

(** [np.zeros((n, m))] *)
Definition zeros (n m : nat) : matrix := replicate n (replicate m 0).

(** [a[i][j]] *)
Definition mat_get (a : matrix) (i j : Z) : result R :=
  row ← Py.index a i; Py.index row j.

(** [a[i][j] = x] *)
Definition mat_set (a : matrix) (i j : Z) (x : R) : result matrix :=
  ki ← position (length a) i;
  match a !! ki with
  | Some row =>
      kj ← position (length row) j;
      Ok (<[ki := <[kj := x]> row]> a)
  | None => Raise IndexError
  end.

(** [a.transpose()] of an array with [m] columns *)
Definition transpose (m : nat) (a : matrix) : matrix :=
  map (λ j, map (λ row, nth j row 0) a) (seq 0 m).

(** [a + b], elementwise, for arrays of one shape *)
Definition mat_add (a b : matrix) : matrix :=
  zip_with (zip_with Rplus) a b.

(** [a * c] and [a / c] for a scalar [c] *)
Definition mat_scale (a : matrix) (c : R) : matrix := map (map (λ x, x * c)) a.
Definition mat_div (a : matrix) (c : R) : matrix := map (map (λ x, x / c)) a.

(** [Graph_EVRP_TW.generate_distance_matrix], as a function of
    [self.Nodes]. The in-place [+=] of the array with its own transpose
    adds the transpose of the array as it was before the statement. *)
Definition generate_distance_matrix (Nodes : list Node) : result matrix :=
  let n := length Nodes in
  distance_matrix ←
    for_each (range 0 (Z.of_nat n)) (λ i distance_matrix,
      for_each (range i (Z.of_nat n)) (λ j distance_matrix,
        node_i ← Py.index Nodes i;
        node_j ← Py.index Nodes j;
        mat_set distance_matrix i j
          (euclidean_distance (Position node_i) (Position node_j)))
        distance_matrix)
      (zeros n n);
  let distance_matrix := mat_add distance_matrix (transpose n distance_matrix) in
  let distance_matrix := mat_scale distance_matrix 1 in
  Ok distance_matrix.

(** The attributes of a [Graph_EVRP_TW] object. *)
Record Graph : Type := {
  Depot_nodes : list Node;
  Customer_nodes : list Node;
  RS_nodes : list Node;
  parameters : gmap string R;
  Nodes : list Node;
  Depot_Idx : list Z;
  Customer_Idx : list Z;
  RS_Idx : list Z;
  distance_matrix : matrix;
  CustomerTW : list (R * R);
  CustomerServiceTime : list R;
  CustomerDemand : list R;
  Q : R;
  C : R;
  r : R;
  g : R;
  v : R;
  travel_time_matrix : matrix;
}.

(** [Graph_EVRP_TW.__init__] *)
Definition Graph_EVRP_TW (Depot_nodes Customer_nodes RS_nodes : list Node)
    (parameters : gmap string R) (RS_dummy_count : Z) : result Graph :=
  let Nodes :=
    Depot_nodes ++ Customer_nodes ++ list_mul RS_nodes RS_dummy_count
      ++ Depot_nodes in
  let Depot_Idx := [0; len Nodes - 1]%Z in
  let Customer_Idx := range 1 (1 + len Customer_nodes) in
  let RS_Idx := range (1 + len Customer_nodes) (len Nodes - 1) in
  distance_matrix ← generate_distance_matrix Nodes;
  let CustomerTW := map Window Nodes in
  let CustomerServiceTime := map ServiceTime Nodes in
  let CustomerDemand := map Demand Nodes in
  Q ← getitem parameters "Q";
  C ← getitem parameters "C";
  r ← getitem parameters "r";
  g ← getitem parameters "g";
  v ← getitem parameters "v";
  Ok {| Depot_nodes := Depot_nodes; Customer_nodes := Customer_nodes;
        RS_nodes := RS_nodes; parameters := parameters; Nodes := Nodes;
        Depot_Idx := Depot_Idx; Customer_Idx := Customer_Idx;
        RS_Idx := RS_Idx; distance_matrix := distance_matrix;
        CustomerTW := CustomerTW;
        CustomerServiceTime := CustomerServiceTime;
        CustomerDemand := CustomerDemand;
        Q := Q; C := C; r := r; g := g; v := v;
        travel_time_matrix := mat_div distance_matrix v |}.

(** The default value of [RS_dummy_count] *)
Definition RS_dummy_count_default : Z := 1.

End EVRP_Graph.
Export EVRP_Graph.

(** ** EVRP_Solver.py *)
Module EVRP_Solver.

Local Open Scope R_scope.

(** *** What is submitted to the CPLEX model *)

(** Variable types ["B"] and ["C"]. *)
Inductive var_type : Type := Binary | Continuous.

(** Constraint senses ["L"], ["E"] and ["G"]. *)
Inductive sense : Type := SenseL | SenseE | SenseG.

(** One variable of [model.variables.add]: its name, objective
    coefficient, type and the bounds that were given. *)
Record variable : Type := {
  var_name : string;
  var_obj : R;
  var_kind : var_type;
  var_lb : option R;
  var_ub : option R;
}.

(** One row of [model.linear_constraints.add]: the sparse pair
    [[names, coefficients]], the sense and the right-hand side. *)
Record linear_constraint : Type := {
  lin_ind : list string;
  lin_val : list R;
  lin_sense : sense;
  lin_rhs : R;
}.

Inductive objective_sense : Type := Minimize | Maximize.

Record Model : Type := {
  objective : option objective_sense;
  variables : list variable;
  linear_constraints : list linear_constraint;
}.

(** [cplex.Cplex()] *)
Definition Cplex : Model :=
  {| objective := None; variables := []; linear_constraints := [] |}.

Definition objective_set_sense (m : Model) (o : objective_sense) : Model :=
  {| objective := Some o; variables := variables m;
     linear_constraints := linear_constraints m |}.

Definition variables_add (m : Model) (vs : list variable) : Model :=
  {| objective := objective m; variables := variables m ++ vs;
     linear_constraints := linear_constraints m |}.

Definition linear_constraints_add (m : Model) (c : linear_constraint) : Model :=
  {| objective := objective m; variables := variables m;
     linear_constraints := linear_constraints m ++ [c] |}.

(** *** Variable names *)
Definition x_name (i j : Z) : string := "x_" +:+ pretty i +:+ "_" +:+ pretty j.
Definition tao_name (i : Z) : string := "tao_" +:+ pretty i.
Definition u_name (i : Z) : string := "u_" +:+ pretty i.
Definition y_name (i : Z) : string := "y_" +:+ pretty i.

(** *** The solver object *)
Record Solver : Type := {
  model : Model;
  path_link_variable : list string;
  objective_function_coef : list R;
  V_sequence : list Z;
  F_Prime_sequence : list Z;
  D : list Z;
  Depot_start : list Z;
  Depot_end : list Z;
  V_Prime_N_plus_1_sequence : list Z;
  V_Prime_0_sequence : list Z;
  V_Prime_sequence : list Z;
  C : R;
  Q : R;
  h : R;
  g : R;
  l_0 : R;
  distance_matrix : matrix;
  model_size : Z;
  CustomerTimeWindow : list (R * R);
  CustomerService : list R;
  CustomerDemand : list R;
  Travel_Time : matrix;
  tao_names : list string;
  u_names : list string;
  y_names : list string;
}.

Definition set_model (self : Solver) (m : Model) : Solver :=
  {| model := m;
     path_link_variable := path_link_variable self;
     objective_function_coef := objective_function_coef self;
     V_sequence := V_sequence self; F_Prime_sequence := F_Prime_sequence self;
     D := D self; Depot_start := Depot_start self; Depot_end := Depot_end self;
     V_Prime_N_plus_1_sequence := V_Prime_N_plus_1_sequence self;
     V_Prime_0_sequence := V_Prime_0_sequence self;
     V_Prime_sequence := V_Prime_sequence self;
     C := C self; Q := Q self; h := h self; g := g self; l_0 := l_0 self;
     distance_matrix := distance_matrix self; model_size := model_size self;
     CustomerTimeWindow := CustomerTimeWindow self;
     CustomerService := CustomerService self;
     CustomerDemand := CustomerDemand self;
     Travel_Time := Travel_Time self;
     tao_names := tao_names self; u_names := u_names self;
     y_names := y_names self |}.

Definition set_decision_names (self : Solver) (xs : list string) (cs : list R)
    (ts us ys : list string) : Solver :=
  {| model := model self;
     path_link_variable := xs;
     objective_function_coef := cs;
     V_sequence := V_sequence self; F_Prime_sequence := F_Prime_sequence self;
     D := D self; Depot_start := Depot_start self; Depot_end := Depot_end self;
     V_Prime_N_plus_1_sequence := V_Prime_N_plus_1_sequence self;
     V_Prime_0_sequence := V_Prime_0_sequence self;
     V_Prime_sequence := V_Prime_sequence self;
     C := C self; Q := Q self; h := h self; g := g self; l_0 := l_0 self;
     distance_matrix := distance_matrix self; model_size := model_size self;
     CustomerTimeWindow := CustomerTimeWindow self;
     CustomerService := CustomerService self;
     CustomerDemand := CustomerDemand self;
     Travel_Time := Travel_Time self;
     tao_names := ts; u_names := us; y_names := ys |}.

(** [[e for i in range(n) for j in range(n) if i != j]], for an [e] that
    may raise *)
Definition for_distinct_pairs {A : Type} (n : Z) (e : Z → Z → result A)
  : result (list A) :=
  for_each (range 0 n) (λ i acc,
    for_each (range 0 n) (λ j acc,
      if bool_decide (i ≠ j) then a ← e i j; Ok (acc ++ [a]) else Ok acc) acc)
    [].

(** [_set_decision_variable] *)
Definition _set_decision_variable (self : Solver) : result Solver :=
  xs ← for_distinct_pairs (model_size self) (λ i j, Ok (x_name i j));
  cs ← for_distinct_pairs (model_size self)
         (λ i j, mat_get (distance_matrix self) i j);
  let ts := map tao_name (range 0 (model_size self)) in
  let us := map u_name (range 0 (model_size self)) in
  let ys := map y_name (range 0 (model_size self)) in
  Ok (set_decision_names self xs cs ts us ys).

(** [_set_objective_function] *)
Definition _set_objective_function (self : Solver) : result Solver :=
  let m := objective_set_sense (model self) Minimize in
  let m := variables_add m
    (zip_with (λ name c,
       {| var_name := name; var_obj := c; var_kind := Binary;
          var_lb := None; var_ub := None |})
       (path_link_variable self) (objective_function_coef self)) in
  m ← for_each (range 0 (model_size self)) (λ i m,
        tao ← Py.index (tao_names self) i;
        tw ← Py.index (CustomerTimeWindow self) i;
        let m := variables_add m
          [{| var_name := tao; var_obj := 0; var_kind := Continuous;
              var_lb := Some tw.1; var_ub := Some tw.2 |}] in
        u ← Py.index (u_names self) i;
        let m := variables_add m
          [{| var_name := u; var_obj := 0; var_kind := Continuous;
              var_lb := Some 0; var_ub := Some (C self) |}] in
        let Initial_Battery := if bool_decide (i = 0%Z) then Q self else 0 in
        y ← Py.index (y_names self) i;
        Ok (variables_add m
          [{| var_name := y; var_obj := 0; var_kind := Continuous;
              var_lb := Some Initial_Battery; var_ub := Some (Q self) |}])) m;
  Ok (set_model self m).

(** [[f"x_{i}_{j}" for j in seq if i != j]] and its mirror image *)
Definition out_arcs (i : Z) (seq : list Z) : list string :=
  map (λ j, x_name i j) (filter (λ j, i ≠ j) seq).
Definition in_arcs (j : Z) (seq : list Z) : list string :=
  map (λ i, x_name i j) (filter (λ i, i ≠ j) seq).

(** [for i in origins: for j in successors: if i != j: add(row i j)] *)
Definition for_arcs (origins successors : list Z)
    (row : Z → Z → result linear_constraint) (m : Model) : result Model :=
  for_each origins (λ i m,
    for_each successors (λ j m,
      if bool_decide (i ≠ j) then
        c ← row i j; Ok (linear_constraints_add m c)
      else Ok m) m) m.

(** The loops of [_set_constraints], one definition per loop. *)

(** Customers: exactly one outgoing arc. *)
Definition add_customer_constraints (self : Solver) (m : Model) : result Model :=
  for_each (V_sequence self) (λ i m,
    Ok (linear_constraints_add m
      {| lin_ind := out_arcs i (V_Prime_N_plus_1_sequence self);
         lin_val := list_mul [1] (len (V_Prime_N_plus_1_sequence self) - 1);
         lin_sense := SenseE; lin_rhs := 1 |})) m.

(** Recharging stations: at most one outgoing arc. *)
Definition add_station_constraints (self : Solver) (m : Model) : result Model :=
  for_each (F_Prime_sequence self) (λ i m,
    Ok (linear_constraints_add m
      {| lin_ind := out_arcs i (V_Prime_N_plus_1_sequence self);
         lin_val := list_mul [1] (len (V_Prime_N_plus_1_sequence self) - 1);
         lin_sense := SenseL; lin_rhs := 1 |})) m.

(** Route consistency. The source calls the arcs leaving [j] [in_vars] and
    the arcs entering it [out_vars]. *)
Definition add_flow_constraints (self : Solver) (m : Model) : result Model :=
  for_each (V_Prime_sequence self) (λ j m,
    let in_vars := out_arcs j (V_Prime_N_plus_1_sequence self) in
    let out_vars := in_arcs j (V_Prime_0_sequence self) in
    Ok (linear_constraints_add m
      {| lin_ind := in_vars ++ out_vars;
         lin_val := list_mul [1] (len in_vars) ++ list_mul [-1] (len out_vars);
         lin_sense := SenseE; lin_rhs := 0 |})) m.

(** Travel time, customer or start depot origin. *)
Definition add_time_constraints (self : Solver) (m : Model) : result Model :=
  for_arcs (Depot_start self ++ V_sequence self) (V_Prime_N_plus_1_sequence self)
    (λ i j,
      t ← mat_get (Travel_Time self) i j;
      s ← Py.index (CustomerService self) i;
      Ok {| lin_ind := [tao_name i; tao_name j; x_name i j];
            lin_val := [1; -1; t + s + l_0 self];
            lin_sense := SenseL; lin_rhs := l_0 self |}) m.

(** Travel time, recharging station origin. *)
Definition add_time_constraints_RS (self : Solver) (m : Model) : result Model :=
  for_arcs (F_Prime_sequence self) (V_Prime_N_plus_1_sequence self)
    (λ i j,
      Ok {| lin_ind := [tao_name i; tao_name j; x_name i j; y_name i];
            lin_val := [1; -1; l_0 self + g self * Q self; - g self];
            lin_sense := SenseL; lin_rhs := l_0 self |}) m.

(** Load capacity. *)
Definition add_load_constraints (self : Solver) (m : Model) : result Model :=
  for_arcs (V_Prime_0_sequence self) (V_Prime_N_plus_1_sequence self)
    (λ i j,
      q ← Py.index (CustomerDemand self) i;
      Ok {| lin_ind := [u_name j; u_name i; x_name i j];
            lin_val := [1; -1; C self + q];
            lin_sense := SenseL; lin_rhs := C self |}) m.

(** Battery, customer origin. *)
Definition add_battery_constraints (self : Solver) (m : Model) : result Model :=
  for_arcs (V_sequence self) (V_Prime_N_plus_1_sequence self)
    (λ i j,
      d ← mat_get (distance_matrix self) i j;
      Ok {| lin_ind := [y_name j; y_name i; x_name i j];
            lin_val := [1; -1; h self * d + Q self];
            lin_sense := SenseL; lin_rhs := Q self |}) m.

(** Battery, start depot or recharging station origin. *)
Definition add_battery_constraints_RS (self : Solver) (m : Model) : result Model :=
  for_arcs (Depot_start self ++ F_Prime_sequence self)
    (V_Prime_N_plus_1_sequence self)
    (λ i j,
      d ← mat_get (distance_matrix self) i j;
      Ok {| lin_ind := [y_name j; x_name i j];
            lin_val := [1; h self * d];
            lin_sense := SenseL; lin_rhs := Q self |}) m.

(** [_set_constraints] *)
Definition _set_constraints (self : Solver) : result Solver :=
  m ← add_customer_constraints self (model self);
  m ← add_station_constraints self m;
  m ← add_flow_constraints self m;
  m ← add_time_constraints self m;
  m ← add_time_constraints_RS self m;
  m ← add_load_constraints self m;
  m ← add_battery_constraints self m;
  m ← add_battery_constraints_RS self m;
  Ok (set_model self m).

(** [_initialize_model] *)
Definition _initialize_model (self : Solver) : result Solver :=
  self ← _set_decision_variable self;
  self ← _set_objective_function self;
  _set_constraints self.

(** The default value of [l_0] *)
Definition l_0_default : R := 1000.

(** The attribute assignments of [EVPR_TW_Solver.__init__], with
    [d_first] and [d_last] for [self.D[0]] and [self.D[-1]]. *)
Definition attributes (Graph : Graph) (l_0 : R) (d_first d_last : Z) : Solver :=
  let V_sequence := Customer_Idx Graph in
  let F_Prime_sequence := RS_Idx Graph in
  {| model := Cplex;
     path_link_variable := [];
     objective_function_coef := [];
     V_sequence := V_sequence;
     F_Prime_sequence := F_Prime_sequence;
     D := Depot_Idx Graph;
     Depot_start := [0%Z];
     Depot_end := [(len (Nodes Graph) - 1)%Z];
     V_Prime_N_plus_1_sequence := V_sequence ++ F_Prime_sequence ++ [d_last];
     V_Prime_0_sequence := [d_first] ++ V_sequence ++ F_Prime_sequence;
     V_Prime_sequence := V_sequence ++ F_Prime_sequence;
     C := EVRP_Graph.C Graph;
     Q := EVRP_Graph.Q Graph;
     h := EVRP_Graph.r Graph;
     g := EVRP_Graph.g Graph;
     l_0 := l_0;
     distance_matrix := EVRP_Graph.distance_matrix Graph;
     model_size := len (Nodes Graph);
     CustomerTimeWindow := CustomerTW Graph;
     CustomerService := CustomerServiceTime Graph;
     CustomerDemand := EVRP_Graph.CustomerDemand Graph;
     Travel_Time := travel_time_matrix Graph;
     tao_names := []; u_names := []; y_names := [] |}.

(** [EVPR_TW_Solver.__init__] *)
Definition EVPR_TW_Solver (Graph : Graph) (l_0 : R) : result Solver :=
  d_last ← Py.index (Depot_Idx Graph) (-1);
  d_first ← Py.index (Depot_Idx Graph) 0;
  _initialize_model (attributes Graph l_0 d_first d_last).

(** *** Reading a constraint *)

(** The value of the linear expression under an assignment of the
    variables. *)
Definition lin_value (ρ : string → R) (c : linear_constraint) : R :=
  foldr Rplus 0 (zip_with (λ name k, k * ρ name) (lin_ind c) (lin_val c)).

Definition satisfies (ρ : string → R) (c : linear_constraint) : Prop :=
  match lin_sense c with
  | SenseL => lin_value ρ c <= lin_rhs c
  | SenseE => lin_value ρ c = lin_rhs c
  | SenseG => lin_value ρ c >= lin_rhs c
  end.

(** The sparse pair has as many coefficients as names. *)
Definition well_formed (c : linear_constraint) : Prop :=
  length (lin_ind c) = length (lin_val c).

(** The sum of the values of a list of variables. *)
Definition sum_of (ρ : string → R) (names : list string) : R :=
  foldr Rplus 0 (map ρ names).

(** *** Reading the solution *)

(** Python compares floats with [>]: on real numbers, the order. *)
#[global] Instance Rgt_decision : RelDecision Rgt := Rgt_dec.

(** A [dict] that is iterated over: its items in insertion order, no key
    twice. [d[k] = v] replaces the value of a key that is there and adds
    the item at the end otherwise. *)
Definition dict_setitem {A : Type} (d : list (string * A)) (k : string) (v : A)
  : list (string * A) :=
  if bool_decide (k ∈ d.*1)
  then map (λ kv, if bool_decide (kv.1 = k) then (k, v) else kv) d
  else d ++ [(k, v)].

(** [print_results], for a model that has a solution: [get_values] is
    [self.model.solution.get_values]. The result is the list of routes
    that [find_and_print_routes] prints, or [None] when it is not called.
    The other lines that are printed are not part of the result. *)
Definition print_results (self : Solver) (get_values : string → R)
    (Optimal_Value DV_Info Routes : bool)
  : result (option (list (list string))) :=
  if DV_Info || Routes then
    Routes ← for_each (range 0 (model_size self)) (λ i Routes,
      for_each (range 0 (model_size self)) (λ j Routes,
        if bool_decide (i ≠ j) && bool_decide (get_values (x_name i j) > 0.5)
        then Ok (dict_setitem Routes (x_name i j) 1%Z)
        else Ok Routes) Routes) [];
    if bool_decide (Routes ≠ []) then
      end_node_idx ← Py.index (D self) (-1);
      routes ← find_and_print_routes Routes.*1 end_node_idx;
      Ok (Some routes)
    else Ok None
  else Ok None.

End EVRP_Solver.
Export EVRP_Solver.

(** ** main.py *)
Module Main.

Section main.

(** The library calls are taken as given: those of [parse_file], and
    [Solver.solver()], which leaves in the CPLEX model the values of the
    variables. The run is modelled for a model that CPLEX solves; when it
    has no solution the calls that read the solution raise a CPLEX
    error, which is outside this model. *)
Variable node_match : string → option node_groups.
Variable parameter_match : string → option (string * string).
Variable float : string → result R.
Variable solve : Model → string → R.

(** [main], on the lines of the file at [file_path]. *)
Definition main (file : list string) : result (option (list (list string))) :=
  p ← parse_file node_match parameter_match float file;
  Graph ← Graph_EVRP_TW (DataParser.Depot_nodes p) (DataParser.Customer_nodes p)
             (DataParser.RS_nodes p) (DataParser.parameters p)
             RS_dummy_count_default;
  Solver ← EVPR_TW_Solver Graph l_0_default;
  let get_values := solve (model Solver) in
  print_results Solver get_values true false true.

End main.

End Main.
Export Main.
(** * The vocabulary of the properties *)
Section vocabulary.
Local Open Scope R_scope.

(** Shape [(n, m)]. *)
Definition shape (n m : nat) (a : matrix) : Prop :=
  length a = n ∧ Forall (λ row, length row = m) a.

(** The entry at row [i], column [j], when there is one. *)
Definition entry (a : matrix) (i j : nat) : option R :=
  a !! i ≫= λ row, row !! j.

(** The distance between the nodes at two positions of the node
    sequence. *)
Definition dist (Nodes : list Node) (i j : nat) : R :=
  match Nodes !! i, Nodes !! j with
  | Some a, Some b => euclidean_distance (Position a) (Position b)
  | _, _ => 0
  end.

(** All five vehicle parameters are in the dictionary. *)
Definition has_parameters (parameters : gmap string R) : bool :=
  forallb (λ k, bool_decide (is_Some (parameters !! k))) ["Q"; "C"; "r"; "g"; "v"].

(** The model with more rows. *)
Definition add_rows (m : Model) (cs : list linear_constraint) : Model :=
  {| objective := objective m; variables := variables m;
     linear_constraints := linear_constraints m ++ cs |}.

(** The ordered pairs [(i, j)], [i] in [origins], [j] in [successors],
    [i ≠ j], in the order of the nested loops. *)
Definition arcs (origins successors : list Z) : list (Z * Z) :=
  flat_map (λ i, map (pair i) (filter (λ j, i ≠ j) successors)) origins.

(** Total reading of a list and of an array, for indices known to be in
    range. *)
Definition lookup0 (l : list R) (i : Z) : R := default 0 (l !! Z.to_nat i).

Definition entry0 (a : matrix) (i j : Z) : R :=
  default 0 (entry a (Z.to_nat i) (Z.to_nat j)).

(** The rows of each loop, read off the solver's attributes. *)
Definition rows_customer (self : Solver) : list linear_constraint :=
  map (λ i,
    {| lin_ind := out_arcs i (V_Prime_N_plus_1_sequence self);
       lin_val := list_mul [1] (len (V_Prime_N_plus_1_sequence self) - 1);
       lin_sense := SenseE; lin_rhs := 1 |}) (V_sequence self).

Definition rows_station (self : Solver) : list linear_constraint :=
  map (λ i,
    {| lin_ind := out_arcs i (V_Prime_N_plus_1_sequence self);
       lin_val := list_mul [1] (len (V_Prime_N_plus_1_sequence self) - 1);
       lin_sense := SenseL; lin_rhs := 1 |}) (F_Prime_sequence self).

Definition rows_flow (self : Solver) : list linear_constraint :=
  map (λ j,
    {| lin_ind := out_arcs j (V_Prime_N_plus_1_sequence self)
                  ++ in_arcs j (V_Prime_0_sequence self);
       lin_val :=
         list_mul [1] (len (out_arcs j (V_Prime_N_plus_1_sequence self)))
         ++ list_mul [-1] (len (in_arcs j (V_Prime_0_sequence self)));
       lin_sense := SenseE; lin_rhs := 0 |}) (V_Prime_sequence self).

Definition row_time (self : Solver) (i j : Z) : linear_constraint :=
  {| lin_ind := [tao_name i; tao_name j; x_name i j];
     lin_val := [1; -1; entry0 (Travel_Time self) i j
                        + lookup0 (CustomerService self) i + l_0 self];
     lin_sense := SenseL; lin_rhs := l_0 self |}.

Definition row_time_RS (self : Solver) (i j : Z) : linear_constraint :=
  {| lin_ind := [tao_name i; tao_name j; x_name i j; y_name i];
     lin_val := [1; -1; l_0 self + g self * Q self; - g self];
     lin_sense := SenseL; lin_rhs := l_0 self |}.

Definition row_load (self : Solver) (i j : Z) : linear_constraint :=
  {| lin_ind := [u_name j; u_name i; x_name i j];
     lin_val := [1; -1; C self + lookup0 (CustomerDemand self) i];
     lin_sense := SenseL; lin_rhs := C self |}.

Definition row_battery (self : Solver) (i j : Z) : linear_constraint :=
  {| lin_ind := [y_name j; y_name i; x_name i j];
     lin_val := [1; -1; h self * entry0 (distance_matrix self) i j + Q self];
     lin_sense := SenseL; lin_rhs := Q self |}.

Definition row_battery_RS (self : Solver) (i j : Z) : linear_constraint :=
  {| lin_ind := [y_name j; x_name i j];
     lin_val := [1; h self * entry0 (distance_matrix self) i j];
     lin_sense := SenseL; lin_rhs := Q self |}.

Definition rows_over (self : Solver) (row : Solver → Z → Z → linear_constraint)
    (origins : list Z) : list linear_constraint :=
  map (λ p, row self p.1 p.2) (arcs origins (V_Prime_N_plus_1_sequence self)).

(** All rows, in the order in which [_set_constraints] adds them. *)
Definition all_rows (self : Solver) : list linear_constraint :=
  rows_customer self ++ rows_station self ++ rows_flow self
  ++ rows_over self row_time (Depot_start self ++ V_sequence self)
  ++ rows_over self row_time_RS (F_Prime_sequence self)
  ++ rows_over self row_load (V_Prime_0_sequence self)
  ++ rows_over self row_battery (V_sequence self)
  ++ rows_over self row_battery_RS (Depot_start self ++ F_Prime_sequence self).

(** The indices of [l] are positions of a sequence of length [n]. *)
Definition in_bounds (n : nat) (l : list Z) : Prop :=
  Forall (λ i, (0 <= i < Z.of_nat n)%Z) l.

(** Every array read of [_set_constraints] is in range. *)
Definition reads_in_range (self : Solver) (n : nat) : Prop :=
  shape n n (Travel_Time self) ∧ shape n n (distance_matrix self)
  ∧ length (CustomerService self) = n ∧ length (CustomerDemand self) = n
  ∧ in_bounds n (Depot_start self) ∧ in_bounds n (V_sequence self)
  ∧ in_bounds n (F_Prime_sequence self) ∧ in_bounds n (V_Prime_0_sequence self)
  ∧ in_bounds n (V_Prime_N_plus_1_sequence self).

(** The graph was built from at least one depot node. *)
Definition built_graph (g : Graph) : Prop :=
  ∃ Dn Cn Sn params Rf,
    Dn ≠ [] ∧ Graph_EVRP_TW Dn Cn Sn params Rf = Ok g.

(** The solver's attributes on a graph with [n] nodes. *)
Definition attributes_of (g : Graph) (l_0 : R) : Solver :=
  attributes g l_0 0 (len (Nodes g) - 1).

(** Index sets of the formulation. *)
Definition start_depot : Z := 0.

Definition end_depot (g : Graph) : Z := len (Nodes g) - 1.

Definition valid_successors (g : Graph) : list Z :=
  Customer_Idx g ++ RS_Idx g ++ [end_depot g].

Definition valid_predecessors (g : Graph) : list Z :=
  start_depot :: Customer_Idx g ++ RS_Idx g.

(** The selected arcs leaving [i], and those entering [j]. *)
Definition outgoing (g : Graph) (i : Z) : list string :=
  map (λ j, x_name i j) (filter (λ j, j ≠ i) (valid_successors g)).

Definition incoming (g : Graph) (j : Z) : list string :=
  map (λ i, x_name i j) (filter (λ i, i ≠ j) (valid_predecessors g)).

(** [nd] is the node at index [i] of the graph. *)
Definition node_at (g : Graph) (i : Z) (nd : Node) : Prop :=
  (0 <= i)%Z ∧ Nodes g !! Z.to_nat i = Some nd.

(** The eight blocks of rows, one per loop of [_set_constraints], with
    the number of rows of each. *)
Record blocks : Type := {
  customer_rows : list linear_constraint;
  station_rows : list linear_constraint;
  flow_rows : list linear_constraint;
  time_rows : list linear_constraint;
  time_RS_rows : list linear_constraint;
  load_rows : list linear_constraint;
  battery_rows : list linear_constraint;
  battery_RS_rows : list linear_constraint;
}.

Definition blocks_of (g : Graph) (rows : list linear_constraint) (b : blocks)
  : Prop :=
  rows = customer_rows b ++ station_rows b ++ flow_rows b ++ time_rows b
         ++ time_RS_rows b ++ load_rows b ++ battery_rows b ++ battery_RS_rows b
  ∧ length (customer_rows b) = length (Customer_Idx g)
  ∧ length (station_rows b) = length (RS_Idx g)
  ∧ length (flow_rows b) = length (Customer_Idx g ++ RS_Idx g)
  ∧ length (time_rows b)
    = length (arcs (start_depot :: Customer_Idx g) (valid_successors g))
  ∧ length (time_RS_rows b) = length (arcs (RS_Idx g) (valid_successors g))
  ∧ length (load_rows b)
    = length (arcs (valid_predecessors g) (valid_successors g))
  ∧ length (battery_rows b)
    = length (arcs (Customer_Idx g) (valid_successors g))
  ∧ length (battery_RS_rows b)
    = length (arcs (start_depot :: RS_Idx g) (valid_successors g)).

(** Customer coverage: the arcs leaving customer [i] sum to exactly 1. *)
Definition customer_coverage (g : Graph) (i : Z) (c : linear_constraint) : Prop :=
  lin_ind c = outgoing g i ∧ well_formed c ∧ lin_sense c = SenseE
  ∧ ∀ ρ, satisfies ρ c ↔ sum_of ρ (outgoing g i) = 1.

(** Station visitation bound: the arcs leaving station replica [i] sum to
    at most 1. *)
Definition station_bound (g : Graph) (i : Z) (c : linear_constraint) : Prop :=
  lin_ind c = outgoing g i ∧ well_formed c ∧ lin_sense c = SenseL
  ∧ ∀ ρ, satisfies ρ c ↔ sum_of ρ (outgoing g i) <= 1.

(** Flow conservation at [j]: inflow equals outflow. *)
Definition flow_conservation (g : Graph) (j : Z) (c : linear_constraint) : Prop :=
  well_formed c ∧ lin_sense c = SenseE
  ∧ (∀ name, name ∈ lin_ind c ↔ name ∈ incoming g j ∨ name ∈ outgoing g j)
  ∧ ∀ ρ, satisfies ρ c ↔ sum_of ρ (incoming g j) = sum_of ρ (outgoing g j).

(** Time propagation, customer or start depot origin:
    [τ_i − τ_j + (travel_time(i,j) + service(i) + L₀)·x_ij ≤ L₀]. *)
Definition time_propagation (g : Graph) (L0 : R) (arc : Z * Z)
    (c : linear_constraint) : Prop :=
  ∃ ni nj, node_at g arc.1 ni ∧ node_at g arc.2 nj
    ∧ lin_ind c = [tao_name arc.1; tao_name arc.2; x_name arc.1 arc.2]
    ∧ well_formed c
    ∧ ∀ ρ, satisfies ρ c ↔
        ρ (tao_name arc.1) - ρ (tao_name arc.2)
        + (euclidean_distance (Position ni) (Position nj) / v g
           + ServiceTime ni + L0) * ρ (x_name arc.1 arc.2) <= L0.

(** Time propagation, station origin:
    [τ_i − τ_j + (L₀ + g·Q)·x_ij − g·y_i ≤ L₀]. *)
Definition time_propagation_RS (g : Graph) (L0 : R) (arc : Z * Z)
    (c : linear_constraint) : Prop :=
  lin_ind c = [tao_name arc.1; tao_name arc.2; x_name arc.1 arc.2; y_name arc.1]
  ∧ well_formed c
  ∧ ∀ ρ, satisfies ρ c ↔
      ρ (tao_name arc.1) - ρ (tao_name arc.2)
      + (L0 + EVRP_Graph.g g * EVRP_Graph.Q g) * ρ (x_name arc.1 arc.2)
      - EVRP_Graph.g g * ρ (y_name arc.1) <= L0.

(** Battery propagation, customer origin:
    [y_j − y_i + (h·distance(i,j) + Q)·x_ij ≤ Q], with [h] the consumption
    rate [r]. *)
Definition battery_propagation (g : Graph) (arc : Z * Z)
    (c : linear_constraint) : Prop :=
  ∃ ni nj, node_at g arc.1 ni ∧ node_at g arc.2 nj
    ∧ lin_ind c = [y_name arc.2; y_name arc.1; x_name arc.1 arc.2]
    ∧ well_formed c
    ∧ ∀ ρ, satisfies ρ c ↔
        ρ (y_name arc.2) - ρ (y_name arc.1)
        + (r g * euclidean_distance (Position ni) (Position nj) + EVRP_Graph.Q g)
          * ρ (x_name arc.1 arc.2) <= EVRP_Graph.Q g.

(** Battery propagation, start depot or station origin:
    [y_j + h·distance(i,j)·x_ij ≤ Q]. *)
Definition battery_propagation_RS (g : Graph) (arc : Z * Z)
    (c : linear_constraint) : Prop :=
  ∃ ni nj, node_at g arc.1 ni ∧ node_at g arc.2 nj
    ∧ lin_ind c = [y_name arc.2; x_name arc.1 arc.2]
    ∧ well_formed c
    ∧ ∀ ρ, satisfies ρ c ↔
        ρ (y_name arc.2)
        + r g * euclidean_distance (Position ni) (Position nj)
          * ρ (x_name arc.1 arc.2) <= EVRP_Graph.Q g.

(** The rows of the model, cut into the eight blocks. *)
Definition blocks_of_solver (g : Graph) (l_0 : R) : blocks :=
  let self := attributes_of g l_0 in
  {| customer_rows := rows_customer self;
     station_rows := rows_station self;
     flow_rows := rows_flow self;
     time_rows := rows_over self row_time (Depot_start self ++ V_sequence self);
     time_RS_rows := rows_over self row_time_RS (F_Prime_sequence self);
     load_rows := rows_over self row_load (V_Prime_0_sequence self);
     battery_rows := rows_over self row_battery (V_sequence self);
     battery_RS_rows :=
       rows_over self row_battery_RS (Depot_start self ++ F_Prime_sequence self) |}.

(** A small instance: one depot, two customers, one station. *)
Definition example_depot : Node :=
  {| StringId := "D0"; Type_ := "d"; Position := (40, 50)%R;
     Demand := 0%R; Window := (0, 1236)%R; ServiceTime := 0%R |}.

Definition example_customer_1 : Node :=
  {| StringId := "C1"; Type_ := "c"; Position := (20, 55)%R;
     Demand := 10%R; Window := (355, 407)%R; ServiceTime := 90%R |}.

Definition example_customer_2 : Node :=
  {| StringId := "C2"; Type_ := "c"; Position := (25, 30)%R;
     Demand := 20%R; Window := (0, 1236)%R; ServiceTime := 90%R |}.

Definition example_station : Node :=
  {| StringId := "S5"; Type_ := "f"; Position := (31, 84)%R;
     Demand := 0%R; Window := (0, 1236)%R; ServiceTime := 0%R |}.

Definition example_parameters : gmap string R :=
  <["Q" := 77.75%R]> (<["C" := 200%R]> (<["r" := 1%R]>
    (<["g" := 3.47%R]> (<["v" := 1%R]> ∅)))).

(** Graph or formulation construction aborts with an error. *)
Definition rejects (Dn Cn Sn : list Node) (params : gmap string R) (Rf : Z)
    (l_0 : R) : Prop :=
  (∃ e, Graph_EVRP_TW Dn Cn Sn params Rf = Raise e)
  ∨ (∃ g e, Graph_EVRP_TW Dn Cn Sn params Rf = Ok g
            ∧ EVPR_TW_Solver g l_0 = Raise e).

(** A second depot. *)
Definition example_depot_2 : Node :=
  {| StringId := "D1"; Type_ := "d"; Position := (10, 10)%R;
     Demand := 0%R; Window := (0, 1236)%R; ServiceTime := 0%R |}.

(** A line that [parse_line] files under the customers. *)
Definition customer_line (node_match : string → option node_groups)
    (line : string) : Prop :=
  ∃ m, node_match line = Some m
    ∧ startswith (group1 m) "D" = false
    ∧ startswith (group1 m) "S" = false
    ∧ startswith (group1 m) "C" = true.

(** A file with a depot line only, read with matchers that recognise
    just that line. *)
Definition example_node_match (line : string) : option node_groups :=
  if startswith line "D0 " then
    Some {| group1 := "D0"; group2 := "d"; group3 := "40.0"; group4 := "50.0";
            group5 := "0.0"; group6 := "0.0"; group7 := "1236.0";
            group8 := "0.0" |}
  else None.

Definition example_parameter_match (line : string) : option (string * string) :=
  None.

Definition example_float (s : string) : result R := Ok 0%R.

(** Each arc ends where the next one starts. *)
Fixpoint contiguous (arcs : list (Z * Z)) : bool :=
  match arcs with
  | (_, j) :: (((i', _) :: _) as rest) => bool_decide (j = i') && contiguous rest
  | _ => true
  end.

(** A route in the words of the spec: labels of arcs that form a path
    from the start depot (index 0) to the end depot, no arc twice. *)
Definition is_route (end_node_idx : Z) (route : list string) : Prop :=
  ∃ arcs : list (Z * Z),
    Forall2 (λ label arc, label_indices label = Ok arc) route arcs
    ∧ contiguous arcs = true
    ∧ fst <$> head arcs = Some 0%Z
    ∧ snd <$> last arcs = Some end_node_idx
    ∧ NoDup route.

(** Two lists of routes with the same members. *)
Definition same_routes (rs1 rs2 : list (list string)) : Prop :=
  ∀ route, route ∈ rs1 ↔ route ∈ rs2.

(** The number of labels of [sequence] that are not marked as visited. *)
Definition unvisited (sequence : list string) (st : search_state) : nat :=
  size ((list_to_set sequence : gset string) ∖ visited st).

(** The only exception: [ValueError], from a label of [sequence] that is
    not of the form [x_i_j]. *)
Definition label_error (sequence : list string) (e : exn) : Prop :=
  e = ValueError
  ∧ ∃ label, label ∈ sequence ∧ label_indices label = Raise ValueError.

(** An arc set without branching below the start arcs: no label twice,
    at most one arc out of every node but the start depot, no arc into
    the start depot. *)
Definition no_branching (sequence : list string) : Prop :=
  NoDup sequence
  ∧ (∀ a b i ja jb, a ∈ sequence → b ∈ sequence →
       label_indices a = Ok (i, ja) → label_indices b = Ok (i, jb) →
       i ≠ 0%Z → a = b)
  ∧ (∀ a i, a ∈ sequence → label_indices a ≠ Ok (i, 0%Z)).

(** The labels of [path] form a path from the start depot to [j], no
    label twice, and all of them are marked as visited. *)
Definition path_to (path : list string) (j : Z) (V : gset string) : Prop :=
  ∃ arcs : list (Z * Z),
    Forall2 (λ label arc, label_indices label = Ok arc) path arcs
    ∧ contiguous arcs = true
    ∧ fst <$> head arcs = Some 0%Z
    ∧ snd <$> last arcs = Some j
    ∧ NoDup path
    ∧ ∀ label, label ∈ path → label ∈ V.

(** The first label of [route] is a start arc, its last label an arc into
    the end depot, and all its labels come from [sequence]. *)
Definition route_ends (sequence : list string) (end_node_idx : Z)
    (route : list string) : Prop :=
  ∃ first j final i,
    head route = Some first
    ∧ startswith first "x_0_" = true
    ∧ label_indices first = Ok (0%Z, j)
    ∧ last route = Some final
    ∧ label_indices final = Ok (i, end_node_idx)
    ∧ ∀ label, label ∈ route → label ∈ sequence.

(** No character of [s] is the separator. *)
Fixpoint no_underscore (s : string) : bool :=
  match s with
  | EmptyString => true
  | String a s' => negb (Ascii.eqb a "_") && no_underscore s'
  end.

(** The index of replica [r] of station [k]. *)
Definition replica_index (Dn Cn Sn : list Node) (r k : Z) : Z :=
  (len Dn + len Cn + r * len Sn + k)%Z.


(** Load propagation: [u_j − u_i + (C + demand(i))·x_ij ≤ C]. *)
Definition load_propagation (g : Graph) (arc : Z * Z)
    (c : linear_constraint) : Prop :=
  ∃ ni, node_at g arc.1 ni
    ∧ lin_ind c = [u_name arc.2; u_name arc.1; x_name arc.1 arc.2]
    ∧ well_formed c
    ∧ ∀ ρ, satisfies ρ c ↔
        ρ (u_name arc.2) - ρ (u_name arc.1)
        + (EVRP_Graph.C g + Demand ni) * ρ (x_name arc.1 arc.2)
        <= EVRP_Graph.C g.

(** The binary variable of the arc [p], with the distance as its
    objective coefficient and no bounds given. *)
Definition arc_variable (g : Graph) (p : Z * Z) (x : variable) : Prop :=
  ∃ ni nj, node_at g p.1 ni ∧ node_at g p.2 nj
    ∧ x = {| var_name := x_name p.1 p.2;
             var_obj := euclidean_distance (Position ni) (Position nj);
             var_kind := Binary; var_lb := None; var_ub := None |}.

(** The three continuous variables of node [i]: arrival time within the
    node's window, load between 0 and [C], battery level up to [Q] (and
    exactly [Q] at index 0). *)
Definition node_variables (g : Graph) (i : Z) (xs : list variable) : Prop :=
  ∃ ni, node_at g i ni
    ∧ xs = [ {| var_name := tao_name i; var_obj := 0; var_kind := Continuous;
                var_lb := Some (Window ni).1; var_ub := Some (Window ni).2 |};
             {| var_name := u_name i; var_obj := 0; var_kind := Continuous;
                var_lb := Some 0; var_ub := Some (EVRP_Graph.C g) |};
             {| var_name := y_name i; var_obj := 0; var_kind := Continuous;
                var_lb := Some (if bool_decide (i = 0%Z)
                                then EVRP_Graph.Q g else 0);
                var_ub := Some (EVRP_Graph.Q g) |} ].

(** The variables that [_set_objective_function] declares, read off the
    solver's attributes. *)
Definition arc_variable_at (self : Solver) (p : Z * Z) : variable :=
  {| var_name := x_name p.1 p.2;
     var_obj := entry0 (distance_matrix self) p.1 p.2;
     var_kind := Binary; var_lb := None; var_ub := None |}.

Definition node_variables_at (self : Solver) (i : Z) : list variable :=
  let tw := default (0, 0) (CustomerTimeWindow self !! Z.to_nat i) in
  [ {| var_name := tao_name i; var_obj := 0; var_kind := Continuous;
       var_lb := Some tw.1; var_ub := Some tw.2 |};
    {| var_name := u_name i; var_obj := 0; var_kind := Continuous;
       var_lb := Some 0; var_ub := Some (C self) |};
    {| var_name := y_name i; var_obj := 0; var_kind := Continuous;
       var_lb := Some (if bool_decide (i = 0%Z) then Q self else 0);
       var_ub := Some (Q self) |} ].

Definition all_variables (self : Solver) : list variable :=
  map (arc_variable_at self)
    (arcs (range 0 (model_size self)) (range 0 (model_size self)))
  ++ flat_map (node_variables_at self) (range 0 (model_size self)).

(** A name that a row may mention: an arc from a valid predecessor to a
    valid successor, or one of the three variables of a node. *)
Definition row_name (g : Graph) (name : string) : Prop :=
  (∃ i j, i ∈ valid_predecessors g ∧ j ∈ valid_successors g ∧ i ≠ j
          ∧ name = x_name i j)
  ∨ (∃ i, (0 <= i < len (Nodes g))%Z
          ∧ (name = tao_name i ∨ name = u_name i ∨ name = y_name i)).

(** The name of a variable of the model. *)
Definition declared (s : Solver) (name : string) : Prop :=
  ∃ x, x ∈ variables (model s) ∧ var_name x = name.

(** What a travel-time row says by the value of its arc variable. On a
    selected arc (value 1), customer or start depot origin: service at
    [j] starts no earlier than at [i] plus the service and travel time.
    On an arc that is not selected (value 0) the row still bounds the
    difference of the two times by [L₀]. *)
Definition time_reading (g : Graph) (L0 : R) (arc : Z * Z)
    (c : linear_constraint) : Prop :=
  ∃ ni nj, node_at g arc.1 ni ∧ node_at g arc.2 nj ∧ ∀ ρ,
    (ρ (x_name arc.1 arc.2) = 1 →
       (satisfies ρ c ↔
          ρ (tao_name arc.1) + ServiceTime ni
          + euclidean_distance (Position ni) (Position nj) / v g
          <= ρ (tao_name arc.2)))
    ∧ (ρ (x_name arc.1 arc.2) = 0 →
       (satisfies ρ c ↔ ρ (tao_name arc.1) - ρ (tao_name arc.2) <= L0)).

(** Station origin: on a selected arc the time at [j] is at least the
    time at [i] plus the time to recharge from [y_i] to [Q]. *)
Definition time_reading_RS (g : Graph) (L0 : R) (arc : Z * Z)
    (c : linear_constraint) : Prop :=
  ∀ ρ,
    (ρ (x_name arc.1 arc.2) = 1 →
       (satisfies ρ c ↔
          ρ (tao_name arc.1)
          + EVRP_Graph.g g * (EVRP_Graph.Q g - ρ (y_name arc.1))
          <= ρ (tao_name arc.2)))
    ∧ (ρ (x_name arc.1 arc.2) = 0 →
       (satisfies ρ c ↔
          ρ (tao_name arc.1) - ρ (tao_name arc.2)
          - EVRP_Graph.g g * ρ (y_name arc.1) <= L0)).

(** Load: on a selected arc the load at [j] is at most the load at [i]
    less the demand of [i]. *)
Definition load_reading (g : Graph) (arc : Z * Z)
    (c : linear_constraint) : Prop :=
  ∃ ni, node_at g arc.1 ni ∧ ∀ ρ,
    (ρ (x_name arc.1 arc.2) = 1 →
       (satisfies ρ c ↔ ρ (u_name arc.2) <= ρ (u_name arc.1) - Demand ni))
    ∧ (ρ (x_name arc.1 arc.2) = 0 →
       (satisfies ρ c ↔ ρ (u_name arc.2) - ρ (u_name arc.1) <= EVRP_Graph.C g)).

(** Battery, customer origin: on a selected arc the level at [j] is at
    most the level at [i] less the consumption on the arc. *)
Definition battery_reading (g : Graph) (arc : Z * Z)
    (c : linear_constraint) : Prop :=
  ∃ ni nj, node_at g arc.1 ni ∧ node_at g arc.2 nj ∧ ∀ ρ,
    (ρ (x_name arc.1 arc.2) = 1 →
       (satisfies ρ c ↔
          ρ (y_name arc.2)
          <= ρ (y_name arc.1)
             - r g * euclidean_distance (Position ni) (Position nj)))
    ∧ (ρ (x_name arc.1 arc.2) = 0 →
       (satisfies ρ c ↔ ρ (y_name arc.2) - ρ (y_name arc.1) <= EVRP_Graph.Q g)).

(** Battery, start depot or station origin: on a selected arc the level
    at [j] is at most a full battery less the consumption on the arc. *)
Definition battery_reading_RS (g : Graph) (arc : Z * Z)
    (c : linear_constraint) : Prop :=
  ∃ ni nj, node_at g arc.1 ni ∧ node_at g arc.2 nj ∧ ∀ ρ,
    (ρ (x_name arc.1 arc.2) = 1 →
       (satisfies ρ c ↔
          ρ (y_name arc.2)
          <= EVRP_Graph.Q g
             - r g * euclidean_distance (Position ni) (Position nj)))
    ∧ (ρ (x_name arc.1 arc.2) = 0 →
       (satisfies ρ c ↔ ρ (y_name arc.2) <= EVRP_Graph.Q g)).

(** The arcs whose variable has a value above 0.5, in the order of the
    loops of [print_results], and their labels. *)
Definition selected_arcs (n : Z) (ρ : string → R) : list (Z * Z) :=
  filter (λ p, ρ (x_name p.1 p.2) > 0.5) (arcs (range 0 n) (range 0 n)).

Definition selected_labels (n : Z) (ρ : string → R) : list string :=
  map (λ p, x_name p.1 p.2) (selected_arcs n ρ).

(** No branching before the end depot: as [no_branching], but arcs out of
    the end depot, which the search never follows, may branch. *)
Definition no_branching_before (end_node_idx : Z) (sequence : list string)
  : Prop :=
  NoDup sequence
  ∧ (∀ a b i ja jb, a ∈ sequence → b ∈ sequence →
       label_indices a = Ok (i, ja) → label_indices b = Ok (i, jb) →
       i ≠ 0%Z → i ≠ end_node_idx → a = b)
  ∧ (∀ a i, a ∈ sequence → label_indices a ≠ Ok (i, 0%Z)).

(** The values of the arc variables are 0 or 1. *)
Definition binary_arcs (ρ : string → R) : Prop :=
  ∀ i j, ρ (x_name i j) = 0 ∨ ρ (x_name i j) = 1.

(** No arc into the start depot is selected. *)
Definition no_arc_into_start (ρ : string → R) : Prop :=
  ∀ i, ρ (x_name i 0) <= 0.5.

(** A line that [parse_line] reads as the value [v] of the parameter
    [k]: it does not match the node pattern and matches the parameter
    pattern. *)
Definition parameter_line (node_match : string → option node_groups)
    (parameter_match : string → option (string * string))
    (line k v : string) : Prop :=
  node_match line = None ∧ parameter_match line = Some (k, v).

(** The list that holds a node with the identifier [id], by the first
    prefix among [D], [S], [C] that the identifier has. *)
Definition filed_by_prefix (p : parsed) : Prop :=
  Forall (λ nd, startswith (StringId nd) "D" = true) (DataParser.Depot_nodes p)
  ∧ Forall (λ nd, startswith (StringId nd) "D" = false
                  ∧ startswith (StringId nd) "S" = true)
      (DataParser.RS_nodes p)
  ∧ Forall (λ nd, startswith (StringId nd) "D" = false
                  ∧ startswith (StringId nd) "S" = false
                  ∧ startswith (StringId nd) "C" = true)
      (DataParser.Customer_nodes p).

(** A file with a depot, a station, two customers and a parameter that
    is given twice, and matchers for its lines. The station line has the
    type letter of a customer, and the first customer is at the depot's
    position. *)
Definition example_file : list string :=
  ["D0 d 40.0 50.0 0.0 0.0 1236.0 0.0";
   "S5 c 31.0 84.0 0.0 0.0 1236.0 0.0";
   "C0 c 40.0 50.0 0.0 0.0 1236.0 0.0";
   "C1 c 20.0 55.0 10.0 355.0 407.0 90.0";
   "v first /2.0/";
   "v second /1.0/"].

Definition example_groups (id type x y demand ready due service : string)
  : node_groups :=
  {| group1 := id; group2 := type; group3 := x; group4 := y;
     group5 := demand; group6 := ready; group7 := due; group8 := service |}.

Definition example_file_node_match (line : string) : option node_groups :=
  if startswith line "D0 " then
    Some (example_groups "D0" "d" "40.0" "50.0" "0.0" "0.0" "1236.0" "0.0")
  else if startswith line "S5 " then
    Some (example_groups "S5" "c" "31.0" "84.0" "0.0" "0.0" "1236.0" "0.0")
  else if startswith line "C0 " then
    Some (example_groups "C0" "c" "40.0" "50.0" "0.0" "0.0" "1236.0" "0.0")
  else if startswith line "C1 " then
    Some (example_groups "C1" "c" "20.0" "55.0" "10.0" "355.0" "407.0" "90.0")
  else if startswith line "X1 " then
    Some (example_groups "X1" "c" "20.0" "55.0" "10.0" "355.0" "407.0" "90.0")
  else None.

Definition example_file_parameter_match (line : string)
  : option (string * string) :=
  if startswith line "v first" then Some ("v", "2.0")
  else if startswith line "v second" then Some ("v", "1.0")
  else None.

Definition example_file_float (s : string) : result R :=
  if String.eqb s "0.0" then Ok 0
  else if String.eqb s "1.0" then Ok 1
  else if String.eqb s "2.0" then Ok 2
  else if String.eqb s "10.0" then Ok 10
  else if String.eqb s "20.0" then Ok 20
  else if String.eqb s "31.0" then Ok 31
  else if String.eqb s "40.0" then Ok 40
  else if String.eqb s "50.0" then Ok 50
  else if String.eqb s "55.0" then Ok 55
  else if String.eqb s "84.0" then Ok 84
  else if String.eqb s "90.0" then Ok 90
  else if String.eqb s "355.0" then Ok 355
  else if String.eqb s "407.0" then Ok 407
  else if String.eqb s "1236.0" then Ok 1236
  else Raise ValueError.

(** What the loop of [parse_file] collects from [example_file], and what
    [parse_file] returns. *)
Definition example_collected : parsed :=
  {| DataParser.Depot_nodes :=
       [{| StringId := "D0"; Type_ := "d"; Position := (40, 50);
           Demand := 0; Window := (0, 1236); ServiceTime := 0 |}];
     DataParser.Customer_nodes :=
       [{| StringId := "C0"; Type_ := "c"; Position := (40, 50);
           Demand := 0; Window := (0, 1236); ServiceTime := 0 |};
        {| StringId := "C1"; Type_ := "c"; Position := (20, 55);
           Demand := 10; Window := (355, 407); ServiceTime := 90 |}];
     DataParser.RS_nodes :=
       [{| StringId := "S5"; Type_ := "c"; Position := (31, 84);
           Demand := 0; Window := (0, 1236); ServiceTime := 0 |}];
     DataParser.parameters := <["v" := 1]> (<["v" := 2]> ∅) |}.

Definition example_parsed : parsed :=
  {| DataParser.Depot_nodes := DataParser.Depot_nodes example_collected;
     DataParser.Customer_nodes :=
       tail (DataParser.Customer_nodes example_collected);
     DataParser.RS_nodes := DataParser.RS_nodes example_collected;
     DataParser.parameters := DataParser.parameters example_collected |}.

(** An instance with one customer at distance 5 from the depot, and
    values of its variables for the tour depot, customer, depot. *)
Definition tour_depot : Node :=
  {| StringId := "D0"; Type_ := "d"; Position := (0, 0);
     Demand := 0; Window := (0, 1236); ServiceTime := 0 |}.

Definition tour_customer : Node :=
  {| StringId := "C1"; Type_ := "c"; Position := (3, 4);
     Demand := 10; Window := (0, 1236); ServiceTime := 90 |}.

Definition tour_values (name : string) : R :=
  if String.eqb name "x_0_1" then 1
  else if String.eqb name "x_1_2" then 1
  else if String.eqb name "tao_1" then 5
  else if String.eqb name "tao_2" then 100
  else if String.eqb name "u_0" then 200
  else if String.eqb name "u_1" then 200
  else if String.eqb name "u_2" then 190
  else if String.eqb name "y_0" then 77.75
  else if String.eqb name "y_1" then 72.75
  else if String.eqb name "y_2" then 67.75
  else 0.

(** A file whose only customer line is at the position of the depot, with
    the five parameter lines; matchers for its lines; and what
    [parse_file] returns on it. *)
Definition coincident_file : list string :=
  ["D0 d 40.0 50.0 0.0 0.0 1236.0 0.0";
   "C0 c 40.0 50.0 0.0 0.0 1236.0 0.0";
   "Q Vehicle fuel tank capacity /77.75/";
   "C Vehicle load capacity /200.0/";
   "r fuel consumption rate /1.0/";
   "g inverse refueling rate /3.47/";
   "v average Velocity /1.0/"].

Definition coincident_parameter_match (line : string)
  : option (string * string) :=
  if startswith line "Q " then Some ("Q", "77.75")
  else if startswith line "C " then Some ("C", "200.0")
  else if startswith line "r " then Some ("r", "1.0")
  else if startswith line "g " then Some ("g", "3.47")
  else if startswith line "v " then Some ("v", "1.0")
  else None.

Definition coincident_float (s : string) : result R :=
  if String.eqb s "77.75" then Ok 77.75
  else if String.eqb s "200.0" then Ok 200
  else if String.eqb s "3.47" then Ok 3.47
  else example_file_float s.

Definition coincident_parsed : parsed :=
  {| DataParser.Depot_nodes :=
       [{| StringId := "D0"; Type_ := "d"; Position := (40, 50);
           Demand := 0; Window := (0, 1236); ServiceTime := 0 |}];
     DataParser.Customer_nodes := [];
     DataParser.RS_nodes := [];
     DataParser.parameters :=
       <["v" := 1]> (<["g" := 3.47]> (<["r" := 1]>
         (<["C" := 200]> (<["Q" := 77.75]> ∅)))) |}.

(** A zero-customer instance is built through the parser: [parse_file]
    returns a result without customers, and the graph and the
    formulation are constructed from it as [main] does. *)
Definition zero_customer_instance_built
    (node_match : string → option node_groups)
    (parameter_match : string → option (string * string))
    (float : string → result R) (file : list string) : Prop :=
  ∃ p g s,
    parse_file node_match parameter_match float file = Ok p
    ∧ DataParser.Customer_nodes p = []
    ∧ Graph_EVRP_TW (DataParser.Depot_nodes p) (DataParser.Customer_nodes p)
        (DataParser.RS_nodes p) (DataParser.parameters p)
        RS_dummy_count_default = Ok g
    ∧ Customer_Idx g = []
    ∧ EVPR_TW_Solver g l_0_default = Ok s.

End vocabulary.

(** * Properties *)

(** ** Loops, indexing and ranges *)
Section py_lemmas.
Context {X S : Type}.
Implicit Types (l : list X) (body : X → S → result S).

Lemma for_each_app l1 l2 body s :
  for_each (l1 ++ l2) body s = for_each l1 body s ≫= for_each l2 body.
Proof.
  revert s. induction l1 as [|x l1 IH]; intros s; simpl; [done|].
  destruct (body x s); simpl; auto.
Qed.

(** Invariant rule: [I done s] relates the state to the items already
    processed. *)
Lemma for_each_inv (I : list X → S → Prop) l body s :
  I [] s →
  (∀ done x rest s, l = done ++ x :: rest → I done s →
     ∃ s', body x s = Ok s' ∧ I (done ++ [x]) s') →
  ∃ s', for_each l body s = Ok s' ∧ I l s'.
Proof.
  intros H0 Hstep.
  cut (∀ todo done s, l = done ++ todo → I done s →
         ∃ s', for_each todo body s = Ok s' ∧ I l s').
  { intros Hcut. apply (Hcut l [] s); auto. }
  induction todo as [|x todo IH]; intros done s1 Hl HI; simpl.
  - exists s1. rewrite app_nil_r in Hl. by subst.
  - destruct (Hstep done x todo s1 Hl HI) as (s2 & -> & HI2).
    apply (IH (done ++ [x])); [|done]. by rewrite <- app_assoc.
Qed.
End py_lemmas.

Lemma position_ok (n : nat) (i : Z) :
  (0 <= i < Z.of_nat n)%Z → position n i = Ok (Z.to_nat i).
Proof.
  intros Hi. unfold position.
  replace (i <? 0)%Z with false by lia.
  by replace ((0 <=? i)%Z && (i <? Z.of_nat n)%Z) with true by lia.
Qed.

Lemma index_ok {A : Type} (l : list A) (i : Z) (a : A) :
  (0 <= i)%Z → l !! Z.to_nat i = Some a → Py.index l i = Ok a.
Proof.
  intros Hi Hl. unfold Py.index.
  apply lookup_lt_Some in Hl as Hlt.
  rewrite position_ok by lia. simpl. by rewrite Hl.
Qed.

Lemma index_lt {A : Type} (l : list A) (i : Z) :
  (0 <= i < len l)%Z → ∃ a, l !! Z.to_nat i = Some a ∧ Py.index l i = Ok a.
Proof.
  intros Hi. destruct (lookup_lt_is_Some_2 l (Z.to_nat i)) as [a Ha].
  { unfold len in Hi. lia. }
  exists a. split; [done|]. apply index_ok; [lia|done].
Qed.

Lemma elem_of_range (a b x : Z) : x ∈ range a b ↔ (a <= x < b)%Z.
Proof.
  unfold range. rewrite list_elem_of_fmap. split.
  - intros (k & -> & Hk). apply elem_of_seq in Hk. lia.
  - intros Hx. exists (Z.to_nat (x - a)). split; [lia|].
    apply elem_of_seq. lia.
Qed.

Lemma length_range (a b : Z) : length (range a b) = Z.to_nat (b - a).
Proof. unfold range. by rewrite length_map, length_seq. Qed.

Lemma range_seqZ (a b : Z) : range a b = seqZ a (b - a).
Proof. unfold range, seqZ. apply map_ext. intros k. lia. Qed.

Lemma NoDup_range (a b : Z) : NoDup (range a b).
Proof. rewrite range_seqZ. apply NoDup_seqZ. Qed.

Lemma lookup_range (a b : Z) (k : nat) :
  (Z.of_nat k < b - a)%Z → range a b !! k = Some (a + Z.of_nat k)%Z.
Proof.
  intros Hk. rewrite range_seqZ. rewrite lookup_seqZ. split; [lia|done]. 
Qed.

(** ** Arrays *)
Section matrices.
Local Open Scope R_scope.
Implicit Types (a : matrix) (n m i j : nat).

Lemma shape_entry n m a i j :
  shape n m a → (i < n)%nat → (j < m)%nat → is_Some (entry a i j).
Proof.
  intros [Hn Hm] Hi Hj. unfold entry.
  destruct (lookup_lt_is_Some_2 a i) as [row Hrow]; [lia|].
  rewrite Hrow. simpl. apply lookup_lt_is_Some_2.
  rewrite Forall_forall in Hm. rewrite (Hm row); [done|].
  eapply list_elem_of_lookup_2. done.
Qed.

Lemma mat_get_entry a (i j : Z) x :
  (0 <= i)%Z → (0 <= j)%Z →
  entry a (Z.to_nat i) (Z.to_nat j) = Some x → mat_get a i j = Ok x.
Proof.
  intros Hi Hj. unfold entry, mat_get.
  destruct (a !! Z.to_nat i) as [row|] eqn:Hrow; [|done]. simpl.
  intros Hx. rewrite (index_ok _ _ _ Hi Hrow). simpl. by apply index_ok.
Qed.

Lemma shape_zeros n m : shape n m (zeros n m).
Proof.
  unfold zeros. split; [by rewrite length_replicate|].
  apply Forall_replicate. by rewrite length_replicate.
Qed.

Lemma entry_zeros n m i j :
  (i < n)%nat → (j < m)%nat → entry (zeros n m) i j = Some 0.
Proof.
  intros Hi Hj. unfold entry, zeros.
  rewrite lookup_replicate_2 by done. simpl. by rewrite lookup_replicate_2.
Qed.

Lemma mat_set_spec n m a (i j : Z) x :
  shape n m a → (0 <= i < Z.of_nat n)%Z → (0 <= j < Z.of_nat m)%Z →
  ∃ a', mat_set a i j x = Ok a' ∧ shape n m a' ∧
    ∀ i' j', entry a' i' j' =
      if bool_decide (i' = Z.to_nat i ∧ j' = Z.to_nat j) then Some x
      else entry a i' j'.
Proof.
  intros [Hn Hm] Hi Hj. unfold mat_set.
  destruct (lookup_lt_is_Some_2 a (Z.to_nat i)) as [row Hrow]; [lia|].
  rewrite position_ok by lia. simpl. rewrite Hrow.
  assert (length row = m) as Hlen.
  { rewrite Forall_forall in Hm. apply Hm.
    eapply list_elem_of_lookup_2. done. }
  rewrite position_ok by lia. simpl.
  eexists. split; [done|]. split.
  - split; [by rewrite length_insert|].
    apply Forall_insert; [done|]. by rewrite length_insert.
  - intros i' j'. unfold entry. case_bool_decide as Hij.
    + destruct Hij as [-> ->].
      rewrite list_lookup_insert_eq by lia. simpl.
      apply list_lookup_insert_eq. lia.
    + destruct (decide (i' = Z.to_nat i)) as [->|Hne].
      * rewrite list_lookup_insert_eq by lia. rewrite Hrow. simpl.
        apply list_lookup_insert_ne. intros Heq. apply Hij. by subst.
      * by rewrite list_lookup_insert_ne.
Qed.

Lemma entry_transpose n a i j :
  shape n n a → (i < n)%nat → (j < n)%nat →
  entry (transpose n a) i j = entry a j i.
Proof.
  intros [Hn Hm] Hi Hj. unfold entry, transpose.
  rewrite list_lookup_fmap. rewrite lookup_seq_lt by done. simpl.
  rewrite list_lookup_fmap.
  destruct (lookup_lt_is_Some_2 a j) as [row Hrow]; [lia|].
  rewrite Hrow. simpl.
  assert (length row = n) as Hlen.
  { rewrite Forall_forall in Hm. apply Hm.
    eapply list_elem_of_lookup_2. done. }
  destruct (lookup_lt_is_Some_2 row i) as [x Hx]; [lia|].
  rewrite Hx. f_equal. by apply nth_lookup_Some with (d := 0) in Hx.
Qed.

Lemma entry_mat_add a b i j x y :
  entry a i j = Some x → entry b i j = Some y →
  entry (mat_add a b) i j = Some (x + y).
Proof.
  unfold entry, mat_add. intros Ha Hb.
  destruct (a !! i) as [ra|] eqn:Hra; [|done].
  destruct (b !! i) as [rb|] eqn:Hrb; [|done]. simpl in *.
  rewrite lookup_zip_with, Hra. simpl. rewrite Hrb. simpl.
  rewrite lookup_zip_with, Ha. simpl. by rewrite Hb.
Qed.

Lemma entry_fmap (f : R → R) a i j :
  entry (map (map f) a) i j = f <$> entry a i j.
Proof.
  unfold entry. rewrite list_lookup_fmap.
  destruct (a !! i) as [row|]; [|done]. simpl. by rewrite list_lookup_fmap.
Qed.

Lemma shape_fmap (f : R → R) n m a : shape n m a → shape n m (map (map f) a).
Proof.
  intros [Hn Hm]. split; [by rewrite length_map|].
  apply Forall_fmap. eapply Forall_impl; [done|].
  intros row. simpl. by rewrite length_map.
Qed.

End matrices.

(** ** The distance matrix *)
Section distance_matrix.
Local Open Scope R_scope.

Lemma euclidean_distance_sym (p q : R * R) :
  euclidean_distance p q = euclidean_distance q p.
Proof. unfold euclidean_distance. f_equal. ring. Qed.

Lemma euclidean_distance_refl (p : R * R) : euclidean_distance p p = 0.
Proof.
  unfold euclidean_distance.
  replace ((p.1 - p.1) ^ 2 + (p.2 - p.2) ^ 2) with 0 by ring.
  apply sqrt_0.
Qed.

Lemma dist_sym Nodes i j : dist Nodes i j = dist Nodes j i.
Proof.
  unfold dist. destruct (Nodes !! i), (Nodes !! j); try done.
  apply euclidean_distance_sym.
Qed.

Lemma dist_refl Nodes i : dist Nodes i i = 0.
Proof.
  unfold dist. destruct (Nodes !! i); [|done].
  apply euclidean_distance_refl.
Qed.

Lemma if_bool_decide_iff {A : Type} (P Q : Prop) `{!Decision P, !Decision Q}
    (x y : A) :
  (P ↔ Q) →
  (if bool_decide P then x else y) = (if bool_decide Q then x else y).
Proof. intros H. by rewrite (bool_decide_ext P Q H). Qed.

(** The two loops fill the upper triangle, row by row. *)
Lemma fill_upper_triangle (Nodes : list Node) :
  let n := length Nodes in
  ∃ a,
    for_each (range 0 (Z.of_nat n)) (λ i distance_matrix,
      for_each (range i (Z.of_nat n)) (λ j distance_matrix,
        node_i ← Py.index Nodes i;
        node_j ← Py.index Nodes j;
        mat_set distance_matrix i j
          (euclidean_distance (Position node_i) (Position node_j)))
        distance_matrix)
      (zeros n n) = Ok a
    ∧ shape n n a
    ∧ ∀ i j, (i < n)%nat → (j < n)%nat →
        entry a i j = Some (if bool_decide (i ≤ j)%nat then dist Nodes i j else 0).
Proof.
  intros n.
  pose (I := λ (rows : list Z) (a : matrix),
    shape n n a ∧ ∀ i j, (i < n)%nat → (j < n)%nat →
      entry a i j =
        Some (if bool_decide (Z.of_nat i ∈ rows ∧ (i ≤ j)%nat)
              then dist Nodes i j else 0)).
  destruct (for_each_inv I (range 0 (Z.of_nat n))
    (λ i distance_matrix,
      for_each (range i (Z.of_nat n)) (λ j distance_matrix,
        node_i ← Py.index Nodes i;
        node_j ← Py.index Nodes j;
        mat_set distance_matrix i j
          (euclidean_distance (Position node_i) (Position node_j)))
        distance_matrix) (zeros n n)) as (a & Hrun & Hshape & Hentry).
  - split; [apply shape_zeros|]. intros i j Hi Hj.
    rewrite entry_zeros by done. rewrite bool_decide_eq_false_2; [done|].
    intros [Hin _]. by apply elem_of_nil in Hin.
  - intros rows x rest a Hsplit [Hshape Hentry].
    assert (x ∈ range 0 (Z.of_nat n)) as Hx.
    { rewrite Hsplit. apply elem_of_app. right. apply elem_of_cons. by left. }
    apply elem_of_range in Hx.
    pose (J := λ (cols : list Z) (b : matrix),
      shape n n b ∧ ∀ i j, (i < n)%nat → (j < n)%nat →
        entry b i j =
          Some (if bool_decide ((Z.of_nat i ∈ rows ∧ (i ≤ j)%nat)
                                ∨ (Z.of_nat i = x ∧ Z.of_nat j ∈ cols))
                then dist Nodes i j else 0)).
    destruct (for_each_inv J (range x (Z.of_nat n))
      (λ j distance_matrix,
        node_i ← Py.index Nodes x;
        node_j ← Py.index Nodes j;
        mat_set distance_matrix x j
          (euclidean_distance (Position node_i) (Position node_j))) a)
      as (b & Hrun & Hshape' & Hentry').
    + split; [done|]. intros i j Hi Hj. rewrite Hentry by done.
      f_equal. apply if_bool_decide_iff.
      split; [by left|]. intros [H|[_ H]]; [done|]. by apply elem_of_nil in H.
    + intros cols y rest' b Hsplit' [Hshape' Hentry'].
      assert (y ∈ range x (Z.of_nat n)) as Hy.
      { rewrite Hsplit'. apply elem_of_app. right. apply elem_of_cons. by left. }
      apply elem_of_range in Hy.
      destruct (index_lt Nodes x) as (nx & Hnx & ->); [unfold len; lia|].
      destruct (index_lt Nodes y) as (ny & Hny & ->); [unfold len; lia|].
      simpl.
      destruct (mat_set_spec n n b x y
        (euclidean_distance (Position nx) (Position ny)) Hshape')
        as (b' & -> & Hshape'' & Hset); [lia..|].
      exists b'. split; [done|]. split; [done|].
      intros i j Hi Hj. rewrite Hset. case_bool_decide as Hij.
      * destruct Hij as [-> ->]. f_equal.
        rewrite bool_decide_eq_true_2.
        -- unfold dist. by rewrite Hnx, Hny.
        -- right. split; [lia|]. apply elem_of_app. right.
           apply list_elem_of_singleton. lia.
      * rewrite Hentry' by done. f_equal. apply if_bool_decide_iff.
        rewrite elem_of_app, list_elem_of_singleton.
        split; [tauto|].
        intros [H|[Hi' [H|H]]]; [by left|by right|].
        exfalso. apply Hij. lia.
    + exists b. split; [done|]. split; [done|].
      intros i j Hi Hj. rewrite Hentry' by done. f_equal.
      apply if_bool_decide_iff.
      rewrite elem_of_app, list_elem_of_singleton, elem_of_range.
      split.
      * intros [[H1 H2]|[H1 H2]]; [tauto|]. split; [by right|lia].
      * intros [[H1|H1] H2]; [by left|]. right. split; [done|lia].
  - exists a. split; [done|]. split; [done|].
    intros i j Hi Hj. rewrite Hentry by done. f_equal.
    apply if_bool_decide_iff. rewrite elem_of_range. split; [tauto|].
    intros H. split; [lia|done].
Qed.

End distance_matrix.

Section distance_matrix_result.
Local Open Scope R_scope.

(** What [generate_distance_matrix] returns: it never raises, and each
    entry is the upper triangle plus its mirror image. *)
Lemma generate_distance_matrix_spec (Nodes : list Node) :
  let n := length Nodes in
  ∃ dm, generate_distance_matrix Nodes = Ok dm ∧ shape n n dm ∧
    ∀ i j, (i < n)%nat → (j < n)%nat →
      entry dm i j =
        Some (((if bool_decide (i ≤ j)%nat then dist Nodes i j else 0)
               + (if bool_decide (j ≤ i)%nat then dist Nodes j i else 0)) * 1).
Proof.
  intros n. unfold generate_distance_matrix.
  destruct (fill_upper_triangle Nodes) as (a & -> & Hshape & Hentry).
  fold n in Hshape, Hentry. simpl.
  eexists. split; [done|]. split.
  - apply (shape_fmap (λ x, x * 1)). destruct Hshape as [Hn Hm]. split.
    + unfold mat_add, transpose. rewrite length_zip_with, length_map, length_seq.
      lia.
    + unfold mat_add, transpose. eapply Forall_zip_with_fst; [exact Hm|].
      apply Forall_forall. intros col Hcol row Hrow.
      apply list_elem_of_fmap in Hcol as (j & -> & _).
      rewrite length_zip_with, length_map. lia.
  - intros i j Hi Hj. unfold mat_scale.
    rewrite (entry_fmap (λ x, x * 1)).
    erewrite entry_mat_add; [done|by apply Hentry|].
    rewrite (entry_transpose n) by done. by apply Hentry.
Qed.

(** Every entry is the distance between the two nodes. *)
Lemma generate_distance_matrix_entry (Nodes : list Node) :
  ∃ dm, generate_distance_matrix Nodes = Ok dm ∧
    shape (length Nodes) (length Nodes) dm ∧
    ∀ i j, (i < length Nodes)%nat → (j < length Nodes)%nat →
      entry dm i j = Some (dist Nodes i j).
Proof.
  destruct (generate_distance_matrix_spec Nodes) as (dm & Hrun & Hshape & Hentry).
  exists dm. split; [done|]. split; [done|].
  intros i j Hi Hj. rewrite Hentry by done. f_equal.
  repeat case_bool_decide.
  - assert (i = j) as -> by lia. rewrite dist_refl. ring.
  - ring.
  - rewrite (dist_sym Nodes j i). ring.
  - lia.
Qed.

End distance_matrix_result.

(** ** Graph construction *)
Section graph_construction.
Local Open Scope R_scope.

Lemma list_mul_concat {A : Type} (l : list A) (k : Z) :
  list_mul l k = concat (replicate (Z.to_nat k) l).
Proof.
  unfold list_mul. induction (Z.to_nat k) as [|m IH]; simpl; [done|].
  by rewrite IH.
Qed.

Lemma length_list_mul {A : Type} (l : list A) (k : Z) :
  (0 <= k)%Z → len (list_mul l k) = (len l * k)%Z.
Proof.
  intros Hk. unfold list_mul, len.
  replace k with (Z.of_nat (Z.to_nat k)) at 2 by lia.
  induction (Z.to_nat k) as [|m IH]; simpl; [lia|].
  rewrite length_app. lia.
Qed.

(** What a successfully constructed graph holds. *)
Lemma Graph_EVRP_TW_inv Dn Cn Sn params Rf g :
  Graph_EVRP_TW Dn Cn Sn params Rf = Ok g →
  Nodes g = Dn ++ Cn ++ list_mul Sn Rf ++ Dn
  ∧ Depot_Idx g = [0; len (Nodes g) - 1]%Z
  ∧ Customer_Idx g = range 1 (1 + len Cn)
  ∧ RS_Idx g = range (1 + len Cn) (len (Nodes g) - 1)
  ∧ generate_distance_matrix (Nodes g) = Ok (EVRP_Graph.distance_matrix g)
  ∧ travel_time_matrix g = mat_div (EVRP_Graph.distance_matrix g) (v g)
  ∧ CustomerTW g = map Window (Nodes g)
  ∧ CustomerServiceTime g = map ServiceTime (Nodes g)
  ∧ EVRP_Graph.CustomerDemand g = map Demand (Nodes g)
  ∧ params !! "Q" = Some (EVRP_Graph.Q g)
  ∧ params !! "C" = Some (EVRP_Graph.C g)
  ∧ params !! "r" = Some (r g)
  ∧ params !! "g" = Some (EVRP_Graph.g g)
  ∧ params !! "v" = Some (v g).
Proof.
  unfold Graph_EVRP_TW, getitem.
  destruct (generate_distance_matrix _) as [dm|] eqn:Hdm; [|done]. simpl.
  destruct (params !! "Q") as [q|]; [|done]. simpl.
  destruct (params !! "C") as [c|]; [|done]. simpl.
  destruct (params !! "r") as [r0|]; [|done]. simpl.
  destruct (params !! "g") as [g0|]; [|done]. simpl.
  destruct (params !! "v") as [v0|]; [|done]. simpl.
  intros [= <-]. simpl. by rewrite Hdm.
Qed.

(** Construction succeeds whenever the five parameters are there. *)
Lemma Graph_EVRP_TW_total Dn Cn Sn params Rf :
  has_parameters params = true →
  ∃ g, Graph_EVRP_TW Dn Cn Sn params Rf = Ok g.
Proof.
  unfold has_parameters. simpl. rewrite !andb_true_iff, !bool_decide_eq_true.
  intros ([q Hq] & [c Hc] & [r0 Hr] & [g0 Hg] & [v0 Hv] & _).
  unfold Graph_EVRP_TW, getitem.
  destruct (generate_distance_matrix_entry
    (Dn ++ Cn ++ list_mul Sn Rf ++ Dn)) as (dm & -> & _).
  rewrite Hq, Hc, Hr, Hg, Hv. simpl. eauto.
Qed.

End graph_construction.

(** ** Node sequence and index partitions (claim C7) *)

(** C7. With exactly one depot node and a replication factor [Rf] that is
    not negative, the node sequence is the depot, the customers, the
    stations repeated [Rf] times and the depot again; its length is
    [2 + customers + stations * Rf]; the depot indices are [0] and the
    last one; the customer indices are the block [1 .. customers] and the
    station indices the block right after it, which ends at [length - 2]. *)
Theorem node_sequence_layout (depot : Node) (Cn Sn : list Node)
    (params : gmap string R) (Rf : Z) :
  (0 <= Rf)%Z →
  has_parameters params = true →
  ∃ g, Graph_EVRP_TW [depot] Cn Sn params Rf = Ok g
    ∧ Nodes g = [depot] ++ Cn ++ concat (replicate (Z.to_nat Rf) Sn) ++ [depot]
    ∧ len (Nodes g) = (2 + len Cn + len Sn * Rf)%Z
    ∧ Depot_Idx g = [0; len (Nodes g) - 1]%Z
    ∧ Customer_Idx g = seqZ 1 (len Cn)
    ∧ RS_Idx g = seqZ (1 + len Cn) (len Sn * Rf)
    ∧ (1 + len Cn + len Sn * Rf - 1 = len (Nodes g) - 2)%Z.
Proof.
  intros HRf Hparams.
  destruct (Graph_EVRP_TW_total [depot] Cn Sn params Rf Hparams) as [g Hg].
  exists g. split; [done|].
  destruct (Graph_EVRP_TW_inv _ _ _ _ _ _ Hg)
    as (HN & HD & HC & HS & _).
  assert (len (Nodes g) = (2 + len Cn + len Sn * Rf)%Z) as Hlen.
  { rewrite HN. unfold len. rewrite !length_app. simpl.
    pose proof (length_list_mul Sn Rf HRf) as Hmul. unfold len in Hmul. lia. }
  split; [by rewrite HN, list_mul_concat|].
  split; [done|]. split; [done|].
  split; [rewrite HC, range_seqZ; f_equal; lia|].
  split; [rewrite HS, range_seqZ; f_equal; lia|].
  lia.
Qed.

(** The layout on an instance with two customers and one station that is
    replicated twice. *)
Lemma node_sequence_layout_witness :
  ∃ g, Graph_EVRP_TW [example_depot] [example_customer_1; example_customer_2]
         [example_station] example_parameters 2 = Ok g
    ∧ Nodes g = [example_depot; example_customer_1; example_customer_2;
                 example_station; example_station; example_depot]
    ∧ len (Nodes g) = 6%Z
    ∧ Depot_Idx g = [0; 5]%Z
    ∧ Customer_Idx g = [1; 2]%Z
    ∧ RS_Idx g = [3; 4]%Z.
Proof.
  destruct (node_sequence_layout example_depot
              [example_customer_1; example_customer_2] [example_station]
              example_parameters 2)
    as (g & Hg & HN & Hlen & HD & HC & HS & _); [lia|reflexivity|].
  exists g. split; [exact Hg|]. split; [exact HN|]. split; [exact Hlen|].
  split; [rewrite HD, Hlen; reflexivity|]. split; [exact HC|exact HS].
Defined.

(** A replication factor below zero leaves no station replica at all. *)
Lemma list_mul_negative {A : Type} (l : list A) (k : Z) :
  (k <= 0)%Z → list_mul l k = [].
Proof.
  intros Hk. unfold list_mul. by replace (Z.to_nat k) with 0%nat by lia.
Qed.

(** ** The distance matrix (claim C8) *)

(** C8. For every list of nodes [generate_distance_matrix] returns a
    matrix that is symmetric and zero on the diagonal: for all indices
    [i], [j] in range, entry [i][j] equals entry [j][i], and entry [i][i]
    is zero. *)
Theorem distance_matrix_symmetric_zero_diagonal (Nodes : list Node) (i j : Z) :
  (0 <= i < len Nodes)%Z →
  (0 <= j < len Nodes)%Z →
  ∃ dm x, generate_distance_matrix Nodes = Ok dm
    ∧ mat_get dm i j = Ok x
    ∧ mat_get dm j i = Ok x
    ∧ mat_get dm i i = Ok 0%R.
Proof.
  intros Hi Hj. unfold len in *.
  destruct (generate_distance_matrix_spec Nodes) as (dm & Hrun & Hshape & Hentry).
  exists dm. eexists. split; [exact Hrun|].
  split; [|split].
  - apply mat_get_entry; [lia..|]. apply Hentry; lia.
  - apply mat_get_entry; [lia..|]. rewrite Hentry by lia. f_equal.
    rewrite Rplus_comm. done.
  - apply mat_get_entry; [lia..|]. rewrite Hentry by lia. f_equal.
    rewrite bool_decide_eq_true_2 by lia. rewrite dist_refl.
    apply Rmult_eq_0_compat_r, Rplus_0_r.
Qed.

(** Symmetry and the zero diagonal on two nodes. *)
Lemma distance_matrix_symmetric_zero_diagonal_witness :
  ∃ dm x, generate_distance_matrix [example_depot; example_customer_1] = Ok dm
    ∧ mat_get dm 0 1 = Ok x
    ∧ mat_get dm 1 0 = Ok x
    ∧ mat_get dm 0 0 = Ok 0%R.
Proof.
  apply (distance_matrix_symmetric_zero_diagonal
           [example_depot; example_customer_1] 0 1);
    unfold len; simpl; lia.
Defined.

(** ** The formulator: loops that add rows *)
Section formulator_loops.
Local Open Scope R_scope.

Lemma add_rows_nil m : add_rows m [] = m.
Proof. destruct m. unfold add_rows. simpl. by rewrite app_nil_r. Qed.

Lemma add_rows_app m cs1 cs2 :
  add_rows (add_rows m cs1) cs2 = add_rows m (cs1 ++ cs2).
Proof. unfold add_rows. simpl. by rewrite app_assoc. Qed.

Lemma linear_constraints_add_rows m c :
  linear_constraints_add m c = add_rows m [c].
Proof. done. Qed.

Lemma for_each_total {X S : Type} (l : list X) (body : X → S → result S) s :
  (∀ x s, x ∈ l → ∃ s', body x s = Ok s') →
  ∃ s', for_each l body s = Ok s'.
Proof.
  intros Hbody.
  destruct (for_each_inv (λ _ _, True) l body s) as (s' & Hs' & _); [done| |eauto].
  intros done x rest s1 Hsplit _.
  destruct (Hbody x s1) as [s2 Hs2]; [|eauto].
  rewrite Hsplit. apply elem_of_app. right. apply elem_of_cons. by left.
Qed.

(** A loop whose body adds the rows [F x]. *)
Lemma for_each_add_rows {X : Type} (l : list X) (body : X → Model → result Model)
    (F : X → list linear_constraint) m :
  (∀ x m, x ∈ l → body x m = Ok (add_rows m (F x))) →
  for_each l body m = Ok (add_rows m (flat_map F l)).
Proof.
  revert m. induction l as [|x l IH]; intros m Hbody; simpl.
  - by rewrite add_rows_nil.
  - rewrite Hbody by (apply elem_of_cons; by left).
    rewrite IH; [by rewrite add_rows_app|].
    intros y m' Hy. apply Hbody, elem_of_cons. by right.
Qed.

Lemma flat_map_singleton {X Y : Type} (f : X → Y) (l : list X) :
  flat_map (λ x, [f x]) l = map f l.
Proof. induction l as [|x l IH]; simpl; [done|]. by rewrite IH. Qed.

Lemma flat_map_filter {Y : Type} (i : Z) (f : Z → Y) (l : list Z) :
  flat_map (λ j, if bool_decide (i ≠ j) then [f j] else []) l
  = map f (filter (λ j, i ≠ j) l).
Proof.
  induction l as [|x l IH]; simpl; [done|].
  rewrite filter_cons. case_bool_decide; case_decide; try done; simpl.
  by rewrite IH.
Qed.

(** The nested loops over arcs add one row per arc, in order. *)
Lemma for_arcs_spec (origins successors : list Z)
    (row : Z → Z → result linear_constraint) (c : Z → Z → linear_constraint) m :
  (∀ i j, i ∈ origins → j ∈ successors → i ≠ j → row i j = Ok (c i j)) →
  for_arcs origins successors row m
  = Ok (add_rows m (map (λ p, c p.1 p.2) (arcs origins successors))).
Proof.
  intros Hrow. unfold for_arcs, arcs.
  rewrite (for_each_add_rows origins _
    (λ i, map (c i) (filter (λ j, i ≠ j) successors))).
  - do 2 f_equal. induction origins as [|i origins IH]; simpl; [done|].
    rewrite map_app, map_map. simpl. f_equal. apply IH.
    intros i' j Hi'. apply Hrow, elem_of_cons. by right.
  - intros i m' Hi. rewrite <- flat_map_filter.
    apply for_each_add_rows. intros j m'' Hj.
    case_bool_decide as Hij.
    + by rewrite Hrow.
    + by rewrite add_rows_nil.
Qed.

Lemma elem_of_arcs (origins successors : list Z) (i j : Z) :
  (i, j) ∈ arcs origins successors ↔ i ∈ origins ∧ j ∈ successors ∧ i ≠ j.
Proof.
  unfold arcs. rewrite list_elem_of_In, in_flat_map. split.
  - intros (i' & Hi' & Hin). apply list_elem_of_In in Hi', Hin.
    apply list_elem_of_fmap in Hin as (j' & [= -> ->] & Hj').
    apply list_elem_of_filter in Hj'. tauto.
  - intros (Hi & Hj & Hij). exists i. rewrite <- !list_elem_of_In.
    split; [done|]. apply list_elem_of_fmap. exists j. split; [done|].
    apply list_elem_of_filter. done.
Qed.

End formulator_loops.

(** ** The formulator: the rows of [_set_constraints] *)
Section formulator_rows.
Local Open Scope R_scope.

Lemma index_lookup0 (l : list R) (i : Z) :
  (0 <= i < len l)%Z → Py.index l i = Ok (lookup0 l i).
Proof.
  intros Hi. destruct (index_lt l i Hi) as (x & Hx & ->).
  unfold lookup0. by rewrite Hx.
Qed.

Lemma mat_get_entry0 n (a : matrix) (i j : Z) :
  shape n n a → (0 <= i < Z.of_nat n)%Z → (0 <= j < Z.of_nat n)%Z →
  mat_get a i j = Ok (entry0 a i j).
Proof.
  intros Hshape Hi Hj.
  destruct (shape_entry n n a (Z.to_nat i) (Z.to_nat j) Hshape) as [x Hx];
    [lia..|].
  unfold entry0. rewrite Hx. simpl. apply mat_get_entry; [lia..|done].
Qed.

Lemma in_bounds_elem n l i : in_bounds n l → i ∈ l → (0 <= i < Z.of_nat n)%Z.
Proof. unfold in_bounds. rewrite Forall_forall. auto. Qed.

Lemma in_bounds_app n l1 l2 :
  in_bounds n (l1 ++ l2) ↔ in_bounds n l1 ∧ in_bounds n l2.
Proof. apply Forall_app. Qed.

(** [_set_constraints] does not raise and adds [all_rows]. *)
Lemma _set_constraints_spec (self : Solver) (n : nat) :
  reads_in_range self n →
  _set_constraints self = Ok (set_model self (add_rows (model self) (all_rows self))).
Proof.
  intros (HT & HD & HS & HQ & Hd & HV & HF & H0 & HN).
  unfold _set_constraints, all_rows.
  unfold add_customer_constraints.
  erewrite (for_each_add_rows (V_sequence self) _ (λ i, [_])); [|done].
  simpl. unfold add_station_constraints.
  erewrite (for_each_add_rows (F_Prime_sequence self) _ (λ i, [_])); [|done].
  simpl. unfold add_flow_constraints.
  erewrite (for_each_add_rows (V_Prime_sequence self) _ (λ i, [_])); [|done].
  simpl. unfold add_time_constraints.
  rewrite (for_arcs_spec _ _ _ (row_time self)); simpl.
  2:{ intros i j Hi Hj _.
      rewrite (mat_get_entry0 n), index_lookup0; try done.
      - unfold len. rewrite HS.
        apply (in_bounds_elem n (Depot_start self ++ V_sequence self));
          [by apply in_bounds_app|done].
      - apply (in_bounds_elem n (Depot_start self ++ V_sequence self));
          [by apply in_bounds_app|done].
      - by apply (in_bounds_elem n (V_Prime_N_plus_1_sequence self)). }
  unfold add_time_constraints_RS.
  rewrite (for_arcs_spec _ _ _ (row_time_RS self)) by done. simpl.
  unfold add_load_constraints.
  rewrite (for_arcs_spec _ _ _ (row_load self)); simpl.
  2:{ intros i j Hi Hj _. rewrite index_lookup0; [done|].
      unfold len. rewrite HQ.
      by apply (in_bounds_elem n (V_Prime_0_sequence self)). }
  unfold add_battery_constraints.
  rewrite (for_arcs_spec _ _ _ (row_battery self)); simpl.
  2:{ intros i j Hi Hj _. rewrite (mat_get_entry0 n); try done.
      - by apply (in_bounds_elem n (V_sequence self)).
      - by apply (in_bounds_elem n (V_Prime_N_plus_1_sequence self)). }
  unfold add_battery_constraints_RS.
  rewrite (for_arcs_spec _ _ _ (row_battery_RS self)); simpl.
  2:{ intros i j Hi Hj _. rewrite (mat_get_entry0 n); try done.
      - apply (in_bounds_elem n (Depot_start self ++ F_Prime_sequence self));
          [by apply in_bounds_app|done].
      - by apply (in_bounds_elem n (V_Prime_N_plus_1_sequence self)). }
  rewrite !flat_map_singleton, !add_rows_app.
  unfold rows_customer, rows_station, rows_flow, rows_over.
  done.
Qed.

End formulator_rows.

(** ** The formulator on a constructed graph *)
Section formulator_on_graph.
Local Open Scope R_scope.

Lemma in_bounds_range n (a b : Z) :
  (0 <= a)%Z → (b <= Z.of_nat n)%Z → in_bounds n (range a b).
Proof.
  intros Ha Hb. apply Forall_forall. intros i Hi.
  apply elem_of_range in Hi. lia.
Qed.

Lemma for_distinct_pairs_total {A : Type} (n : Z) (e : Z → Z → result A) :
  (∀ i j, (0 <= i < n)%Z → (0 <= j < n)%Z → ∃ a, e i j = Ok a) →
  ∃ l, for_distinct_pairs n e = Ok l.
Proof.
  intros He. unfold for_distinct_pairs.
  apply for_each_total. intros i acc Hi. apply elem_of_range in Hi.
  apply for_each_total. intros j acc' Hj. apply elem_of_range in Hj.
  case_bool_decide; [|eauto].
  destruct (He i j) as [a ->]; [lia..|]. simpl. eauto.
Qed.

Lemma built_graph_facts g :
  built_graph g →
  let n := length (Nodes g) in
  (2 <= n)%nat
  ∧ Depot_Idx g = [0; Z.of_nat n - 1]%Z
  ∧ (∃ nc : nat, (nc + 2 <= n)%nat
       ∧ Customer_Idx g = range 1 (1 + Z.of_nat nc)
       ∧ RS_Idx g = range (1 + Z.of_nat nc) (Z.of_nat n - 1))
  ∧ shape n n (EVRP_Graph.distance_matrix g)
  ∧ (∀ i j, (i < n)%nat → (j < n)%nat →
       entry (EVRP_Graph.distance_matrix g) i j = Some (dist (Nodes g) i j))
  ∧ travel_time_matrix g = mat_div (EVRP_Graph.distance_matrix g) (v g)
  ∧ CustomerTW g = map Window (Nodes g)
  ∧ CustomerServiceTime g = map ServiceTime (Nodes g)
  ∧ EVRP_Graph.CustomerDemand g = map Demand (Nodes g).
Proof.
  intros (Dn & Cn & Sn & params & Rf & HDn & Hg) n.
  destruct (Graph_EVRP_TW_inv _ _ _ _ _ _ Hg)
    as (HN & HD & HC & HS & Hdm & Htt & HTW & HST & HDem & _).
  assert (length Cn + 2 <= n)%nat as Hn.
  { unfold n. rewrite HN, !length_app. destruct Dn; [done|]. simpl. lia. }
  split; [lia|]. split; [done|]. split.
  { exists (length Cn). split; [done|]. by rewrite HC, HS. }
  destruct (generate_distance_matrix_entry (Nodes g)) as (dm & Hdm' & Hshape & He).
  rewrite Hdm in Hdm'. injection Hdm' as <-. done.
Qed.

Lemma attributes_reads_in_range g l_0 :
  built_graph g → reads_in_range (attributes_of g l_0) (length (Nodes g)).
Proof.
  intros Hg. destruct (built_graph_facts g Hg)
    as (Hn & HD & (nc & Hnc & HC & HS) & Hshape & _ & Htt & _ & HST & HDem).
  unfold reads_in_range, attributes_of, attributes. simpl.
  rewrite HC, HS, Htt, HST, HDem, !length_map.
  assert (in_bounds (length (Nodes g)) (range 1 (1 + Z.of_nat nc))) as HbC.
  { apply in_bounds_range; lia. }
  assert (in_bounds (length (Nodes g))
            (range (1 + Z.of_nat nc) (Z.of_nat (length (Nodes g)) - 1))) as HbS.
  { apply in_bounds_range; lia. }
  split; [by apply (shape_fmap (λ x, x / v g))|].
  split; [done|]. split; [done|]. split; [done|].
  split; [apply Forall_singleton; lia|].
  split; [done|]. split; [done|].
  split.
  - apply Forall_cons. split; [lia|]. by apply in_bounds_app.
  - apply in_bounds_app. split; [done|]. apply in_bounds_app. split; [done|].
    apply Forall_singleton. unfold len. lia.
Qed.


(** [_set_objective_function] declares variables and adds no row. *)
Lemma _set_objective_function_spec (self : Solver) (n : nat) :
  model_size self = Z.of_nat n →
  length (tao_names self) = n → length (u_names self) = n →
  length (y_names self) = n → length (CustomerTimeWindow self) = n →
  linear_constraints (model self) = [] →
  ∃ vars, _set_objective_function self
          = Ok (set_model self {| objective := Some Minimize; variables := vars;
                                  linear_constraints := [] |}).
Proof.
  intros Hsize Ht Hu Hy Hw Hrows. unfold _set_objective_function.
  match goal with
  | |- context [for_each ?l ?body ?m0] =>
      destruct (for_each_inv
        (λ _ m, objective m = Some Minimize ∧ linear_constraints m = [])
        l body m0) as (m1 & -> & Hobj & Hrows1)
  end.
  - done.
  - intros done i rest m Hsplit [Hobj Hrows1].
    assert (i ∈ range 0 (model_size self)) as Hi.
    { rewrite Hsplit. apply elem_of_app. right. apply elem_of_cons. by left. }
    apply elem_of_range in Hi. rewrite Hsize in Hi.
    destruct (index_lt (tao_names self) i) as (tao & _ & ->); [unfold len; lia|].
    destruct (index_lt (CustomerTimeWindow self) i) as (tw & _ & ->);
      [unfold len; lia|].
    destruct (index_lt (u_names self) i) as (u & _ & ->); [unfold len; lia|].
    destruct (index_lt (y_names self) i) as (y & _ & ->); [unfold len; lia|].
    simpl. eauto.
  - simpl. destruct m1 as [o vars rows]. simpl in *. subst o rows. eauto.
Qed.

(** [EVPR_TW_Solver.__init__] succeeds on a constructed graph; the rows of
    the model are [all_rows], and the attributes are those assigned at
    the start, but for the names and the model. *)
Lemma EVPR_TW_Solver_spec g l_0 :
  built_graph g →
  ∃ s xs cs ts us ys vars,
    EVPR_TW_Solver g l_0 = Ok s
    ∧ s = set_model (set_decision_names (attributes_of g l_0) xs cs ts us ys)
            {| objective := Some Minimize; variables := vars;
               linear_constraints := all_rows (attributes_of g l_0) |}.
Proof.
  intros Hg. pose proof (attributes_reads_in_range g l_0 Hg) as Hreads.
  destruct (built_graph_facts g Hg)
    as (Hn & HD & _ & Hshape & _ & _ & HTW & _ & _).
  unfold EVPR_TW_Solver. rewrite HD.
  replace (Py.index [0%Z; (Z.of_nat (length (Nodes g)) - 1)%Z] (-1))
    with (Ok (len (Nodes g) - 1)%Z) by done.
  replace (Py.index [0%Z; (Z.of_nat (length (Nodes g)) - 1)%Z] 0)
    with (Ok 0%Z) by done.
  simpl. fold (attributes_of g l_0).
  unfold _initialize_model, _set_decision_variable.
  change (model_size (attributes_of g l_0)) with (Z.of_nat (length (Nodes g))).
  change (distance_matrix (attributes_of g l_0))
    with (EVRP_Graph.distance_matrix g).
  destruct (for_distinct_pairs_total (Z.of_nat (length (Nodes g)))
    (λ i j, Ok (x_name i j))) as [xs ->]; [eauto|].
  destruct (for_distinct_pairs_total (Z.of_nat (length (Nodes g)))
    (λ i j, mat_get (EVRP_Graph.distance_matrix g) i j)) as [cs ->].
  { intros i j Hi Hj. eexists.
    by apply (mat_get_entry0 (length (Nodes g))). }
  simpl.
  set (ts := map tao_name (range 0 (Z.of_nat (length (Nodes g))))).
  set (us := map u_name (range 0 (Z.of_nat (length (Nodes g))))).
  set (ys := map y_name (range 0 (Z.of_nat (length (Nodes g))))).
  set (self1 := set_decision_names (attributes_of g l_0) xs cs ts us ys).
  destruct (_set_objective_function_spec self1 (length (Nodes g)))
    as [vars ->]; try done.
  1-3: simpl; unfold ts, us, ys; rewrite length_map, length_range; lia.
  { simpl. by rewrite HTW, length_map. }
  simpl.
  rewrite (_set_constraints_spec _ (length (Nodes g))) by done.
  simpl. eexists. by exists xs, cs, ts, us, ys, vars.
Qed.

End formulator_on_graph.

(** ** Reading the rows: auxiliary facts *)
Section reading_rows.
Local Open Scope R_scope.

Lemma Forall2_map_self {X Y : Type} (P : X → Y → Prop) (f : X → Y) (l : list X) :
  (∀ x, x ∈ l → P x (f x)) → Forall2 P l (map f l).
Proof.
  induction l as [|x l IH]; intros HP; simpl; constructor.
  - apply HP, elem_of_cons. by left.
  - apply IH. intros y Hy. apply HP, elem_of_cons. by right.
Qed.

Lemma list_mul_singleton {A : Type} (x : A) (k : Z) :
  list_mul [x] k = replicate (Z.to_nat k) x.
Proof.
  unfold list_mul. induction (Z.to_nat k) as [|m IH]; simpl; [done|].
  by rewrite IH.
Qed.

Lemma range_app (a b c : Z) :
  (a <= b)%Z → (b <= c)%Z → range a b ++ range b c = range a c.
Proof.
  intros Hab Hbc. rewrite !range_seqZ.
  replace (c - a)%Z with ((b - a) + (c - b))%Z by lia.
  rewrite seqZ_app by lia. do 2 f_equal. lia.
Qed.

Lemma range_snoc (a b : Z) : (a <= b)%Z → range a b ++ [b] = range a (b + 1).
Proof.
  intros Hab. rewrite <- (range_app a b (b + 1)) by lia. f_equal.
  unfold range. replace (b + 1 - b)%Z with 1%Z by lia. simpl. f_equal. lia.
Qed.

Lemma range_cons (a b : Z) : (a < b)%Z → a :: range (a + 1) b = range a b.
Proof.
  intros Hab. rewrite <- (range_app a (a + 1) b) by lia.
  unfold range at 2. replace (a + 1 - a)%Z with 1%Z by lia. simpl.
  do 2 f_equal. lia.
Qed.

(** Removing the one occurrence of an element. *)
Lemma length_filter_ne (l : list Z) (i : Z) :
  NoDup l → i ∈ l → length (filter (λ j, i ≠ j) l) = (length l - 1)%nat.
Proof.
  induction 1 as [|x l Hx Hnd IH]; intros Hi.
  - by apply elem_of_nil in Hi.
  - rewrite filter_cons. apply elem_of_cons in Hi as [->|Hi].
    + rewrite decide_False by (intros H; by apply H).
      simpl. rewrite Nat.sub_0_r.
      clear IH Hnd. induction l as [|y l IH]; [done|].
      rewrite filter_cons. apply not_elem_of_cons in Hx as [Hxy Hx].
      rewrite decide_True by done. simpl. by rewrite IH.
    + rewrite decide_True by (intros ->; done). simpl. rewrite IH by done.
      destruct l; [by apply elem_of_nil in Hi|]. simpl. lia.
Qed.

Lemma zip_ones (ρ : string → R) (names : list string) (n : nat) :
  (length names <= n)%nat →
  foldr Rplus 0 (zip_with (λ name k, k * ρ name) names (replicate n 1))
  = sum_of ρ names.
Proof.
  revert n. unfold sum_of.
  induction names as [|x names IH]; intros n Hn; simpl.
  - by destruct n.
  - destruct n as [|n]; simpl in *; [lia|]. rewrite IH by lia. ring.
Qed.

Lemma zip_minus_ones (ρ : string → R) (names : list string) (n : nat) :
  (length names <= n)%nat →
  foldr Rplus 0 (zip_with (λ name k, k * ρ name) names (replicate n (-1)))
  = - sum_of ρ names.
Proof.
  revert n. unfold sum_of.
  induction names as [|x names IH]; intros n Hn; simpl.
  - destruct n; simpl; ring.
  - destruct n as [|n]; simpl in *; [lia|]. rewrite IH by lia. ring.
Qed.

Lemma foldr_Rplus_app (l1 l2 : list R) :
  foldr Rplus 0 (l1 ++ l2) = foldr Rplus 0 l1 + foldr Rplus 0 l2.
Proof. induction l1 as [|x l1 IH]; simpl; [ring|]. rewrite IH. ring. Qed.

(** On a constructed graph the successors are the indices [1 .. n-1] and
    the predecessors the indices [0 .. n-2]. *)
Lemma valid_successors_range g :
  built_graph g → valid_successors g = range 1 (len (Nodes g)).
Proof.
  intros Hg. destruct (built_graph_facts g Hg)
    as (Hn & _ & (nc & Hnc & HC & HS) & _).
  unfold valid_successors, end_depot, len. rewrite HC, HS.
  rewrite app_assoc, range_app by lia.
  rewrite range_snoc by lia. f_equal. lia.
Qed.

Lemma valid_predecessors_range g :
  built_graph g → valid_predecessors g = range 0 (len (Nodes g) - 1).
Proof.
  intros Hg. destruct (built_graph_facts g Hg)
    as (Hn & _ & (nc & Hnc & HC & HS) & _).
  unfold valid_predecessors, start_depot, len. rewrite HC, HS.
  rewrite range_app by lia. apply (range_cons 0). lia.
Qed.

Lemma customers_stations_range g :
  built_graph g → Customer_Idx g ++ RS_Idx g = range 1 (len (Nodes g) - 1).
Proof.
  intros Hg. destruct (built_graph_facts g Hg)
    as (Hn & _ & (nc & Hnc & HC & HS) & _).
  unfold len. rewrite HC, HS. apply range_app; lia.
Qed.

Lemma node_at_exists g (i : Z) :
  (0 <= i < len (Nodes g))%Z → ∃ nd, node_at g i nd.
Proof.
  intros Hi. destruct (index_lt (Nodes g) i Hi) as (nd & Hnd & _).
  exists nd. split; [lia|done].
Qed.

Lemma out_arcs_outgoing g l_0 (i : Z) :
  out_arcs i (V_Prime_N_plus_1_sequence (attributes_of g l_0)) = outgoing g i.
Proof.
  unfold out_arcs, outgoing. f_equal.
  apply list_filter_iff. intros j. split; intros H Heq; by apply H.
Qed.

Lemma in_arcs_incoming g l_0 (j : Z) :
  in_arcs j (V_Prime_0_sequence (attributes_of g l_0)) = incoming g j.
Proof. done. Qed.

End reading_rows.

(** ** The blocks of rows, one by one *)
Section block_specs.
Local Open Scope R_scope.

Variable g : Graph.
Variable l_0 : R.
Hypothesis Hg : built_graph g.

Let self : Solver := attributes_of g l_0.

Lemma successor_in_range (j : Z) :
  j ∈ valid_successors g → (0 <= j < len (Nodes g))%Z.
Proof. rewrite valid_successors_range by done. rewrite elem_of_range. lia. Qed.

Lemma predecessor_in_range (i : Z) :
  i ∈ valid_predecessors g → (0 <= i < len (Nodes g))%Z.
Proof. rewrite valid_predecessors_range by done. rewrite elem_of_range. lia. Qed.

Lemma inner_is_successor (i : Z) :
  i ∈ Customer_Idx g ++ RS_Idx g → i ∈ valid_successors g.
Proof.
  unfold valid_successors. rewrite !elem_of_app. tauto.
Qed.

Lemma inner_is_predecessor (i : Z) :
  i ∈ Customer_Idx g ++ RS_Idx g → i ∈ valid_predecessors g.
Proof. unfold valid_predecessors. intros H. apply elem_of_cons. by right. Qed.

Lemma start_depot_is_predecessor : start_depot ∈ valid_predecessors g.
Proof. apply elem_of_cons. by left. Qed.

(** The sparse pair of a coverage row has matching lengths. *)
Lemma length_outgoing (i : Z) :
  i ∈ Customer_Idx g ++ RS_Idx g →
  length (outgoing g i) = Z.to_nat (len (valid_successors g) - 1).
Proof.
  intros Hi. rewrite <- (out_arcs_outgoing g l_0). unfold out_arcs.
  rewrite length_map. change (V_Prime_N_plus_1_sequence _) with (valid_successors g).
  rewrite length_filter_ne.
  - unfold len. lia.
  - rewrite valid_successors_range by done. apply NoDup_range.
  - by apply inner_is_successor.
Qed.

Lemma customer_rows_spec :
  Forall2 (customer_coverage g) (Customer_Idx g) (rows_customer self).
Proof.
  apply Forall2_map_self. intros i Hi.
  assert (i ∈ Customer_Idx g ++ RS_Idx g) as Hi' by (apply elem_of_app; by left).
  pose proof (length_outgoing i Hi') as Hlen.
  unfold customer_coverage, well_formed, satisfies, lin_value. simpl.
  rewrite !(out_arcs_outgoing g l_0), list_mul_singleton, length_replicate.
  unfold valid_successors, end_depot in Hlen.
  split; [done|]. split; [done|]. split; [done|].
  intros ρ. rewrite zip_ones by lia. done.
Qed.

Lemma station_rows_spec :
  Forall2 (station_bound g) (RS_Idx g) (rows_station self).
Proof.
  apply Forall2_map_self. intros i Hi.
  assert (i ∈ Customer_Idx g ++ RS_Idx g) as Hi' by (apply elem_of_app; by right).
  pose proof (length_outgoing i Hi') as Hlen.
  unfold station_bound, well_formed, satisfies, lin_value. simpl.
  rewrite !(out_arcs_outgoing g l_0), list_mul_singleton, length_replicate.
  unfold valid_successors, end_depot in Hlen.
  split; [done|]. split; [done|]. split; [done|].
  intros ρ. rewrite zip_ones by lia. done.
Qed.

Lemma flow_rows_spec :
  Forall2 (flow_conservation g) (Customer_Idx g ++ RS_Idx g) (rows_flow self).
Proof.
  apply Forall2_map_self. intros j Hj.
  unfold flow_conservation, well_formed, satisfies, lin_value. simpl.
  rewrite !(out_arcs_outgoing g l_0), !(in_arcs_incoming g l_0).
  rewrite !list_mul_singleton. unfold len. rewrite !Nat2Z.id.
  split; [by rewrite !length_app, !length_replicate|].
  split; [done|]. split.
  - intros name. rewrite elem_of_app. tauto.
  - intros ρ. rewrite zip_with_app by (by rewrite length_replicate).
    rewrite foldr_Rplus_app, zip_ones, zip_minus_ones by done.
    split; intros H; lra.
Qed.

(** The entries of the two matrices and of the service-time array at the
    indices of an arc. *)
Lemma distance_entry0 (i j : Z) ni nj :
  node_at g i ni → node_at g j nj →
  entry0 (EVRP_Graph.distance_matrix g) i j
  = euclidean_distance (Position ni) (Position nj).
Proof.
  intros [Hi Hni] [Hj Hnj].
  destruct (built_graph_facts g Hg) as (_ & _ & _ & _ & He & _).
  unfold entry0. rewrite He by (eapply lookup_lt_Some; done).
  simpl. unfold dist. by rewrite Hni, Hnj.
Qed.

Lemma travel_time_entry0 (i j : Z) ni nj :
  node_at g i ni → node_at g j nj →
  entry0 (travel_time_matrix g) i j
  = euclidean_distance (Position ni) (Position nj) / v g.
Proof.
  intros [Hi Hni] [Hj Hnj].
  destruct (built_graph_facts g Hg) as (_ & _ & _ & _ & He & -> & _).
  unfold entry0, mat_div. rewrite (entry_fmap (λ x, x / v g)).
  rewrite He by (eapply lookup_lt_Some; done).
  simpl. unfold dist. by rewrite Hni, Hnj.
Qed.

Lemma service_lookup0 (i : Z) ni :
  node_at g i ni → lookup0 (CustomerServiceTime g) i = ServiceTime ni.
Proof.
  intros [Hi Hni].
  destruct (built_graph_facts g Hg) as (_ & _ & _ & _ & _ & _ & _ & -> & _).
  unfold lookup0. rewrite list_lookup_fmap, Hni. done.
Qed.

Lemma arc_nodes (origins : list Z) (arc : Z * Z) :
  (∀ i, i ∈ origins → i ∈ valid_predecessors g) →
  arc ∈ arcs origins (valid_successors g) →
  ∃ ni nj, node_at g arc.1 ni ∧ node_at g arc.2 nj.
Proof.
  intros Horig Harc. destruct arc as [i j].
  apply elem_of_arcs in Harc as (Hi & Hj & _). simpl.
  destruct (node_at_exists g i) as [ni Hni].
  { by apply predecessor_in_range, Horig. }
  destruct (node_at_exists g j) as [nj Hnj].
  { by apply successor_in_range. }
  eauto.
Qed.

Lemma customer_origin_is_predecessor (i : Z) :
  i ∈ Customer_Idx g → i ∈ valid_predecessors g.
Proof. intros H. apply inner_is_predecessor, elem_of_app. by left. Qed.

Lemma station_origin_is_predecessor (i : Z) :
  i ∈ RS_Idx g → i ∈ valid_predecessors g.
Proof. intros H. apply inner_is_predecessor, elem_of_app. by right. Qed.

Lemma time_rows_spec :
  Forall2 (time_propagation g l_0)
    (arcs (start_depot :: Customer_Idx g) (valid_successors g))
    (rows_over self row_time (Depot_start self ++ V_sequence self)).
Proof.
  apply Forall2_map_self. intros arc Harc.
  destruct (arc_nodes (start_depot :: Customer_Idx g) arc)
    as (ni & nj & Hni & Hnj); [|exact Harc|].
  { intros i [->|Hi]%elem_of_cons;
      [apply start_depot_is_predecessor|by apply customer_origin_is_predecessor]. }
  exists ni, nj. split; [done|]. split; [done|].
  unfold well_formed, satisfies, lin_value. simpl.
  split; [done|]. split; [done|]. intros ρ.
  rewrite (travel_time_entry0 _ _ ni nj), (service_lookup0 _ ni) by done.
  split; intros H; lra.
Qed.

Lemma time_RS_rows_spec :
  Forall2 (time_propagation_RS g l_0)
    (arcs (RS_Idx g) (valid_successors g))
    (rows_over self row_time_RS (F_Prime_sequence self)).
Proof.
  apply Forall2_map_self. intros arc Harc.
  unfold time_propagation_RS, well_formed, satisfies, lin_value. simpl.
  split; [done|]. split; [done|]. intros ρ. split; intros H; lra.
Qed.

Lemma battery_rows_spec :
  Forall2 (battery_propagation g)
    (arcs (Customer_Idx g) (valid_successors g))
    (rows_over self row_battery (V_sequence self)).
Proof.
  apply Forall2_map_self. intros arc Harc.
  destruct (arc_nodes _ arc customer_origin_is_predecessor Harc)
    as (ni & nj & Hni & Hnj).
  exists ni, nj. split; [done|]. split; [done|].
  unfold well_formed, satisfies, lin_value. simpl.
  split; [done|]. split; [done|]. intros ρ.
  rewrite (distance_entry0 _ _ ni nj) by done.
  split; intros H; lra.
Qed.

Lemma battery_RS_rows_spec :
  Forall2 (battery_propagation_RS g)
    (arcs (start_depot :: RS_Idx g) (valid_successors g))
    (rows_over self row_battery_RS (Depot_start self ++ F_Prime_sequence self)).
Proof.
  apply Forall2_map_self. intros arc Harc.
  destruct (arc_nodes (start_depot :: RS_Idx g) arc)
    as (ni & nj & Hni & Hnj); [|exact Harc|].
  { intros i [->|Hi]%elem_of_cons;
      [apply start_depot_is_predecessor|by apply station_origin_is_predecessor]. }
  exists ni, nj. split; [done|]. split; [done|].
  unfold well_formed, satisfies, lin_value. simpl.
  split; [done|]. split; [done|]. intros ρ.
  rewrite (distance_entry0 _ _ ni nj) by done.
  split; intros H; lra.
Qed.

Lemma blocks_of_all_rows : blocks_of g (all_rows self) (blocks_of_solver g l_0).
Proof.
  unfold blocks_of, blocks_of_solver, all_rows, rows_customer, rows_station,
    rows_flow, rows_over. simpl. rewrite !length_map. done.
Qed.

End block_specs.

(** ** The formulation of an instance (claims C3, C4, C5 and C6) *)

(** With at least one depot node and the five parameters, the graph and
    the solver are constructed, and the rows of the model are those of
    the eight loops. *)
Lemma formulation_of_instance (Dn Cn Sn : list Node) (params : gmap string R)
    (Rf : Z) (l_0 : R) :
  Dn ≠ [] →
  has_parameters params = true →
  ∃ g s, Graph_EVRP_TW Dn Cn Sn params Rf = Ok g
    ∧ EVPR_TW_Solver g l_0 = Ok s
    ∧ built_graph g
    ∧ blocks_of g (linear_constraints (model s)) (blocks_of_solver g l_0).
Proof.
  intros HDn Hparams.
  destruct (Graph_EVRP_TW_total Dn Cn Sn params Rf Hparams) as [g Hgr].
  assert (built_graph g) as Hg by (by exists Dn, Cn, Sn, params, Rf).
  destruct (EVPR_TW_Solver_spec g l_0 Hg)
    as (s & xs & cs & ts & us & ys & vars & Hs & ->).
  eexists g, _. split; [done|]. split; [exact Hs|]. split; [done|].
  simpl. apply blocks_of_all_rows.
Qed.

(** C6. For every customer index the formulator adds one equality row
    that forces the arcs to the valid successors (customers, station
    replicas and the end depot, other than the customer itself) to sum
    to exactly 1, and for every station-replica index one row that forces
    the corresponding sum to be at most 1. *)
Theorem coverage_and_station_rows (depot : Node) (Cn Sn : list Node)
    (params : gmap string R) (Rf : Z) (l_0 : R) :
  has_parameters params = true →
  ∃ g s b, Graph_EVRP_TW [depot] Cn Sn params Rf = Ok g
    ∧ EVPR_TW_Solver g l_0 = Ok s
    ∧ blocks_of g (linear_constraints (model s)) b
    ∧ Forall2 (customer_coverage g) (Customer_Idx g) (customer_rows b)
    ∧ Forall2 (station_bound g) (RS_Idx g) (station_rows b).
Proof.
  intros Hparams.
  destruct (formulation_of_instance [depot] Cn Sn params Rf l_0)
    as (g & s & Hgr & Hs & Hg & Hb); [done..|].
  exists g, s, (blocks_of_solver g l_0).
  split; [done|]. split; [done|]. split; [done|]. split.
  - by apply customer_rows_spec.
  - by apply station_rows_spec.
Qed.

Lemma coverage_and_station_rows_witness :
  ∃ g s b,
    Graph_EVRP_TW [example_depot] [example_customer_1; example_customer_2]
      [example_station] example_parameters 1 = Ok g
    ∧ EVPR_TW_Solver g l_0_default = Ok s
    ∧ blocks_of g (linear_constraints (model s)) b
    ∧ Forall2 (customer_coverage g) (Customer_Idx g) (customer_rows b)
    ∧ Forall2 (station_bound g) (RS_Idx g) (station_rows b).
Proof.
  apply (coverage_and_station_rows example_depot
           [example_customer_1; example_customer_2] [example_station]
           example_parameters 1 l_0_default).
  reflexivity.
Defined.

(** C3. For every non-depot node (customer or station-replica index) the
    formulator adds exactly one equality row stating that the arcs
    entering the node from its valid predecessors and the arcs leaving it
    to its valid successors have equal sums. *)
Theorem flow_conservation_rows (depot : Node) (Cn Sn : list Node)
    (params : gmap string R) (Rf : Z) (l_0 : R) :
  has_parameters params = true →
  ∃ g s b, Graph_EVRP_TW [depot] Cn Sn params Rf = Ok g
    ∧ EVPR_TW_Solver g l_0 = Ok s
    ∧ blocks_of g (linear_constraints (model s)) b
    ∧ NoDup (Customer_Idx g ++ RS_Idx g)
    ∧ Forall2 (flow_conservation g) (Customer_Idx g ++ RS_Idx g) (flow_rows b).
Proof.
  intros Hparams.
  destruct (formulation_of_instance [depot] Cn Sn params Rf l_0)
    as (g & s & Hgr & Hs & Hg & Hb); [done..|].
  exists g, s, (blocks_of_solver g l_0).
  split; [done|]. split; [done|]. split; [done|]. split.
  - rewrite customers_stations_range by done. apply NoDup_range.
  - by apply flow_rows_spec.
Qed.

Lemma flow_conservation_rows_witness :
  ∃ g s b,
    Graph_EVRP_TW [example_depot] [example_customer_1; example_customer_2]
      [example_station] example_parameters 1 = Ok g
    ∧ EVPR_TW_Solver g l_0_default = Ok s
    ∧ blocks_of g (linear_constraints (model s)) b
    ∧ NoDup (Customer_Idx g ++ RS_Idx g)
    ∧ Forall2 (flow_conservation g) (Customer_Idx g ++ RS_Idx g) (flow_rows b).
Proof.
  apply (flow_conservation_rows example_depot
           [example_customer_1; example_customer_2] [example_station]
           example_parameters 1 l_0_default).
  reflexivity.
Defined.

(** C4. For every ordered pair [(i, j)], [i ≠ j], with [i] the start depot
    or a customer and [j] a valid successor, the formulator adds the row
    [τ_i − τ_j + (travel_time(i,j) + service(i) + L₀)·x_ij ≤ L₀], and for
    every such pair with [i] a station replica the row
    [τ_i − τ_j + (L₀ + g·Q)·x_ij − g·y_i ≤ L₀]; these are all the rows of
    the two travel-time loops. *)
Theorem time_propagation_rows (depot : Node) (Cn Sn : list Node)
    (params : gmap string R) (Rf : Z) (l_0 : R) :
  has_parameters params = true →
  ∃ g s b, Graph_EVRP_TW [depot] Cn Sn params Rf = Ok g
    ∧ EVPR_TW_Solver g l_0 = Ok s
    ∧ blocks_of g (linear_constraints (model s)) b
    ∧ Forall2 (time_propagation g l_0)
        (arcs (start_depot :: Customer_Idx g) (valid_successors g)) (time_rows b)
    ∧ Forall2 (time_propagation_RS g l_0)
        (arcs (RS_Idx g) (valid_successors g)) (time_RS_rows b).
Proof.
  intros Hparams.
  destruct (formulation_of_instance [depot] Cn Sn params Rf l_0)
    as (g & s & Hgr & Hs & Hg & Hb); [done..|].
  exists g, s, (blocks_of_solver g l_0).
  split; [done|]. split; [done|]. split; [done|]. split.
  - by apply time_rows_spec.
  - by apply time_RS_rows_spec.
Qed.

Lemma time_propagation_rows_witness :
  ∃ g s b,
    Graph_EVRP_TW [example_depot] [example_customer_1; example_customer_2]
      [example_station] example_parameters 1 = Ok g
    ∧ EVPR_TW_Solver g l_0_default = Ok s
    ∧ blocks_of g (linear_constraints (model s)) b
    ∧ Forall2 (time_propagation g l_0_default)
        (arcs (start_depot :: Customer_Idx g) (valid_successors g)) (time_rows b)
    ∧ Forall2 (time_propagation_RS g l_0_default)
        (arcs (RS_Idx g) (valid_successors g)) (time_RS_rows b).
Proof.
  apply (time_propagation_rows example_depot
           [example_customer_1; example_customer_2] [example_station]
           example_parameters 1 l_0_default).
  reflexivity.
Defined.

(** C5. For every ordered pair [(i, j)], [i ≠ j], with [i] a customer and
    [j] a valid successor, the formulator adds the row
    [y_j − y_i + (h·distance(i,j) + Q)·x_ij ≤ Q], and for every such pair
    with [i] the start depot or a station replica the row
    [y_j + h·distance(i,j)·x_ij ≤ Q]; these are all the rows of the two
    battery loops. *)
Theorem battery_propagation_rows (depot : Node) (Cn Sn : list Node)
    (params : gmap string R) (Rf : Z) (l_0 : R) :
  has_parameters params = true →
  ∃ g s b, Graph_EVRP_TW [depot] Cn Sn params Rf = Ok g
    ∧ EVPR_TW_Solver g l_0 = Ok s
    ∧ blocks_of g (linear_constraints (model s)) b
    ∧ Forall2 (battery_propagation g)
        (arcs (Customer_Idx g) (valid_successors g)) (battery_rows b)
    ∧ Forall2 (battery_propagation_RS g)
        (arcs (start_depot :: RS_Idx g) (valid_successors g)) (battery_RS_rows b).
Proof.
  intros Hparams.
  destruct (formulation_of_instance [depot] Cn Sn params Rf l_0)
    as (g & s & Hgr & Hs & Hg & Hb); [done..|].
  exists g, s, (blocks_of_solver g l_0).
  split; [done|]. split; [done|]. split; [done|]. split.
  - by apply battery_rows_spec.
  - by apply battery_RS_rows_spec.
Qed.

Lemma battery_propagation_rows_witness :
  ∃ g s b,
    Graph_EVRP_TW [example_depot] [example_customer_1; example_customer_2]
      [example_station] example_parameters 1 = Ok g
    ∧ EVPR_TW_Solver g l_0_default = Ok s
    ∧ blocks_of g (linear_constraints (model s)) b
    ∧ Forall2 (battery_propagation g)
        (arcs (Customer_Idx g) (valid_successors g)) (battery_rows b)
    ∧ Forall2 (battery_propagation_RS g)
        (arcs (start_depot :: RS_Idx g) (valid_successors g)) (battery_RS_rows b).
Proof.
  apply (battery_propagation_rows example_depot
           [example_customer_1; example_customer_2] [example_station]
           example_parameters 1 l_0_default).
  reflexivity.
Defined.

(** ** More than one depot (claim C2) *)

(** C2, as stated, fails: an input with two depot nodes is not rejected;
    the graph is built and the formulation is generated on it. *)
Lemma two_depots_not_rejected :
  ¬ rejects [example_depot; example_depot_2] [example_customer_1]
      [example_station] example_parameters 1 l_0_default.
Proof.
  destruct (formulation_of_instance [example_depot; example_depot_2]
    [example_customer_1] [example_station] example_parameters 1 l_0_default)
    as (g & s & Hg & Hs & _); [done|reflexivity|].
  intros [[e He]|(g' & e & Hg' & He)].
  - rewrite Hg in He. discriminate.
  - rewrite Hg in Hg'. injection Hg' as <-. rewrite Hs in He. discriminate.
Qed.

(** C2, amended. With more than one depot node (and the five vehicle
    parameters) nothing is rejected: the graph is built on the node
    sequence depots, customers, replicated stations, depots, with depot
    indices [0] and the last index, customer indices [1 .. customers] and
    the remaining indices up to the last but one as stations, and the
    formulator generates its eight blocks of rows on that graph. *)
Theorem several_depots_are_accepted (Dn Cn Sn : list Node)
    (params : gmap string R) (Rf : Z) (l_0 : R) :
  (1 < length Dn)%nat →
  has_parameters params = true →
  ∃ g s b, Graph_EVRP_TW Dn Cn Sn params Rf = Ok g
    ∧ Nodes g = Dn ++ Cn ++ concat (replicate (Z.to_nat Rf) Sn) ++ Dn
    ∧ Depot_Idx g = [0; len (Nodes g) - 1]%Z
    ∧ Customer_Idx g = seqZ 1 (len Cn)
    ∧ RS_Idx g = seqZ (1 + len Cn) (len (Nodes g) - 2 - len Cn)
    ∧ EVPR_TW_Solver g l_0 = Ok s
    ∧ blocks_of g (linear_constraints (model s)) b.
Proof.
  intros HDn Hparams.
  destruct (formulation_of_instance Dn Cn Sn params Rf l_0)
    as (g & s & Hgr & Hs & Hg & Hb);
    [intros ->; simpl in HDn; lia|done|].
  destruct (Graph_EVRP_TW_inv _ _ _ _ _ _ Hgr) as (HN & HD & HC & HS & _).
  exists g, s, (blocks_of_solver g l_0).
  split; [done|]. split; [by rewrite HN, list_mul_concat|].
  split; [done|].
  split; [rewrite HC, range_seqZ; f_equal; lia|].
  split; [rewrite HS, range_seqZ; f_equal; lia|].
  done.
Qed.

Lemma several_depots_are_accepted_witness :
  ∃ g s b,
    Graph_EVRP_TW [example_depot; example_depot_2] [example_customer_1]
      [example_station] example_parameters 1 = Ok g
    ∧ Nodes g = [example_depot; example_depot_2; example_customer_1;
                 example_station; example_depot; example_depot_2]
    ∧ Depot_Idx g = [0; len (Nodes g) - 1]%Z
    ∧ Customer_Idx g = seqZ 1 1
    ∧ RS_Idx g = seqZ 2 (len (Nodes g) - 2 - 1)
    ∧ EVPR_TW_Solver g l_0_default = Ok s
    ∧ blocks_of g (linear_constraints (model s)) b.
Proof.
  apply (several_depots_are_accepted [example_depot; example_depot_2]
           [example_customer_1] [example_station] example_parameters 1
           l_0_default).
  - simpl. lia.
  - reflexivity.
Defined.

(** ** The parser without customers (claim C10) *)
Section parser.

Variable node_match : string → option node_groups.
Variable parameter_match : string → option (string * string).
Variable float : string → result R.

Lemma parse_line_customers line st st' :
  parse_line node_match parameter_match float line st = Ok st' →
  (customer_line node_match line
   ∧ ∃ nd, DataParser.Customer_nodes st' = DataParser.Customer_nodes st ++ [nd])
  ∨ (¬ customer_line node_match line
     ∧ DataParser.Customer_nodes st' = DataParser.Customer_nodes st).
Proof.
  unfold parse_line, customer_line.
  destruct (node_match line) as [m|].
  - destruct (float (group3 m)); [|done]. destruct (float (group4 m)); [|done].
    destruct (float (group5 m)); [|done]. destruct (float (group6 m)); [|done].
    destruct (float (group7 m)); [|done]. destruct (float (group8 m)); [|done].
    simpl.
    destruct (startswith (group1 m) "D") eqn:HD.
    { intros [= <-]. right. split; [|done]. intros (m' & [= <-] & ? & _). congruence. }
    destruct (startswith (group1 m) "S") eqn:HS.
    { intros [= <-]. right. split; [|done]. intros (m' & [= <-] & _ & ? & _). congruence. }
    destruct (startswith (group1 m) "C") eqn:HC; [|done].
    intros [= <-]. left. split; [by exists m|]. simpl. eauto.
  - destruct (parameter_match line) as [[key value]|].
    + destruct (float value); [|done]. simpl. intros [= <-]. right.
      split; [|done]. by intros (m & ? & _).
    + intros [= <-]. right. split; [|done]. by intros (m & ? & _).
Qed.

(** The parsed customer list is empty exactly when the file has no
    customer line. *)
Lemma parse_lines_no_customers file st :
  parse_lines node_match parameter_match float file = Ok st →
  (DataParser.Customer_nodes st = []
   ↔ ∀ line, line ∈ file → ¬ customer_line node_match line).
Proof.
  unfold parse_lines.
  set (st0 := {| DataParser.Depot_nodes := []; DataParser.Customer_nodes := [];
                 DataParser.RS_nodes := []; DataParser.parameters := ∅ |}).
  assert (DataParser.Customer_nodes st0 = []) as H0 by done.
  revert H0. generalize st0. clear st0.
  induction file as [|line file IH]; intros st0 H0; simpl.
  - intros [= <-]. split; [|done]. intros _ line Hline.
    by apply elem_of_nil in Hline.
  - destruct (parse_line _ _ _ line st0) as [st1|] eqn:Hline; [|done].
    intros Hrest.
    destruct (parse_line_customers _ _ _ Hline) as [[Hc [nd Hnd]]|[Hc Heq]].
    + split.
      * intros Hempty. exfalso.
        clear IH. revert st1 Hnd Hline Hrest.
        cut (∀ st1, DataParser.Customer_nodes st1 ≠ [] →
               for_each file (parse_line node_match parameter_match float) st1
               = Ok st → False).
        { intros Hcut st1 Hnd _ Hrest. apply (Hcut st1); [|done].
          rewrite Hnd. by destruct (DataParser.Customer_nodes st0). }
        clear H0 st0 Hc. induction file as [|l file IH]; intros st1 Hne; simpl.
        -- intros [= <-]. done.
        -- destruct (parse_line _ _ _ l st1) as [st2|] eqn:Hl; [|done].
           apply IH.
           destruct (parse_line_customers _ _ _ Hl) as [[_ [nd' ->]]|[_ ->]];
             [|done].
           by destruct (DataParser.Customer_nodes st1).
      * intros Hnone. exfalso. apply (Hnone line); [|done].
        apply elem_of_cons. by left.
    + rewrite (IH st1) by (done || congruence). split.
      * intros Hnone l [->|Hl]%elem_of_cons; auto.
      * intros Hnone l Hl. apply Hnone, elem_of_cons. by right.
Qed.

(** C10, amended. When the parsed customer list is empty (the file has
    no customer line), [parse_file] raises [IndexError] at the clean-up
    step that reads [Customer_nodes[0]], and returns nothing. *)
Theorem parse_file_without_customers (file : list string) (st : parsed) :
  parse_lines node_match parameter_match float file = Ok st →
  DataParser.Customer_nodes st = [] →
  parse_file node_match parameter_match float file = Raise IndexError.
Proof.
  intros Hlines Hempty. unfold parse_file. rewrite Hlines. simpl.
  by rewrite Hempty.
Qed.

End parser.

Lemma parse_file_without_customers_witness :
  parse_file example_node_match example_parameter_match example_float
    ["D0         d      40.0    50.0   0.0     0.0        1236.0    0.0"]
  = Raise IndexError.
Proof.
  apply (parse_file_without_customers example_node_match
           example_parameter_match example_float
           ["D0         d      40.0    50.0   0.0     0.0        1236.0    0.0"]
           {| DataParser.Depot_nodes :=
                [{| StringId := "D0"; Type_ := "d"; Position := (0, 0)%R;
                    Demand := 0%R; Window := (0, 0)%R; ServiceTime := 0%R |}];
              DataParser.Customer_nodes := [];
              DataParser.RS_nodes := [];
              DataParser.parameters := ∅ |}).
  - reflexivity.
  - reflexivity.
Defined.

(** C10, as stated, fails in its last clause: a zero-customer instance
    can be built through the parser. On a file whose only customer line
    is at the position of the depot, the clean-up step of [parse_file]
    pops that customer and returns an empty customer list, and the graph
    and the formulation are built on the result. *)
Lemma zero_customer_instance_through_parser :
  zero_customer_instance_built example_file_node_match
    coincident_parameter_match coincident_float coincident_file.
Proof.
  assert (parse_file example_file_node_match coincident_parameter_match
            coincident_float coincident_file = Ok coincident_parsed) as Hfile.
  { unfold DataParser.parse_file.
    replace (parse_lines example_file_node_match coincident_parameter_match
               coincident_float coincident_file)
      with (Ok {| DataParser.Depot_nodes :=
                    DataParser.Depot_nodes coincident_parsed;
                  DataParser.Customer_nodes :=
                    [{| StringId := "C0"; Type_ := "c";
                        Position := (40, 50)%R; Demand := 0%R;
                        Window := (0, 1236)%R; ServiceTime := 0%R |}];
                  DataParser.RS_nodes := [];
                  DataParser.parameters :=
                    DataParser.parameters coincident_parsed |})
      by reflexivity.
    cbn [mbind result_bind DataParser.Customer_nodes DataParser.Depot_nodes].
    change (Py.index [?c] 0) with (Ok c).
    cbn [mbind result_bind coincident_parsed DataParser.Depot_nodes].
    change (Py.index [?d] 0) with (Ok d).
    cbn [mbind result_bind Position]. by rewrite bool_decide_eq_true_2. }
  destruct (formulation_of_instance (DataParser.Depot_nodes coincident_parsed)
              [] [] (DataParser.parameters coincident_parsed)
              RS_dummy_count_default l_0_default)
    as (g & s & Hgr & Hs & _); [done|reflexivity|].
  exists coincident_parsed, g, s.
  split; [exact Hfile|]. split; [reflexivity|]. split; [exact Hgr|].
  split; [|exact Hs].
  destruct (Graph_EVRP_TW_inv _ _ _ _ _ _ Hgr) as (_ & _ & -> & _).
  reflexivity.
Qed.

(** ** Route reconstruction (claims C1 and C9) *)

(** The labels that the formulator writes are read back by the
    reconstructor. *)
Example label_of_x_name : label_indices (x_name 3 10) = Ok (3, 10).
Proof. reflexivity. Qed.

Example label_with_extra_field : label_indices "x_0_1_2" = Raise ValueError.
Proof. reflexivity. Qed.

(** Two vehicles, no branching below the start depot: one route each. *)
Example two_vehicles :
  find_and_print_routes ["x_0_1"; "x_1_3"; "x_0_2"; "x_2_3"] 3
  = Ok [["x_0_1"; "x_1_3"]; ["x_0_2"; "x_2_3"]].
Proof. by vm_compute. Qed.

(** C1 on the arcs [0→1, 1→2, 1→3, 2→3] with end depot 3: the second
    route that [find_and_print_routes] reports keeps the arc [x_1_2] of
    the first route, so it is not a path ([x_1_2] is followed by
    [x_1_3]). *)
Theorem reported_route_is_not_a_path :
  find_and_print_routes ["x_0_1"; "x_1_2"; "x_1_3"; "x_2_3"] 3
  = Ok [["x_0_1"; "x_1_2"; "x_2_3"]; ["x_0_1"; "x_1_2"; "x_1_3"]]
  ∧ ¬ is_route 3 ["x_0_1"; "x_1_2"; "x_1_3"].
Proof.
  split; [by vm_compute|].
  intros (arcs & Harcs & Hpath & _).
  repeat match goal with
  | H : Forall2 _ (_ :: _) _ |- _ => inversion H; clear H; subst
  | H : Forall2 _ [] _ |- _ => inversion H; clear H; subst
  | H : label_indices _ = Ok _ |- _ => vm_compute in H; injection H as <-
  end.
  discriminate Hpath.
Qed.

(** The first route of that run is a route. *)
Lemma first_reported_route_is_a_path : is_route 3 ["x_0_1"; "x_1_2"; "x_2_3"].
Proof.
  exists [(0, 1); (1, 2); (2, 3)].
  split; [repeat constructor|]. split; [done|]. split; [done|].
  split; [done|]. apply (bool_decide_unpack _). by vm_compute.
Qed.

(** Two vehicle routes, [0→2→1→5] and [0→3→5], and one more selected arc
    [2→0] into the start depot, in the order in which [print_results]
    collects them: the second reported route has [x_2_0] followed by
    [x_2_1]. *)
Lemma reported_route_with_arc_into_start_depot :
  find_and_print_routes
    ["x_0_2"; "x_0_3"; "x_1_5"; "x_2_0"; "x_2_1"; "x_3_5"] 5
  = Ok [["x_0_2"; "x_2_0"; "x_0_3"; "x_3_5"];
        ["x_0_2"; "x_2_0"; "x_2_1"; "x_1_5"];
        ["x_0_3"; "x_3_5"]].
Proof. by vm_compute. Qed.

(** The same defect can put one arc twice into a route. *)
Lemma reported_route_repeats_an_arc :
  find_and_print_routes ["x_0_1"; "x_1_5"; "x_1_2"; "x_2_1"] 5
  = Ok [["x_0_1"; "x_1_5"]; ["x_0_1"; "x_1_5"; "x_1_2"; "x_2_1"; "x_1_5"]]
  ∧ ¬ NoDup ["x_0_1"; "x_1_5"; "x_1_2"; "x_2_1"; "x_1_5"].
Proof.
  split; [by vm_compute|].
  intros Hnd. apply NoDup_cons in Hnd as [_ Hnd].
  apply NoDup_cons in Hnd as [Hin _]. apply Hin.
  do 2 (apply elem_of_cons; right). apply elem_of_cons. by left.
Qed.

(** C9 on the same four arcs in two orders: the reported sets of routes
    differ. *)
Theorem route_sets_depend_on_arc_order :
  ["x_0_1"; "x_1_3"; "x_1_2"; "x_2_3"] ≡ₚ ["x_0_1"; "x_1_2"; "x_1_3"; "x_2_3"]
  ∧ find_and_print_routes ["x_0_1"; "x_1_3"; "x_1_2"; "x_2_3"] 3
    = Ok [["x_0_1"; "x_1_3"]; ["x_0_1"; "x_1_3"; "x_1_2"; "x_2_3"]]
  ∧ find_and_print_routes ["x_0_1"; "x_1_2"; "x_1_3"; "x_2_3"] 3
    = Ok [["x_0_1"; "x_1_2"; "x_2_3"]; ["x_0_1"; "x_1_2"; "x_1_3"]]
  ∧ ¬ same_routes
        [["x_0_1"; "x_1_3"]; ["x_0_1"; "x_1_3"; "x_1_2"; "x_2_3"]]
        [["x_0_1"; "x_1_2"; "x_2_3"]; ["x_0_1"; "x_1_2"; "x_1_3"]].
Proof.
  split; [|split; [by vm_compute|split; [by vm_compute|]]].
  - apply perm_skip, perm_swap.
  - intros Hsame.
    assert (["x_0_1"; "x_1_3"] ∈
            [["x_0_1"; "x_1_2"; "x_2_3"]; ["x_0_1"; "x_1_2"; "x_1_3"]]) as Hin.
    { apply Hsame, elem_of_cons. by left. }
    apply elem_of_cons in Hin as [Heq|Hin]; [discriminate|].
    apply elem_of_cons in Hin as [Heq|Hin]; [discriminate|].
    by apply elem_of_nil in Hin.
Qed.

(** ** Route reconstruction never runs out of fuel *)

Lemma for_each_partial {X S : Type} (I : S → Prop) (E : exn → Prop)
    (l : list X) (body : X → S → result S) (s : S) :
  I s →
  (∀ x s1, x ∈ l → I s1 →
     match body x s1 with Ok s2 => I s2 | Raise e => E e end) →
  match for_each l body s with Ok s' => I s' | Raise e => E e end.
Proof.
  revert s. induction l as [|x l IH]; intros s Hs Hbody; simpl; [done|].
  pose proof (Hbody x s (list_elem_of_here x l) Hs) as Hx.
  destruct (body x s) as [s1|e]; [|done].
  apply IH; [done|]. intros y s2 Hy. apply Hbody, elem_of_cons. by right.
Qed.

Lemma int_error (s : string) (e : exn) : Py.int s = Raise e → e = ValueError.
Proof.
  unfold Py.int.
  match goal with |- context [match ?r with Some _ => _ | None => _ end] =>
    destruct r end; congruence.
Qed.

Lemma label_indices_error (label : string) (e : exn) :
  label_indices label = Raise e → e = ValueError.
Proof.
  unfold label_indices, unpack2_int.
  destruct (slice_from_1 (split "_" label)) as [|a [|b [|c l]]]; try congruence.
  destruct (Py.int a) as [i|e1] eqn:Ha; simpl.
  - destruct (Py.int b) as [j|e2] eqn:Hb; simpl; [done|].
    intros [= <-]. by apply int_error in Hb.
  - intros [= <-]. by apply int_error in Ha.
Qed.

Lemma length_removelast {A : Type} (l : list A) :
  length (removelast l) = pred (length l).
Proof.
  induction l as [|x l _] using rev_ind; [done|].
  rewrite removelast_last, length_app. simpl. lia.
Qed.

Lemma label_indices_label_error (sequence : list string) (label : string)
    (e : exn) :
  label ∈ sequence → label_indices label = Raise e → label_error sequence e.
Proof.
  intros Hin Herr. pose proof (label_indices_error _ _ Herr) as ->.
  split; [done|]. by exists label.
Qed.

Lemma visited_add_remove (label : string) (V : gset string) :
  label ∉ V → ({[label]} ∪ V) ∖ {[label]} = V.
Proof.
  intros Hnot. apply set_eq. intros x.
  rewrite elem_of_difference, elem_of_union, elem_of_singleton. split.
  - intros [[->|Hx] Hne]; done.
  - intros Hx. split; [by right|]. intros ->. done.
Qed.

Lemma elem_of_visited_add (label : string) (V : gset string) :
  label ∈ ({[label]} ∪ V : gset string).
Proof. apply elem_of_union_l, elem_of_singleton. done. Qed.

Lemma unvisited_add (sequence : list string) (label : string)
    (st : search_state) :
  label ∈ sequence → label ∉ visited st →
  (unvisited sequence (visited_add label st) < unvisited sequence st)%nat.
Proof.
  intros Hin Hnot. unfold unvisited, visited_add. simpl.
  apply subset_size. split.
  - intros x. rewrite !elem_of_difference, elem_of_union. tauto.
  - intros Hsub. specialize (Hsub label).
    rewrite !elem_of_difference, elem_of_union, elem_of_singleton in Hsub.
    apply Hsub; [|by left]. split; [|done]. by apply elem_of_list_to_set.
Qed.

Lemma size_list_to_set_le (l : list string) :
  (size (list_to_set l : gset string) <= length l)%nat.
Proof.
  induction l as [|x l IH].
  - rewrite list_to_set_nil, size_empty. done.
  - rewrite list_to_set_cons, size_union_alt, size_singleton. simpl.
    apply le_n_S. etrans; [|exact IH]. apply subseteq_size, subseteq_difference_l.
    done.
Qed.

Lemma unvisited_le_length (sequence : list string) (st : search_state) :
  (unvisited sequence st <= length sequence)%nat.
Proof.
  unfold unvisited. etrans; [|apply size_list_to_set_le].
  apply subseteq_size, subseteq_difference_l. done.
Qed.

(** With more fuel than unvisited labels, [find_route] restores the
    visited set, does not shorten the current route, and raises nothing
    but a [ValueError] for a malformed label. *)
Lemma find_route_safe (sequence : list string) (end_node_idx : Z) (fuel : nat)
    (current_node : string) (st : search_state) :
  current_node ∈ sequence →
  (unvisited sequence st < fuel)%nat →
  match find_route fuel sequence end_node_idx current_node st with
  | Ok st' =>
      visited st' = visited st
      ∧ (length (current_route st) <= length (current_route st'))%nat
  | Raise e => label_error sequence e
  end.
Proof.
  revert current_node st.
  induction fuel as [|fuel IH]; intros current_node st Hcur Hfuel; [lia|].
  simpl.
  destruct (label_indices current_node) as [[i j]|e] eqn:Hlabel; simpl;
    [|by eapply label_indices_label_error].
  case_bool_decide as Hend; simpl.
  { split; [done|]. rewrite length_app. lia. }
  match goal with
  | |- context [for_each ?l ?body ?s] =>
      assert (match for_each l body s with
              | Ok s1 =>
                  visited s1 = visited st
                  ∧ (S (length (current_route st))
                     <= length (current_route s1))%nat
              | Raise e => label_error sequence e
              end) as Hloop;
      [apply for_each_partial|destruct (for_each l body s) as [st2|e]]
  end.
  - simpl. split; [done|]. rewrite length_app. simpl. lia.
  - intros next s1 Hnext [Hvis Hlen].
    case_bool_decide as Hseen; [done|].
    destruct (label_indices next) as [[next_i next_j]|e] eqn:Hnextl; simpl;
      [|by eapply label_indices_label_error].
    case_bool_decide as Hcont; simpl; [|done].
    assert (unvisited sequence (visited_add next s1) < fuel)%nat as Hless.
    { pose proof (unvisited_add sequence next s1 Hnext Hseen).
      assert (unvisited sequence s1 = unvisited sequence st) as Heq
        by (unfold unvisited; by rewrite Hvis).
      lia. }
    pose proof (IH next (visited_add next s1) Hnext Hless) as Hrec.
    destruct (find_route fuel sequence end_node_idx next (visited_add next s1))
      as [s2|e]; simpl; [|done].
    destruct Hrec as [Hvis2 Hlen2].
    unfold visited_remove. rewrite Hvis2. simpl.
    rewrite bool_decide_eq_true_2 by apply elem_of_visited_add. simpl.
    split; [|simpl in Hlen2; lia].
    rewrite <- Hvis. by apply visited_add_remove.
  - simpl. destruct Hloop as [Hvis Hlen]. unfold route_pop.
    destruct (current_route st2) as [|x l] eqn:Hroute; [simpl in Hlen; lia|].
    cbn -[removelast]. split; [done|].
    rewrite length_removelast. simpl in *. lia.
  - done.
Qed.


(** [find_and_print_routes] runs to the end: it returns the routes, or it
    raises [ValueError] for a label that is not of the form [x_i_j]. It
    never runs out of fuel. *)
Lemma find_and_print_routes_safe (sequence : list string) (end_node_idx : Z) :
  match find_and_print_routes sequence end_node_idx with
  | Ok _ => True
  | Raise e => label_error sequence e
  end.
Proof.
  unfold find_and_print_routes.
  match goal with
  | |- context [for_each ?l ?body ?s] =>
      assert (match for_each l body s with
              | Ok s1 => visited s1 = ∅
              | Raise e => label_error sequence e
              end) as Hloop;
      [apply for_each_partial|by destruct (for_each l body s)]
  end.
  - done.
  - intros start s1 Hstart Hvis.
    destruct (startswith start "x_0_" && bool_decide (start ∉ visited s1));
      [|done].
    assert (unvisited sequence (set_current_route (visited_add start s1) [])
            < length sequence)%nat as Hless.
    { eapply Nat.lt_le_trans; [|apply (unvisited_le_length sequence s1)].
      apply unvisited_add; [done|]. rewrite Hvis. apply not_elem_of_empty. }
    pose proof (find_route_safe sequence end_node_idx (length sequence) start
                  _ Hstart Hless) as Hrec.
    destruct (find_route _ _ _ _ _) as [s2|e]; simpl; [|done].
    destruct Hrec as [Hvis2 _]. unfold visited_remove. rewrite Hvis2. simpl.
    rewrite bool_decide_eq_true_2 by apply elem_of_visited_add. simpl.
    rewrite Hvis. apply visited_add_remove, not_elem_of_empty.
Qed.

(** When every label is of the form [x_i_j], routes are returned. *)
Lemma find_and_print_routes_total (sequence : list string) (end_node_idx : Z) :
  (∀ label, label ∈ sequence → ∃ arc, label_indices label = Ok arc) →
  ∃ routes, find_and_print_routes sequence end_node_idx = Ok routes.
Proof.
  intros Hlabels.
  pose proof (find_and_print_routes_safe sequence end_node_idx) as Hsafe.
  destruct (find_and_print_routes sequence end_node_idx) as [routes|e]; [eauto|].
  destruct Hsafe as (_ & label & Hin & Herr).
  destruct (Hlabels label Hin) as [arc Harc]. congruence.
Qed.

(** ** Route reconstruction without branching *)

Lemma for_each_partial_inv {X S : Type} (I : list X → S → Prop)
    (l : list X) (body : X → S → result S) (s : S) :
  I [] s →
  (∀ done x rest s1, l = done ++ x :: rest → I done s1 →
     match body x s1 with Ok s2 => I (done ++ [x]) s2 | Raise _ => True end) →
  match for_each l body s with Ok s' => I l s' | Raise _ => True end.
Proof.
  intros H0 Hstep.
  cut (∀ todo done s1, l = done ++ todo → I done s1 →
         match for_each todo body s1 with Ok s' => I l s' | Raise _ => True end).
  { intros Hcut. by apply (Hcut l [] s). }
  induction todo as [|x todo IH]; intros done s1 Hl HI; simpl.
  - rewrite app_nil_r in Hl. by subst.
  - pose proof (Hstep done x todo s1 Hl HI) as Hx.
    destruct (body x s1) as [s2|e]; [|done].
    apply (IH (done ++ [x])); [|done]. by rewrite <- app_assoc.
Qed.

Lemma contiguous_snoc (arcs : list (Z * Z)) (j k : Z) :
  contiguous arcs = true → snd <$> last arcs = Some j →
  contiguous (arcs ++ [(j, k)]) = true.
Proof.
  induction arcs as [|[a b] [|[c d] arcs] IH]; [done|..].
  - simpl. intros _ [= ->]. by rewrite bool_decide_eq_true_2.
  - intros Hc Hlast.
    change (contiguous ((a, b) :: ((c, d) :: arcs) ++ [(j, k)]) = true).
    change (bool_decide (b = c) && contiguous (((c, d) :: arcs) ++ [(j, k)])
            = true).
    change (bool_decide (b = c) && contiguous ((c, d) :: arcs) = true) in Hc.
    apply andb_true_iff in Hc as [Hbc Hc]. rewrite Hbc. simpl.
    apply IH; [done|]. by rewrite last_cons_cons in Hlast.
Qed.

Lemma path_to_snoc (path : list string) (j k : Z) (V : gset string)
    (next : string) :
  path_to path j V → next ∉ V → label_indices next = Ok (j, k) →
  path_to (path ++ [next]) k ({[next]} ∪ V).
Proof.
  intros (arcs & Harcs & Hc & Hhead & Hlast & Hnd & Hvis) Hnext Hlabel.
  exists (arcs ++ [(j, k)]).
  split; [apply Forall2_app; [done|by constructor]|].
  split; [by apply contiguous_snoc|].
  split; [destruct arcs; [done|done]|].
  split; [by rewrite last_snoc|].
  split.
  - apply NoDup_app. split; [done|]. split; [|apply NoDup_singleton].
    intros x Hx ->%list_elem_of_singleton. by apply Hnext, Hvis.
  - intros label [Hl| ->%list_elem_of_singleton]%elem_of_app.
    + apply elem_of_union_r. by apply Hvis.
    + apply elem_of_visited_add.
Qed.

Lemma path_to_is_route (path : list string) (j : Z) (V : gset string) :
  path_to path j V → is_route j path.
Proof.
  intros (arcs & Harcs & Hc & Hhead & Hlast & Hnd & _). by exists arcs.
Qed.

(** On an arc set without branching every route that [find_route] adds
    is a route. *)
Lemma find_route_routes (sequence : list string) (end_node_idx : Z)
    (fuel : nat) (current_node : string) (st : search_state) (i j : Z) :
  no_branching sequence →
  current_node ∈ sequence →
  label_indices current_node = Ok (i, j) →
  path_to (current_route st ++ [current_node]) j (visited st) →
  match find_route fuel sequence end_node_idx current_node st with
  | Ok st' =>
      visited st' = visited st
      ∧ ∃ rs, routes st' = routes st ++ rs ∧ Forall (is_route end_node_idx) rs
  | Raise _ => True
  end.
Proof.
  intros (Hnd & Hone & Hzero).
  revert current_node st i j.
  induction fuel as [|fuel IH]; intros current_node st i j Hcur Hlabel Hpath;
    [done|].
  simpl. rewrite Hlabel. simpl.
  case_bool_decide as Hend; simpl.
  { split; [done|]. exists [current_route st ++ [current_node]].
    split; [done|]. apply Forall_singleton. subst j.
    by eapply path_to_is_route. }
  assert (j ≠ 0) as Hj by (intros ->; by eapply Hzero).
  match goal with
  | |- context [for_each ?l ?body ?s] =>
      pose proof (for_each_partial_inv
        (λ done s1,
           visited s1 = visited st
           ∧ (∃ rs, routes s1 = routes st ++ rs
                    ∧ Forall (is_route end_node_idx) rs)
           ∧ ((∃ c k, c ∈ done ∧ label_indices c = Ok (j, k)
                      ∧ c ∉ visited st)
              ∨ current_route s1 = current_route st ++ [current_node]))
        l body s) as Hloop;
      destruct (for_each l body s) as [st2|e]; [|done]
  end.
  destruct Hloop as (Hvis & Hrs & _).
  - split; [done|]. split; [|by right]. exists []. by rewrite app_nil_r.
  - intros done next rest s1 Hsplit (Hvis & (rs & Hroutes & Hrs) & Hchild).
    assert (next ∈ sequence) as Hnext.
    { rewrite Hsplit. apply elem_of_app. right. apply elem_of_cons. by left. }
    assert (next ∉ done) as Hfresh.
    { rewrite Hsplit in Hnd. apply NoDup_app in Hnd as (_ & Hnd & _).
      intros Hin. apply (Hnd next Hin). apply elem_of_cons. by left. }
    assert (∀ c, c ∈ done → c ∈ sequence) as Hdone.
    { intros c Hc. rewrite Hsplit. apply elem_of_app. by left. }
    case_bool_decide as Hseen.
    { split; [done|]. split; [by exists rs|].
      destruct Hchild as [(c & k & Hc & Hck & Hcv)|Hroute]; [left|by right].
      exists c, k. split; [|done]. apply elem_of_app. by left. }
    destruct (label_indices next) as [[next_i next_j]|e] eqn:Hnextl; simpl;
      [|done].
    case_bool_decide as Hcont; simpl.
    2:{ split; [done|]. split; [by exists rs|].
        destruct Hchild as [(c & k & Hc & Hck & Hcv)|Hroute]; [left|by right].
        exists c, k. split; [|done]. apply elem_of_app. by left. }
    subst next_i.
    destruct Hchild as [(c & k & Hc & Hck & Hcv)|Hroute].
    { exfalso. apply Hfresh.
      by rewrite <- (Hone c next j k next_j (Hdone c Hc) Hnext Hck Hnextl Hj). }
    pose proof (IH next (visited_add next s1) j next_j Hnext Hnextl) as Hrec.
    destruct (find_route fuel sequence end_node_idx next (visited_add next s1))
      as [s2|e]; simpl; [|done].
    destruct Hrec as (Hvis2 & rs2 & Hroutes2 & Hrs2).
    { simpl. rewrite Hroute, Hvis.
      apply path_to_snoc with (j := j); [done| |done]. by rewrite <- Hvis. }
    unfold visited_remove. rewrite Hvis2. simpl.
    rewrite bool_decide_eq_true_2 by apply elem_of_visited_add. simpl.
    split; [rewrite <- Hvis; by apply visited_add_remove|].
    split.
    + exists (rs ++ rs2). split; [|by apply Forall_app].
      simpl in Hroutes2. by rewrite Hroutes2, Hroutes, app_assoc.
    + left. exists next, next_j. split; [|split; [done|by rewrite <- Hvis]].
      apply elem_of_app. right. apply elem_of_cons. by left.
  - simpl. unfold route_pop. destruct (current_route st2); simpl; [done|].
    split; [done|]. exact Hrs.
Qed.

Lemma startswith_x_0 (label : string) (i j : Z) :
  startswith label "x_0_" = true → label_indices label = Ok (i, j) → i = 0.
Proof.
  unfold startswith. rewrite prefix_correct.
  destruct label as [|a1 [|a2 [|a3 [|a4 rest]]]]; simpl; try discriminate.
  intros Hpre.
  assert (a1 = "x"%char ∧ a2 = "_"%char ∧ a3 = "0"%char ∧ a4 = "_"%char)
    as (-> & -> & -> & ->).
  { destruct rest; by injection Hpre as -> -> -> ->. }
  clear Hpre. unfold label_indices. simpl.
  destruct (split "_" rest) as [|b [|c l]]; try discriminate.
  destruct (Py.int b); simpl; [|discriminate]. by intros [= <- _].
Qed.

(** On an arc set without branching whose labels all have the form
    [x_i_j], [find_and_print_routes] returns routes only: paths from the
    start depot to the end depot without a repeated arc. *)
Lemma routes_without_branching (sequence : list string) (end_node_idx : Z) :
  no_branching sequence →
  (∀ label, label ∈ sequence → ∃ arc, label_indices label = Ok arc) →
  ∃ routes, find_and_print_routes sequence end_node_idx = Ok routes
    ∧ Forall (is_route end_node_idx) routes.
Proof.
  intros Hnb Hlabels.
  destruct (find_and_print_routes_total sequence end_node_idx Hlabels)
    as [routes Hroutes].
  exists routes. split; [done|].
  revert Hroutes. unfold find_and_print_routes.
  match goal with
  | |- context [for_each ?l ?body ?s] =>
      pose proof (for_each_partial
        (λ s1, visited s1 = ∅ ∧ Forall (is_route end_node_idx) (Utility.routes s1))
        (λ _, True) l body s) as Hloop;
      destruct (for_each l body s) as [st|e]; [|done]
  end.
  simpl. intros [= <-]. apply Hloop; [done|]. clear Hloop st.
  intros start s1 Hstart [Hvis Hrs].
  destruct (startswith start "x_0_") eqn:Hprefix; simpl; [|done].
  case_bool_decide as Hseen; simpl; [|done].
  destruct (Hlabels start Hstart) as [[i j] Hlabel].
  pose proof (startswith_x_0 start i j Hprefix Hlabel) as ->.
  pose proof (find_route_routes sequence end_node_idx (length sequence) start
    (set_current_route (visited_add start s1) []) 0 j Hnb Hstart Hlabel)
    as Hrec.
  destruct (find_route _ _ _ _ _) as [s2|e]; simpl; [|done].
  destruct Hrec as (Hvis2 & rs & Hroutes2 & Hrs2).
  { exists [(0, j)]. simpl. split; [by repeat constructor|].
    split; [done|]. split; [done|]. split; [done|].
    split; [apply NoDup_singleton|].
    intros label ->%list_elem_of_singleton. apply elem_of_visited_add. }
  unfold visited_remove. rewrite Hvis2. simpl.
  rewrite bool_decide_eq_true_2 by apply elem_of_visited_add. simpl.
  split; [rewrite Hvis; apply visited_add_remove, not_elem_of_empty|].
  simpl in Hroutes2. rewrite Hroutes2. by apply Forall_app.
Qed.

(** The two-vehicle arc set has no branching. *)
Example routes_of_two_vehicles :
  ∃ routes,
    find_and_print_routes ["x_0_1"; "x_1_3"; "x_0_2"; "x_2_3"] 3 = Ok routes
    ∧ Forall (is_route 3) routes.
Proof.
  apply routes_without_branching.
  - split; [apply (bool_decide_unpack _); by vm_compute|]. split.
    + intros a b i ja jb Ha Hb.
      repeat (apply elem_of_cons in Ha as [->|Ha]);
        try (by apply elem_of_nil in Ha);
        repeat (apply elem_of_cons in Hb as [->|Hb]);
        try (by apply elem_of_nil in Hb);
        vm_compute; congruence.
    + intros a i Ha.
      repeat (apply elem_of_cons in Ha as [->|Ha]);
        try (by apply elem_of_nil in Ha); vm_compute; congruence.
  - intros label Hl.
    repeat (apply elem_of_cons in Hl as [->|Hl]);
      try (by apply elem_of_nil in Hl); eexists; reflexivity.
Qed.

(** * Further properties *)

(** ** What every reported route has *)

Lemma head_removelast {A : Type} (l : list A) :
  (2 <= length l)%nat → head (removelast l) = head l.
Proof. destruct l as [|x [|y l]]; simpl; [lia..|done]. Qed.

Lemma elem_of_removelast {A : Type} (l : list A) (x : A) :
  x ∈ removelast l → x ∈ l.
Proof.
  induction l as [|y l _] using rev_ind; [done|].
  rewrite removelast_last. intros Hx. apply elem_of_app. by left.
Qed.

Lemma head_snoc {A : Type} (l : list A) (x : A) :
  l ≠ [] → head (l ++ [x]) = head l.
Proof. by destruct l. Qed.

(** The routes that one call of [find_route] adds begin like the current
    route and end with an arc into the end depot. *)
Lemma find_route_ends (sequence : list string) (end_node_idx : Z) (fuel : nat)
    (current_node : string) (st : search_state) :
  current_node ∈ sequence →
  (∀ label, label ∈ current_route st → label ∈ sequence) →
  match find_route fuel sequence end_node_idx current_node st with
  | Ok st' =>
      (length (current_route st) <= length (current_route st'))%nat
      ∧ (∀ label, label ∈ current_route st' → label ∈ sequence)
      ∧ (current_route st ≠ [] →
         head (current_route st') = head (current_route st))
      ∧ ∃ rs, routes st' = routes st ++ rs
          ∧ Forall (λ r,
              head r = head (current_route st ++ [current_node])
              ∧ (∃ final i, last r = Some final
                            ∧ label_indices final = Ok (i, end_node_idx))
              ∧ ∀ label, label ∈ r → label ∈ sequence) rs
  | Raise _ => True
  end.
Proof.
  revert current_node st.
  induction fuel as [|fuel IH]; intros current_node st Hcur Hsub; [done|].
  simpl.
  destruct (label_indices current_node) as [[i j]|e] eqn:Hlabel; simpl;
    [|done].
  assert (∀ label, label ∈ current_route st ++ [current_node] →
            label ∈ sequence) as Hsub'.
  { intros label [Hl| ->%list_elem_of_singleton]%elem_of_app; auto. }
  case_bool_decide as Hend; simpl.
  { split; [rewrite length_app; lia|]. split; [done|].
    split; [intros Hne; by apply head_snoc|].
    exists [current_route st ++ [current_node]]. split; [done|].
    apply Forall_singleton. split; [done|]. split; [|done].
    exists current_node, i. rewrite last_snoc. by subst j. }
  match goal with
  | |- context [for_each ?l ?body ?s] =>
      assert (match for_each l body s with
              | Ok s1 =>
                  (S (length (current_route st))
                   <= length (current_route s1))%nat
                  ∧ (∀ label, label ∈ current_route s1 → label ∈ sequence)
                  ∧ head (current_route s1)
                    = head (current_route st ++ [current_node])
                  ∧ ∃ rs, routes s1 = routes st ++ rs
                      ∧ Forall (λ r,
                          head r = head (current_route st ++ [current_node])
                          ∧ (∃ final i, last r = Some final
                               ∧ label_indices final = Ok (i, end_node_idx))
                          ∧ ∀ label, label ∈ r → label ∈ sequence) rs
              | Raise _ => True
              end) as Hloop;
      [apply for_each_partial|destruct (for_each l body s) as [st2|e]]
  end.
  - simpl. split; [rewrite length_app; simpl; lia|]. split; [done|].
    split; [done|]. exists []. by rewrite app_nil_r.
  - intros next s1 Hnext (Hlen & Hsub1 & Hhead & rs & Hroutes & Hrs).
    case_bool_decide as Hseen; [by eauto 10|].
    destruct (label_indices next) as [[next_i next_j]|e] eqn:Hnextl; simpl;
      [|done].
    case_bool_decide as Hcont; simpl; [|by eauto 10].
    pose proof (IH next (visited_add next s1) Hnext Hsub1) as Hrec.
    destruct (find_route fuel sequence end_node_idx next (visited_add next s1))
      as [s2|e]; simpl; [|done].
    destruct Hrec as (Hlen2 & Hsub2 & Hhead2 & rs2 & Hroutes2 & Hrs2).
    simpl in *.
    assert (current_route s1 ≠ []) as Hne by (intros Heq; rewrite Heq in Hlen;
      simpl in Hlen; lia).
    unfold visited_remove. destruct (bool_decide _); simpl; [|done].
    split; [lia|]. split; [done|].
    split; [by rewrite Hhead2|].
    exists (rs ++ rs2). split; [by rewrite Hroutes2, Hroutes, app_assoc|].
    apply Forall_app. split; [done|].
    eapply Forall_impl; [exact Hrs2|]. intros r (Hr1 & Hr2 & Hr3).
    split; [|done]. by rewrite Hr1, head_snoc, Hhead.
  - simpl. destruct Hloop as (Hlen & Hsub2 & Hhead & Hrs).
    unfold route_pop.
    destruct (current_route st2) as [|x l] eqn:Hroute; [simpl in Hlen; lia|].
    cbn -[removelast].
    assert (current_route st ≠ [] → 2 <= length (x :: l))%nat as Hlen2.
    { destruct (current_route st); [done|]. simpl in *. lia. }
    split; [rewrite length_removelast; simpl in *; lia|].
    split; [intros label Hl; by apply Hsub2, elem_of_removelast|].
    split; [|done]. intros Hne.
    rewrite head_removelast, Hhead, head_snoc by auto. done.
  - done.
Qed.

(** Every route that [find_and_print_routes] reports begins with a start
    arc, ends with an arc into the end depot, and consists of labels of
    the given sequence. *)
Lemma find_and_print_routes_ends (sequence : list string) (end_node_idx : Z)
    (reported : list (list string)) :
  find_and_print_routes sequence end_node_idx = Ok reported →
  Forall (route_ends sequence end_node_idx) reported.
Proof.
  unfold find_and_print_routes.
  match goal with
  | |- context [for_each ?l ?body ?s] =>
      pose proof (for_each_partial
        (λ s1, Forall (route_ends sequence end_node_idx) (routes s1))
        (λ _, True) l body s) as Hloop;
      destruct (for_each l body s) as [st|e]; [|done]
  end.
  simpl. intros [= <-]. apply Hloop; [done|]. clear Hloop st.
  intros start s1 Hstart Hrs.
  destruct (startswith start "x_0_") eqn:Hprefix; simpl; [|done].
  case_bool_decide as Hseen; simpl; [|done].
  pose proof (find_route_ends sequence end_node_idx (length sequence) start
    (set_current_route (visited_add start s1) []) Hstart) as Hrec.
  destruct (length sequence) as [|fuel] eqn:Hfuel; [done|].
  simpl in *.
  destruct (label_indices start) as [[i j]|e] eqn:Hlabel; simpl in *; [|done].
  pose proof (startswith_x_0 start i j Hprefix Hlabel) as ->.
  match goal with
  | |- context [if ?b then ?x else ?y] => destruct (if b then x else y) as [s2|e]
  end; simpl; [|done].
  destruct Hrec as (_ & _ & _ & rs & Hroutes & Hrs2).
  { intros label Hl. by apply elem_of_nil in Hl. }
  unfold visited_remove. destruct (bool_decide _); simpl; [|done].
  rewrite Hroutes. apply Forall_app. split; [done|].
  eapply Forall_impl; [exact Hrs2|]. intros r (Hr1 & (final & k & Hr2 & Hr3) & Hr4).
  by exists start, j, final, k.
Qed.

(** X1. [find_and_print_routes] has two outcomes. It raises [ValueError],
    and then some label of the sequence is not of the form [x_i_j]; or it
    returns, and then every reported route begins with a start arc (a
    label with the prefix [x_0_], origin 0), ends with an arc into the end
    depot, and consists of labels of the sequence. *)
Theorem find_and_print_routes_outcome (sequence : list string)
    (end_node_idx : Z) :
  match find_and_print_routes sequence end_node_idx with
  | Ok reported => Forall (route_ends sequence end_node_idx) reported
  | Raise e => label_error sequence e
  end.
Proof.
  pose proof (find_and_print_routes_safe sequence end_node_idx) as Hsafe.
  pose proof (find_and_print_routes_ends sequence end_node_idx) as Hends.
  destruct (find_and_print_routes sequence end_node_idx); auto.
Qed.


Lemma for_each_skip {X S : Type} (l : list X) (body : X → S → result S) s :
  (∀ x, x ∈ l → body x s = Ok s) → for_each l body s = Ok s.
Proof.
  induction l as [|x l IH]; intros Hbody; simpl; [done|].
  rewrite Hbody by (apply elem_of_cons; by left).
  apply IH. intros y Hy. apply Hbody, elem_of_cons. by right.
Qed.

(** X2. Without a label that begins with [x_0_] no route is reported and
    no label is parsed, so labels of any other form go unnoticed. *)
Theorem no_start_arc_no_routes (sequence : list string) (end_node_idx : Z) :
  (∀ label, label ∈ sequence → startswith label "x_0_" = false) →
  find_and_print_routes sequence end_node_idx = Ok [].
Proof.
  intros Hnone. unfold find_and_print_routes.
  rewrite for_each_skip; [done|].
  intros label Hlabel. by rewrite Hnone.
Qed.

Lemma no_start_arc_no_routes_witness :
  find_and_print_routes ["x_1_2"; "x_2_3"; "route"] 3 = Ok [].
Proof.
  apply no_start_arc_no_routes. intros label Hlabel.
  repeat (apply elem_of_cons in Hlabel as [->|Hlabel]; [reflexivity|]).
  by apply elem_of_nil in Hlabel.
Defined.

(** ** Route reconstruction without branching before the end depot *)

Lemma no_branching_weaken (sequence : list string) (end_node_idx : Z) :
  no_branching sequence → no_branching_before end_node_idx sequence.
Proof.
  intros (Hnd & Hone & Hzero). split; [done|]. split; [|done].
  intros a b i ja jb Ha Hb Hla Hlb Hi _. by eapply Hone.
Qed.

(** On an arc set without branching before the end depot every route
    that [find_route] adds is a route. *)
Lemma find_route_routes_before (sequence : list string) (end_node_idx : Z)
    (fuel : nat) (current_node : string) (st : search_state) (i j : Z) :
  no_branching_before end_node_idx sequence →
  current_node ∈ sequence →
  label_indices current_node = Ok (i, j) →
  path_to (current_route st ++ [current_node]) j (visited st) →
  match find_route fuel sequence end_node_idx current_node st with
  | Ok st' =>
      visited st' = visited st
      ∧ ∃ rs, routes st' = routes st ++ rs ∧ Forall (is_route end_node_idx) rs
  | Raise _ => True
  end.
Proof.
  intros (Hnd & Hone & Hzero).
  revert current_node st i j.
  induction fuel as [|fuel IH]; intros current_node st i j Hcur Hlabel Hpath;
    [done|].
  simpl. rewrite Hlabel. simpl.
  case_bool_decide as Hend; simpl.
  { split; [done|]. exists [current_route st ++ [current_node]].
    split; [done|]. apply Forall_singleton. subst j.
    by eapply path_to_is_route. }
  assert (j ≠ 0) as Hj by (intros ->; by eapply Hzero).
  match goal with
  | |- context [for_each ?l ?body ?s] =>
      pose proof (for_each_partial_inv
        (λ done s1,
           visited s1 = visited st
           ∧ (∃ rs, routes s1 = routes st ++ rs
                    ∧ Forall (is_route end_node_idx) rs)
           ∧ ((∃ c k, c ∈ done ∧ label_indices c = Ok (j, k)
                      ∧ c ∉ visited st)
              ∨ current_route s1 = current_route st ++ [current_node]))
        l body s) as Hloop;
      destruct (for_each l body s) as [st2|e]; [|done]
  end.
  destruct Hloop as (Hvis & Hrs & _).
  - split; [done|]. split; [|by right]. exists []. by rewrite app_nil_r.
  - intros done next rest s1 Hsplit (Hvis & (rs & Hroutes & Hrs) & Hchild).
    assert (next ∈ sequence) as Hnext.
    { rewrite Hsplit. apply elem_of_app. right. apply elem_of_cons. by left. }
    assert (next ∉ done) as Hfresh.
    { rewrite Hsplit in Hnd. apply NoDup_app in Hnd as (_ & Hnd & _).
      intros Hin. apply (Hnd next Hin). apply elem_of_cons. by left. }
    assert (∀ c, c ∈ done → c ∈ sequence) as Hdone.
    { intros c Hc. rewrite Hsplit. apply elem_of_app. by left. }
    case_bool_decide as Hseen.
    { split; [done|]. split; [by exists rs|].
      destruct Hchild as [(c & k & Hc & Hck & Hcv)|Hroute]; [left|by right].
      exists c, k. split; [|done]. apply elem_of_app. by left. }
    destruct (label_indices next) as [[next_i next_j]|e] eqn:Hnextl; simpl;
      [|done].
    case_bool_decide as Hcont; simpl.
    2:{ split; [done|]. split; [by exists rs|].
        destruct Hchild as [(c & k & Hc & Hck & Hcv)|Hroute]; [left|by right].
        exists c, k. split; [|done]. apply elem_of_app. by left. }
    subst next_i.
    destruct Hchild as [(c & k & Hc & Hck & Hcv)|Hroute].
    { exfalso. apply Hfresh.
      by rewrite <- (Hone c next j k next_j (Hdone c Hc) Hnext Hck Hnextl Hj
                       Hend). }
    pose proof (IH next (visited_add next s1) j next_j Hnext Hnextl) as Hrec.
    destruct (find_route fuel sequence end_node_idx next (visited_add next s1))
      as [s2|e]; simpl; [|done].
    destruct Hrec as (Hvis2 & rs2 & Hroutes2 & Hrs2).
    { simpl. rewrite Hroute, Hvis.
      apply path_to_snoc with (j := j); [done| |done]. by rewrite <- Hvis. }
    unfold visited_remove. rewrite Hvis2. simpl.
    rewrite bool_decide_eq_true_2 by apply elem_of_visited_add. simpl.
    split; [rewrite <- Hvis; by apply visited_add_remove|].
    split.
    + exists (rs ++ rs2). split; [|by apply Forall_app].
      simpl in Hroutes2. by rewrite Hroutes2, Hroutes, app_assoc.
    + left. exists next, next_j. split; [|split; [done|by rewrite <- Hvis]].
      apply elem_of_app. right. apply elem_of_cons. by left.
  - simpl. unfold route_pop. destruct (current_route st2); simpl; [done|].
    split; [done|]. exact Hrs.
Qed.

(** On an arc set without branching before the end depot whose labels all have the form
    [x_i_j], [find_and_print_routes] returns routes only: paths from the
    start depot to the end depot without a repeated arc. *)
Lemma routes_without_branching_before (sequence : list string) (end_node_idx : Z) :
  no_branching_before end_node_idx sequence →
  (∀ label, label ∈ sequence → ∃ arc, label_indices label = Ok arc) →
  ∃ routes, find_and_print_routes sequence end_node_idx = Ok routes
    ∧ Forall (is_route end_node_idx) routes.
Proof.
  intros Hnb Hlabels.
  destruct (find_and_print_routes_total sequence end_node_idx Hlabels)
    as [routes Hroutes].
  exists routes. split; [done|].
  revert Hroutes. unfold find_and_print_routes.
  match goal with
  | |- context [for_each ?l ?body ?s] =>
      pose proof (for_each_partial
        (λ s1, visited s1 = ∅ ∧ Forall (is_route end_node_idx) (Utility.routes s1))
        (λ _, True) l body s) as Hloop;
      destruct (for_each l body s) as [st|e]; [|done]
  end.
  simpl. intros [= <-]. apply Hloop; [done|]. clear Hloop st.
  intros start s1 Hstart [Hvis Hrs].
  destruct (startswith start "x_0_") eqn:Hprefix; simpl; [|done].
  case_bool_decide as Hseen; simpl; [|done].
  destruct (Hlabels start Hstart) as [[i j] Hlabel].
  pose proof (startswith_x_0 start i j Hprefix Hlabel) as ->.
  pose proof (find_route_routes_before sequence end_node_idx (length sequence) start
    (set_current_route (visited_add start s1) []) 0 j Hnb Hstart Hlabel)
    as Hrec.
  destruct (find_route _ _ _ _ _) as [s2|e]; simpl; [|done].
  destruct Hrec as (Hvis2 & rs & Hroutes2 & Hrs2).
  { exists [(0, j)]. simpl. split; [by repeat constructor|].
    split; [done|]. split; [done|]. split; [done|].
    split; [apply NoDup_singleton|].
    intros label ->%list_elem_of_singleton. apply elem_of_visited_add. }
  unfold visited_remove. rewrite Hvis2. simpl.
  rewrite bool_decide_eq_true_2 by apply elem_of_visited_add. simpl.
  split; [rewrite Hvis; apply visited_add_remove, not_elem_of_empty|].
  simpl in Hroutes2. rewrite Hroutes2. by apply Forall_app.
Qed.


(** X3. On a sequence of labels of the form [x_i_j] without branching
    before the end depot (no label twice, at most one arc out of every
    node but the two depots, no arc into the start depot)
    [find_and_print_routes] returns, and every reported route is a route:
    a path from the start depot to the end depot without a repeated
    arc. *)
Theorem branch_free_arcs_give_routes (sequence : list string)
    (end_node_idx : Z) :
  no_branching_before end_node_idx sequence →
  (∀ label, label ∈ sequence → ∃ arc, label_indices label = Ok arc) →
  ∃ routes, find_and_print_routes sequence end_node_idx = Ok routes
    ∧ Forall (is_route end_node_idx) routes.
Proof. apply routes_without_branching_before. Qed.

Lemma branch_free_arcs_give_routes_witness :
  ∃ routes,
    find_and_print_routes ["x_0_1"; "x_1_3"; "x_0_2"; "x_2_3"] 3 = Ok routes
    ∧ Forall (is_route 3) routes.
Proof.
  apply branch_free_arcs_give_routes.
  - split; [apply (bool_decide_unpack _); by vm_compute|]. split.
    + intros a b i ja jb Ha Hb.
      repeat (apply elem_of_cons in Ha as [->|Ha]);
        try (by apply elem_of_nil in Ha);
        repeat (apply elem_of_cons in Hb as [->|Hb]);
        try (by apply elem_of_nil in Hb);
        vm_compute; congruence.
    + intros a i Ha.
      repeat (apply elem_of_cons in Ha as [->|Ha]);
        try (by apply elem_of_nil in Ha); vm_compute; congruence.
  - intros label Hl.
    repeat (apply elem_of_cons in Hl as [->|Hl]);
      try (by apply elem_of_nil in Hl); eexists; reflexivity.
Defined.

(** ** Labels: written by the formulator, read by the reconstructor *)

Lemma pretty_N_char_digit (d : N) :
  (d < 10)%N → digit_val (pretty_N_char d) = Some (Z.of_N d).
Proof.
  intros Hd.
  assert (d = 0 ∨ d = 1 ∨ d = 2 ∨ d = 3 ∨ d = 4 ∨ d = 5 ∨ d = 6 ∨ d = 7
          ∨ d = 8 ∨ d = 9)%N as Hcases by lia.
  repeat (destruct Hcases as [->|Hcases]; [reflexivity|]). by subst.
Qed.

Lemma pretty_N_char_cases (d : N) :
  pretty_N_char d ∈ ["0"; "1"; "2"; "3"; "4"; "5"; "6"; "7"; "8"; "9"]%char.
Proof.
  unfold pretty_N_char.
  repeat (case_match; [by repeat constructor|]);
    repeat case_match; by repeat constructor.
Qed.

(** Reading the digits that [pretty_N_go] writes in front of [s]. *)
Lemma read_digits_pretty_N_go (x : N) (s : string) :
  (0 < x)%N →
  ∃ k : Z, (0 <= k)%Z ∧ ∀ seen acc,
    read_digits seen acc (pretty_N_go x s)
    = read_digits true (acc * 10 ^ k + Z.of_N x) s.
Proof.
  revert s. induction (N.lt_wf_0 x) as [x _ IH]; intros s Hx.
  rewrite pretty_N_go_step by done.
  assert (x `mod` 10 < 10)%N as Hmod by (by apply N.mod_lt).
  pose proof (N.div_mod x 10) as Hdiv.
  destruct (decide (x `div` 10 = 0)%N) as [Hz|Hnz].
  - rewrite Hz, pretty_N_go_0. exists 1. split; [lia|]. intros seen acc.
    simpl. rewrite pretty_N_char_digit by done. f_equal. lia.
  - destruct (IH (x `div` 10)%N) with
      (s := String (pretty_N_char (x `mod` 10)) s) as (k & Hk & Hread).
    { apply N.div_lt; lia. }
    { lia. }
    exists (k + 1). split; [lia|]. intros seen acc. rewrite Hread. simpl.
    rewrite pretty_N_char_digit by done. f_equal.
    rewrite Z.pow_add_r by lia. lia.
Qed.

(** [pretty_N_go] starts with a digit. *)
Lemma pretty_N_go_head (x : N) (s : string) :
  (0 < x)%N →
  ∃ d rest, pretty_N_go x s = String (pretty_N_char d) rest.
Proof.
  revert s. induction (N.lt_wf_0 x) as [x _ IH]; intros s Hx.
  rewrite pretty_N_go_step by done.
  destruct (decide (x `div` 10 = 0)%N) as [Hz|Hnz].
  - rewrite Hz, pretty_N_go_0. eauto.
  - apply IH; [by apply N.div_lt|by apply N.neq_0_lt_0].
Qed.

Lemma pretty_N_go_no_underscore (x : N) (s : string) :
  no_underscore s = true → no_underscore (pretty_N_go x s) = true.
Proof.
  revert s. induction (N.lt_wf_0 x) as [x _ IH]; intros s Hs.
  destruct (decide (0 < x)%N) as [Hx|Hx].
  - rewrite pretty_N_go_step by done. apply IH; [apply N.div_lt; lia|].
    simpl. rewrite Hs, andb_true_r.
    pose proof (pretty_N_char_cases (x `mod` 10)) as Hc.
    repeat (apply elem_of_cons in Hc as [->|Hc]; [done|]).
    by apply elem_of_nil in Hc.
  - replace x with 0%N by lia. by rewrite pretty_N_go_0.
Qed.

Lemma int_digit_first (d : N) (rest : string) :
  Py.int (String (pretty_N_char d) rest)
  = match read_digits false 0 (String (pretty_N_char d) rest) with
    | Some z => Ok z
    | None => Raise ValueError
    end.
Proof.
  pose proof (pretty_N_char_cases d) as Hc.
  repeat (apply elem_of_cons in Hc as [->|Hc]; [reflexivity|]).
  by apply elem_of_nil in Hc.
Qed.

(** [int(str(n))] for a positive [n], and for its opposite. *)
Lemma int_pretty_pos (p : positive) :
  Py.int (pretty (Z.pos p)) = Ok (Z.pos p)
  ∧ Py.int ("-" +:+ pretty (Z.pos p)) = Ok (Z.neg p).
Proof.
  change (pretty (Z.pos p)) with (pretty_N_go (N.pos p) "").
  destruct (pretty_N_go_head (N.pos p) "") as (d & rest & Hhead); [lia|].
  destruct (read_digits_pretty_N_go (N.pos p) "") as (k & Hk & Hread); [lia|].
  assert (read_digits false 0 (pretty_N_go (N.pos p) "") = Some (Z.pos p))
    as Hread0.
  { rewrite Hread. simpl. f_equal. }
  split.
  - rewrite Hhead, int_digit_first, <- Hhead, Hread0. done.
  - unfold Py.int.
    change (lstrip ("-" +:+ pretty_N_go (N.pos p) ""))
      with (String "-" (pretty_N_go (N.pos p) "")).
    cbv iota beta. rewrite Hread0. reflexivity.
Qed.

(** [int(str(n)) = n] for every int. *)
Lemma int_pretty (z : Z) : Py.int (pretty z) = Ok z.
Proof.
  destruct z as [|p|p]; [reflexivity|apply int_pretty_pos..].
Qed.

Lemma pretty_Z_no_underscore (z : Z) : no_underscore (pretty z) = true.
Proof.
  destruct z as [|p|p]; [reflexivity|..].
  - by apply (pretty_N_go_no_underscore (N.pos p) "").
  - change (pretty (Z.neg p)) with (String "-" (pretty_N_go (N.pos p) "")).
    simpl. by apply (pretty_N_go_no_underscore (N.pos p) "").
Qed.

Lemma split_no_underscore (s : string) :
  no_underscore s = true → split "_" s = [s].
Proof.
  induction s as [|a s IH]; [done|]. simpl.
  intros [Ha Hs]%andb_true_iff. apply negb_true_iff in Ha.
  rewrite Ha, IH by done. done.
Qed.

Lemma split_append (s1 s2 : string) :
  no_underscore s1 = true →
  split "_" (s1 +:+ String "_" s2) = s1 :: split "_" s2.
Proof.
  induction s1 as [|a s1 IH]; [done|]. simpl.
  intros [Ha Hs]%andb_true_iff. apply negb_true_iff in Ha.
  rewrite Ha, IH by done. done.
Qed.

(** The label that the formulator writes for the arc [(i, j)] is read
    back as [(i, j)]. *)
Lemma label_indices_x_name (i j : Z) : label_indices (x_name i j) = Ok (i, j).
Proof.
  unfold label_indices, x_name, slice_from_1.
  change ("x_" +:+ pretty i +:+ "_" +:+ pretty j)
    with ("x" +:+ String "_" (pretty i +:+ String "_" (pretty j))).
  rewrite split_append by done.
  rewrite split_append by apply pretty_Z_no_underscore.
  rewrite split_no_underscore by apply pretty_Z_no_underscore.
  simpl. by rewrite !int_pretty.
Qed.

Lemma x_name_inj (i j i' j' : Z) : x_name i j = x_name i' j' → i = i' ∧ j = j'.
Proof.
  intros Heq. pose proof (label_indices_x_name i j) as H1.
  rewrite Heq, label_indices_x_name in H1. by injection H1 as -> ->.
Qed.

(** X4. The label [x_i_j] that the formulator writes for an arc is read
    back by the reconstructor as the pair [(i, j)], for all ints, so
    distinct arcs have distinct labels. *)
Theorem label_round_trip (i j : Z) :
  label_indices (x_name i j) = Ok (i, j)
  ∧ ∀ i' j', x_name i j = x_name i' j' ↔ i = i' ∧ j = j'.
Proof.
  split; [apply label_indices_x_name|]. intros i' j'. split.
  - apply x_name_inj.
  - by intros [-> ->].
Qed.

(** ** The graph: distances, depots and station replicas *)
Section graph_distances.
Local Open Scope R_scope.

Lemma euclidean_distance_dist_euc (p q : R * R) :
  euclidean_distance p q = dist_euc q.1 q.2 p.1 p.2.
Proof. unfold euclidean_distance, dist_euc, Rsqr. f_equal. ring. Qed.

(** X5. [euclidean_distance] is a metric on positions: it is not
    negative, symmetric, zero exactly between equal positions, and it
    satisfies the triangle inequality. *)
Theorem euclidean_distance_metric (p q r : R * R) :
  0 <= euclidean_distance p q
  ∧ euclidean_distance p q = euclidean_distance q p
  ∧ (euclidean_distance p q = 0 ↔ p = q)
  ∧ euclidean_distance p r <= euclidean_distance p q + euclidean_distance q r.
Proof.
  split; [apply sqrt_pos|]. split; [apply euclidean_distance_sym|]. split.
  - split; [|intros ->; apply euclidean_distance_refl].
    rewrite euclidean_distance_dist_euc. unfold dist_euc. intros H0.
    apply sqrt_eq_0 in H0; [|apply Rplus_le_le_0_compat; apply Rle_0_sqr].
    apply Rplus_sqr_eq_0 in H0 as [H1 H2].
    destruct p as [p1 p2], q as [q1 q2]. simpl in *. f_equal; lra.
  - rewrite !euclidean_distance_dist_euc.
    rewrite (Rplus_comm (dist_euc q.1 q.2 p.1 p.2)). apply triangle.
Qed.

(** X6. Every entry of the distance matrix is the Euclidean distance
    between the positions of the two nodes, and [generate_distance_matrix]
    raises nothing. *)
Theorem distance_matrix_entries (Nodes : list Node) (i j : Z) (ni nj : Node) :
  (0 <= i)%Z → (0 <= j)%Z →
  Nodes !! Z.to_nat i = Some ni →
  Nodes !! Z.to_nat j = Some nj →
  ∃ dm, generate_distance_matrix Nodes = Ok dm
    ∧ mat_get dm i j = Ok (euclidean_distance (Position ni) (Position nj)).
Proof.
  intros Hi Hj Hni Hnj.
  destruct (generate_distance_matrix_entry Nodes) as (dm & Hdm & _ & Hentry).
  exists dm. split; [done|]. apply mat_get_entry; [done..|].
  rewrite Hentry by (eapply lookup_lt_Some; done).
  unfold dist. by rewrite Hni, Hnj.
Qed.

Lemma distance_matrix_entries_witness :
  ∃ dm, generate_distance_matrix [example_depot; example_customer_1] = Ok dm
    ∧ mat_get dm 0 1 = Ok (euclidean_distance (40, 50) (20, 55)).
Proof.
  apply (distance_matrix_entries [example_depot; example_customer_1] 0 1
           example_depot example_customer_1); (lia || reflexivity).
Defined.

End graph_distances.

Section graph_layout.
Local Open Scope R_scope.

Lemma lookup_list_mul {A : Type} (l : list A) (Rf : Z) (r k : nat) :
  (r < Z.to_nat Rf)%nat → (k < length l)%nat →
  list_mul l Rf !! (r * length l + k)%nat = l !! k.
Proof.
  unfold list_mul. generalize (Z.to_nat Rf) as n. intros n. revert n.
  induction r as [|r IH]; intros [|n] Hr Hk; try lia; simpl.
  - by apply lookup_app_l.
  - rewrite lookup_app_r by lia.
    replace (length l + r * length l + k - length l)%nat
      with (r * length l + k)%nat by lia.
    apply IH; lia.
Qed.

Lemma mat_get_distance g (i j : Z) ni nj :
  built_graph g → node_at g i ni → node_at g j nj →
  mat_get (EVRP_Graph.distance_matrix g) i j
  = Ok (euclidean_distance (Position ni) (Position nj)).
Proof.
  intros Hg [Hi Hni] [Hj Hnj].
  destruct (built_graph_facts g Hg) as (_ & _ & _ & _ & He & _).
  apply mat_get_entry; [done..|].
  rewrite He by (eapply lookup_lt_Some; done).
  unfold dist. by rewrite Hni, Hnj.
Qed.

Lemma mat_get_travel_time g (i j : Z) ni nj :
  built_graph g → node_at g i ni → node_at g j nj →
  mat_get (travel_time_matrix g) i j
  = Ok (euclidean_distance (Position ni) (Position nj) / v g).
Proof.
  intros Hg [Hi Hni] [Hj Hnj].
  destruct (built_graph_facts g Hg) as (_ & _ & _ & _ & He & -> & _).
  apply mat_get_entry; [done..|].
  unfold mat_div. rewrite (entry_fmap (λ x, x / v g)).
  rewrite He by (eapply lookup_lt_Some; done).
  simpl. unfold dist. by rewrite Hni, Hnj.
Qed.

(** X7. On a constructed graph the travel time between two nodes is the
    Euclidean distance between their positions divided by the parameter
    [v], and the distance matrix holds that distance. *)
Theorem travel_time_entries (first : Node) (more Cn Sn : list Node)
    (params : gmap string R) (Rf : Z) :
  has_parameters params = true →
  ∃ g, Graph_EVRP_TW (first :: more) Cn Sn params Rf = Ok g
    ∧ params !! "v" = Some (v g)
    ∧ ∀ i j ni nj, node_at g i ni → node_at g j nj →
        mat_get (EVRP_Graph.distance_matrix g) i j
        = Ok (euclidean_distance (Position ni) (Position nj))
        ∧ mat_get (travel_time_matrix g) i j
          = Ok (euclidean_distance (Position ni) (Position nj) / v g).
Proof.
  intros Hparams.
  destruct (Graph_EVRP_TW_total (first :: more) Cn Sn params Rf Hparams)
    as [g Hgr].
  assert (built_graph g) as Hg by (by exists (first :: more), Cn, Sn, params, Rf).
  exists g. split; [done|].
  split; [by apply (Graph_EVRP_TW_inv _ _ _ _ _ _ Hgr)|].
  intros i j ni nj Hni Hnj. split.
  - by apply mat_get_distance.
  - by apply mat_get_travel_time.
Qed.

Lemma travel_time_entries_witness :
  ∃ g, Graph_EVRP_TW [example_depot] [example_customer_1] [example_station]
         example_parameters 1 = Ok g
    ∧ example_parameters !! "v" = Some (v g)
    ∧ ∀ i j ni nj, node_at g i ni → node_at g j nj →
        mat_get (EVRP_Graph.distance_matrix g) i j
        = Ok (euclidean_distance (Position ni) (Position nj))
        ∧ mat_get (travel_time_matrix g) i j
          = Ok (euclidean_distance (Position ni) (Position nj) / v g).
Proof.
  apply (travel_time_entries example_depot [] [example_customer_1]
           [example_station] example_parameters 1).
  reflexivity.
Defined.

Lemma node_at_first g (first : Node) (rest : list Node) :
  Nodes g = first :: rest → node_at g 0 first.
Proof. intros HN. split; [done|]. by rewrite HN. Qed.

Lemma node_at_last g (front : list Node) (final : Node) :
  Nodes g = front ++ [final] → node_at g (end_depot g) final.
Proof.
  intros HN. unfold node_at, end_depot, len. rewrite HN, length_app. simpl.
  split; [lia|].
  replace (Z.to_nat (Z.of_nat (length front + 1) - 1)) with (length front) by lia.
  by rewrite list_lookup_middle.
Qed.

(** X8. The start depot (index 0) is the first depot node given and the
    end depot (the last index) the last one. With a single depot node
    both are that node: their distance is zero, and both have the same
    distance to every node. *)
Theorem depot_at_both_ends (first : Node) (more Cn Sn : list Node)
    (params : gmap string R) (Rf : Z) :
  has_parameters params = true →
  ∃ g, Graph_EVRP_TW (first :: more) Cn Sn params Rf = Ok g
    ∧ node_at g 0 first
    ∧ node_at g (end_depot g) (List.last more first)
    ∧ (more = [] →
       mat_get (EVRP_Graph.distance_matrix g) 0 (end_depot g) = Ok 0
       ∧ ∀ j nj, node_at g j nj →
           mat_get (EVRP_Graph.distance_matrix g) 0 j
           = mat_get (EVRP_Graph.distance_matrix g) (end_depot g) j).
Proof.
  intros Hparams.
  destruct (Graph_EVRP_TW_total (first :: more) Cn Sn params Rf Hparams)
    as [g Hgr].
  assert (built_graph g) as Hg by (by exists (first :: more), Cn, Sn, params, Rf).
  destruct (Graph_EVRP_TW_inv _ _ _ _ _ _ Hgr) as (HN & _).
  assert (node_at g 0 first) as H0 by (by eapply node_at_first).
  assert (node_at g (end_depot g) (List.last more first)) as Hend.
  { apply (node_at_last g
      ((first :: more) ++ Cn ++ list_mul Sn Rf ++ removelast (first :: more))).
    rewrite HN, <- !app_assoc. do 3 f_equal.
    replace (List.last more first) with (List.last (first :: more) first)
      by (by destruct more).
    by apply app_removelast_last. }
  exists g. split; [done|]. split; [done|]. split; [done|].
  intros ->. simpl in Hend. split.
  - rewrite (mat_get_distance g _ _ first first) by done.
    by rewrite euclidean_distance_refl.
  - intros j nj Hnj.
    by rewrite (mat_get_distance g 0 j first nj),
      (mat_get_distance g (end_depot g) j first nj).
Qed.

Lemma depot_at_both_ends_witness :
  ∃ g, Graph_EVRP_TW [example_depot] [example_customer_1] [example_station]
         example_parameters 1 = Ok g
    ∧ node_at g 0 example_depot
    ∧ node_at g (end_depot g) example_depot
    ∧ (@nil Node = [] →
       mat_get (EVRP_Graph.distance_matrix g) 0 (end_depot g) = Ok 0
       ∧ ∀ j nj, node_at g j nj →
           mat_get (EVRP_Graph.distance_matrix g) 0 j
           = mat_get (EVRP_Graph.distance_matrix g) (end_depot g) j).
Proof.
  apply (depot_at_both_ends example_depot [] [example_customer_1]
           [example_station] example_parameters 1).
  reflexivity.
Defined.

(** X9. Replica [r] of station [k] is the node at index
    [depots + customers + r * stations + k]; two replicas of one station
    are at distance zero from each other. *)
Theorem station_replicas (first : Node) (more Cn Sn : list Node)
    (params : gmap string R) (Rf r r' k : Z) (station : Node) :
  has_parameters params = true →
  (0 <= r < Rf)%Z → (0 <= r' < Rf)%Z → (0 <= k)%Z →
  Sn !! Z.to_nat k = Some station →
  ∃ g, Graph_EVRP_TW (first :: more) Cn Sn params Rf = Ok g
    ∧ node_at g (replica_index (first :: more) Cn Sn r k) station
    ∧ node_at g (replica_index (first :: more) Cn Sn r' k) station
    ∧ mat_get (EVRP_Graph.distance_matrix g)
        (replica_index (first :: more) Cn Sn r k)
        (replica_index (first :: more) Cn Sn r' k) = Ok 0.
Proof.
  intros Hparams Hr Hr' Hk Hstation.
  set (Dn := first :: more).
  destruct (Graph_EVRP_TW_total Dn Cn Sn params Rf Hparams) as [g Hgr].
  assert (built_graph g) as Hg by (by exists Dn, Cn, Sn, params, Rf).
  destruct (Graph_EVRP_TW_inv _ _ _ _ _ _ Hgr) as (HN & _).
  pose proof (lookup_lt_Some _ _ _ Hstation) as Hlt.
  assert (∀ q, (0 <= q < Rf)%Z → node_at g (replica_index Dn Cn Sn q k) station)
    as Hnode.
  { intros q Hq. unfold node_at, replica_index, len. split; [nia|].
    rewrite HN.
    replace (Z.to_nat (Z.of_nat (length Dn) + Z.of_nat (length Cn)
                       + q * Z.of_nat (length Sn) + k))
      with (length Dn + (length Cn + (Z.to_nat q * length Sn + Z.to_nat k)))%nat
      by nia.
    rewrite lookup_app_r, Nat.add_comm, Nat.add_sub by lia.
    rewrite lookup_app_r, Nat.add_comm, Nat.add_sub by lia.
    rewrite lookup_app_l.
    - rewrite lookup_list_mul by lia. done.
    - apply lookup_lt_is_Some. rewrite lookup_list_mul by lia. eauto. }
  exists g. split; [done|]. split; [by apply Hnode|]. split; [by apply Hnode|].
  rewrite (mat_get_distance g _ _ station station) by auto.
  by rewrite euclidean_distance_refl.
Qed.

Lemma station_replicas_witness :
  ∃ g, Graph_EVRP_TW [example_depot] [example_customer_1; example_customer_2]
         [example_station] example_parameters 2 = Ok g
    ∧ node_at g 3 example_station
    ∧ node_at g 4 example_station
    ∧ mat_get (EVRP_Graph.distance_matrix g) 3 4 = Ok 0.
Proof.
  apply (station_replicas example_depot []
           [example_customer_1; example_customer_2] [example_station]
           example_parameters 2 0 1 0 example_station);
    (reflexivity || lia).
Defined.

(** X10. For every non-empty list of depot nodes the start depot, the
    customer indices, the station indices and the end depot are, in this
    order, the indices [0 .. n-1] of the node sequence, each once. *)
Theorem index_lists_partition (first : Node) (more Cn Sn : list Node)
    (params : gmap string R) (Rf : Z) :
  has_parameters params = true →
  ∃ g, Graph_EVRP_TW (first :: more) Cn Sn params Rf = Ok g
    ∧ Depot_Idx g = [start_depot; end_depot g]
    ∧ start_depot :: Customer_Idx g ++ RS_Idx g ++ [end_depot g]
      = range 0 (len (Nodes g))
    ∧ NoDup (start_depot :: Customer_Idx g ++ RS_Idx g ++ [end_depot g]).
Proof.
  intros Hparams.
  destruct (Graph_EVRP_TW_total (first :: more) Cn Sn params Rf Hparams)
    as [g Hgr].
  assert (built_graph g) as Hg by (by exists (first :: more), Cn, Sn, params, Rf).
  destruct (built_graph_facts g Hg) as (Hn & HD & _).
  assert (start_depot :: Customer_Idx g ++ RS_Idx g ++ [end_depot g]
          = range 0 (len (Nodes g))) as Heq.
  { change (Customer_Idx g ++ RS_Idx g ++ [end_depot g])
      with (valid_successors g).
    rewrite valid_successors_range by done. apply (range_cons 0).
    unfold len. lia. }
  exists g. split; [done|]. split; [done|]. split; [done|].
  rewrite Heq. apply NoDup_range.
Qed.

Lemma index_lists_partition_witness :
  ∃ g, Graph_EVRP_TW [example_depot; example_depot_2] [example_customer_1]
         [example_station] example_parameters 1 = Ok g
    ∧ Depot_Idx g = [start_depot; end_depot g]
    ∧ start_depot :: Customer_Idx g ++ RS_Idx g ++ [end_depot g]
      = range 0 (len (Nodes g))
    ∧ NoDup (start_depot :: Customer_Idx g ++ RS_Idx g ++ [end_depot g]).
Proof.
  apply (index_lists_partition example_depot [example_depot_2]
           [example_customer_1] [example_station] example_parameters 1).
  reflexivity.
Defined.

(** Without one of the five parameters the construction raises
    [KeyError]. *)
Lemma Graph_EVRP_TW_KeyError (Dn Cn Sn : list Node) (params : gmap string R)
    (Rf : Z) :
  has_parameters params = false →
  Graph_EVRP_TW Dn Cn Sn params Rf = Raise KeyError.
Proof.
  unfold Graph_EVRP_TW, getitem, has_parameters.
  destruct (generate_distance_matrix_entry
    (Dn ++ Cn ++ list_mul Sn Rf ++ Dn)) as (dm & -> & _).
  cbn [forallb mbind result_bind].
  destruct (params !! "Q"), (params !! "C"), (params !! "r"), (params !! "g"),
    (params !! "v"); cbn [mbind result_bind];
    repeat case_bool_decide;
    try match goal with H : ¬ is_Some (Some _) |- _ => destruct H; eauto end;
    try match goal with H : is_Some None |- _ => by destruct H end;
    cbn [andb]; done.
Qed.

(** X11. [Graph_EVRP_TW] raises exactly when one of the five parameters
    [Q], [C], [r], [g], [v] is missing from the dictionary, and what it
    raises is [KeyError]. *)
Theorem Graph_EVRP_TW_raises (Dn Cn Sn : list Node) (params : gmap string R)
    (Rf : Z) (e : exn) :
  Graph_EVRP_TW Dn Cn Sn params Rf = Raise e
  ↔ e = KeyError ∧ has_parameters params = false.
Proof.
  destruct (has_parameters params) eqn:Hparams.
  - destruct (Graph_EVRP_TW_total Dn Cn Sn params Rf Hparams) as [g ->].
    split; [done|by intros [_ ?]].
  - rewrite Graph_EVRP_TW_KeyError by done.
    split; [by intros [= <-]|by intros [-> _]].
Qed.

(** X12. A replication factor of zero or less leaves no station in the
    graph: the nodes are the depots, the customers and the depots again,
    and with one depot there is no station index. The default factor 1
    keeps each station once. *)
Theorem stations_by_replication_factor (Dn Cn Sn : list Node)
    (params : gmap string R) (Rf : Z) :
  has_parameters params = true →
  (Rf <= 0)%Z →
  ∃ g g1, Graph_EVRP_TW Dn Cn Sn params Rf = Ok g
    ∧ Nodes g = Dn ++ Cn ++ Dn
    ∧ (length Dn = 1%nat → RS_Idx g = [])
    ∧ Graph_EVRP_TW Dn Cn Sn params RS_dummy_count_default = Ok g1
    ∧ Nodes g1 = Dn ++ Cn ++ Sn ++ Dn.
Proof.
  intros Hparams HRf.
  destruct (Graph_EVRP_TW_total Dn Cn Sn params Rf Hparams) as [g Hgr].
  destruct (Graph_EVRP_TW_total Dn Cn Sn params RS_dummy_count_default Hparams)
    as [g1 Hgr1].
  destruct (Graph_EVRP_TW_inv _ _ _ _ _ _ Hgr) as (HN & _ & _ & HS & _).
  destruct (Graph_EVRP_TW_inv _ _ _ _ _ _ Hgr1) as (HN1 & _).
  rewrite list_mul_negative in HN by done. simpl in HN.
  exists g, g1. split; [done|]. split; [done|]. split; [|split; [done|]].
  - intros HDn. rewrite HS. unfold range, len. rewrite HN, !length_app, HDn.
    replace (Z.to_nat _) with 0%nat by lia. done.
  - rewrite HN1. unfold RS_dummy_count_default, list_mul. simpl.
    by rewrite app_nil_r.
Qed.

Lemma stations_by_replication_factor_witness :
  ∃ g g1, Graph_EVRP_TW [example_depot] [example_customer_1] [example_station]
            example_parameters 0 = Ok g
    ∧ Nodes g = [example_depot] ++ [example_customer_1] ++ [example_depot]
    ∧ (length [example_depot] = 1%nat → RS_Idx g = [])
    ∧ Graph_EVRP_TW [example_depot] [example_customer_1] [example_station]
        example_parameters RS_dummy_count_default = Ok g1
    ∧ Nodes g1 = [example_depot] ++ [example_customer_1] ++ [example_station]
                 ++ [example_depot].
Proof.
  apply (stations_by_replication_factor [example_depot] [example_customer_1]
           [example_station] example_parameters 0); [reflexivity|lia].
Defined.

End graph_layout.

(** ** The formulator: variables, load rows and what the rows mention *)
Section solver_variables.
Local Open Scope R_scope.

Lemma variables_add_nil m : variables_add m [] = m.
Proof. destruct m. unfold variables_add. simpl. by rewrite app_nil_r. Qed.

Lemma variables_add_app m vs1 vs2 :
  variables_add (variables_add m vs1) vs2 = variables_add m (vs1 ++ vs2).
Proof. unfold variables_add. simpl. by rewrite app_assoc. Qed.

(** A loop whose body declares the variables [F x]. *)
Lemma for_each_variables_add {X : Type} (l : list X)
    (body : X → Model → result Model) (F : X → list variable) m :
  (∀ x m, x ∈ l → body x m = Ok (variables_add m (F x))) →
  for_each l body m = Ok (variables_add m (flat_map F l)).
Proof.
  revert m. induction l as [|x l IH]; intros m Hbody; simpl.
  - by rewrite variables_add_nil.
  - rewrite Hbody by (apply elem_of_cons; by left).
    rewrite IH; [by rewrite variables_add_app|].
    intros y m' Hy. apply Hbody, elem_of_cons. by right.
Qed.

(** A loop whose body appends the items [F x] to a list. *)
Lemma for_each_append {X A : Type} (l : list X)
    (body : X → list A → result (list A)) (F : X → list A) acc :
  (∀ x acc, x ∈ l → body x acc = Ok (acc ++ F x)) →
  for_each l body acc = Ok (acc ++ flat_map F l).
Proof.
  revert acc. induction l as [|x l IH]; intros acc Hbody; simpl.
  - by rewrite app_nil_r.
  - rewrite Hbody by (apply elem_of_cons; by left).
    rewrite IH; [by rewrite <- app_assoc|].
    intros y acc' Hy. apply Hbody, elem_of_cons. by right.
Qed.

(** The comprehension over the ordered pairs of distinct indices. *)
Lemma for_distinct_pairs_spec {A : Type} (n : Z) (e : Z → Z → result A)
    (f : Z → Z → A) :
  (∀ i j, (0 <= i < n)%Z → (0 <= j < n)%Z → i ≠ j → e i j = Ok (f i j)) →
  for_distinct_pairs n e
  = Ok (map (λ p, f p.1 p.2) (arcs (range 0 n) (range 0 n))).
Proof.
  intros He. unfold for_distinct_pairs, arcs.
  rewrite (for_each_append (range 0 n) _
    (λ i, map (f i) (filter (λ j, i ≠ j) (range 0 n)))).
  - simpl. f_equal. generalize (range 0 n) at 1 3. intros succs.
    induction (range 0 n) as [|i origins IH]; simpl; [done|].
    rewrite map_app, map_map. simpl. by f_equal.
  - intros i acc Hi. apply elem_of_range in Hi.
    rewrite <- flat_map_filter.
    apply for_each_append. intros j acc' Hj. apply elem_of_range in Hj.
    case_bool_decide as Hij.
    + by rewrite He.
    + by rewrite app_nil_r.
Qed.

Lemma zip_with_map_map {X A B C : Type} (h : A → B → C) (a : X → A)
    (b : X → B) (l : list X) :
  zip_with h (map a l) (map b l) = map (λ x, h (a x) (b x)) l.
Proof. induction l as [|x l IH]; simpl; [done|]. by rewrite IH. Qed.

Lemma index_map_range {A : Type} (f : Z → A) (n i : Z) :
  (0 <= i < n)%Z → Py.index (map f (range 0 n)) i = Ok (f i).
Proof.
  intros Hi. apply index_ok; [lia|].
  rewrite list_lookup_fmap, lookup_range by lia. simpl. f_equal. f_equal. lia.
Qed.

(** [_set_decision_variable] and [_set_objective_function] declare
    [all_variables] and set the sense to minimisation. *)
Lemma declare_variables_spec (self : Solver) (n : nat) :
  model_size self = Z.of_nat n →
  shape n n (distance_matrix self) →
  length (CustomerTimeWindow self) = n →
  ∃ xs cs ts us ys,
    (_set_decision_variable self ≫= _set_objective_function)
    = Ok (set_model (set_decision_names self xs cs ts us ys)
            (variables_add (objective_set_sense (model self) Minimize)
               (all_variables self))).
Proof.
  intros Hsize Hshape Hw. unfold _set_decision_variable.
  rewrite (for_distinct_pairs_spec _ _ x_name) by done.
  cbn [mbind result_bind].
  rewrite (for_distinct_pairs_spec _ _ (entry0 (distance_matrix self))).
  2:{ intros i j Hi Hj _. rewrite Hsize in Hi, Hj.
      by apply (mat_get_entry0 n). }
  cbn [mbind result_bind]. unfold _set_objective_function.
  cbn [model path_link_variable objective_function_coef tao_names u_names
       y_names model_size CustomerTimeWindow set_decision_names C Q].
  rewrite zip_with_map_map.
  erewrite (for_each_variables_add _ _ (node_variables_at self)).
  - cbn [mbind result_bind]. rewrite variables_add_app.
    do 5 eexists. reflexivity.
  - intros i m Hi. apply elem_of_range in Hi.
    rewrite !index_map_range by done. cbn [mbind result_bind].
    destruct (index_lt (CustomerTimeWindow self) i) as (tw & Htw & ->).
    { unfold len. lia. }
    cbn [mbind result_bind]. rewrite !variables_add_app.
    unfold node_variables_at. by rewrite Htw.
Qed.

(** [EVPR_TW_Solver.__init__] on a constructed graph: the variables, the
    rows and the attributes that [print_results] reads. *)
Lemma EVPR_TW_Solver_model g l_0 :
  built_graph g →
  ∃ s, EVPR_TW_Solver g l_0 = Ok s
    ∧ objective (model s) = Some Minimize
    ∧ variables (model s) = all_variables (attributes_of g l_0)
    ∧ linear_constraints (model s) = all_rows (attributes_of g l_0)
    ∧ model_size s = len (Nodes g)
    ∧ D s = Depot_Idx g.
Proof.
  intros Hg. pose proof (attributes_reads_in_range g l_0 Hg) as Hreads.
  destruct (built_graph_facts g Hg)
    as (Hn & HD & _ & Hshape & _ & _ & HTW & _ & _).
  unfold EVPR_TW_Solver. rewrite HD.
  replace (Py.index [0%Z; (Z.of_nat (length (Nodes g)) - 1)%Z] (-1))
    with (Ok (len (Nodes g) - 1)%Z) by done.
  replace (Py.index [0%Z; (Z.of_nat (length (Nodes g)) - 1)%Z] 0)
    with (Ok 0%Z) by done.
  cbn [mbind result_bind]. fold (attributes_of g l_0).
  destruct (declare_variables_spec (attributes_of g l_0) (length (Nodes g)))
    as (xs & cs & ts & us & ys & Hdeclare); [done|done|..].
  { simpl. by rewrite HTW, length_map. }
  unfold _initialize_model.
  destruct (_set_decision_variable (attributes_of g l_0)) as [s1|];
    [|discriminate].
  cbn [mbind result_bind] in *. rewrite Hdeclare. cbn [mbind result_bind].
  rewrite (_set_constraints_spec _ (length (Nodes g))) by done.
  eexists. split; [reflexivity|]. simpl. rewrite HD. done.
Qed.

End solver_variables.

(** ** The formulator on a graph: variables and load rows *)
Section solver_on_graph.
Local Open Scope R_scope.

Variable g : Graph.
Variable l_0 : R.
Hypothesis Hg : built_graph g.

Let self : Solver := attributes_of g l_0.

Lemma demand_lookup0 (i : Z) ni :
  node_at g i ni → lookup0 (EVRP_Graph.CustomerDemand g) i = Demand ni.
Proof.
  intros [Hi Hni].
  destruct (built_graph_facts g Hg) as (_ & _ & _ & _ & _ & _ & _ & _ & ->).
  unfold lookup0. rewrite list_lookup_fmap, Hni. done.
Qed.

Lemma window_lookup (i : Z) ni :
  node_at g i ni → CustomerTW g !! Z.to_nat i = Some (Window ni).
Proof.
  intros [Hi Hni].
  destruct (built_graph_facts g Hg) as (_ & _ & _ & _ & _ & _ & -> & _).
  rewrite list_lookup_fmap, Hni. done.
Qed.

Lemma load_rows_spec :
  Forall2 (load_propagation g)
    (arcs (valid_predecessors g) (valid_successors g))
    (rows_over self row_load (V_Prime_0_sequence self)).
Proof.
  apply Forall2_map_self. intros arc Harc.
  destruct (arc_nodes g Hg (valid_predecessors g) arc)
    as (ni & nj & Hni & Hnj); [done|exact Harc|].
  exists ni. split; [done|].
  unfold well_formed, satisfies, lin_value. simpl.
  split; [done|]. split; [done|]. intros ρ.
  rewrite (demand_lookup0 _ ni) by done.
  split; intros H; lra.
Qed.

Lemma arc_variables_spec :
  Forall2 (arc_variable g)
    (arcs (range 0 (len (Nodes g))) (range 0 (len (Nodes g))))
    (map (arc_variable_at self)
       (arcs (range 0 (len (Nodes g))) (range 0 (len (Nodes g))))).
Proof.
  apply Forall2_map_self. intros [i j] Harc.
  apply elem_of_arcs in Harc as (Hi & Hj & _).
  apply elem_of_range in Hi, Hj.
  destruct (node_at_exists g i) as [ni Hni]; [lia|].
  destruct (node_at_exists g j) as [nj Hnj]; [lia|].
  exists ni, nj. split; [done|]. split; [done|].
  unfold arc_variable_at. simpl.
  by rewrite (distance_entry0 g Hg i j ni nj).
Qed.

Lemma node_variables_spec :
  Forall2 (node_variables g) (range 0 (len (Nodes g)))
    (map (node_variables_at self) (range 0 (len (Nodes g)))).
Proof.
  apply Forall2_map_self. intros i Hi. apply elem_of_range in Hi.
  destruct (node_at_exists g i) as [ni Hni]; [lia|].
  exists ni. split; [done|]. unfold node_variables_at. simpl.
  by rewrite (window_lookup i ni).
Qed.

(** Every name of every row is the name of an arc between a valid
    predecessor and a valid successor, or of a node variable. *)
Lemma out_arcs_row_names (i : Z) :
  i ∈ valid_predecessors g →
  Forall (row_name g) (out_arcs i (valid_successors g)).
Proof.
  intros Hi. apply Forall_forall. intros name Hname.
  apply list_elem_of_fmap in Hname as (j & -> & Hj).
  apply list_elem_of_filter in Hj as [Hij Hj].
  left. by exists i, j.
Qed.

Lemma in_arcs_row_names (j : Z) :
  j ∈ valid_successors g →
  Forall (row_name g) (in_arcs j (valid_predecessors g)).
Proof.
  intros Hj. apply Forall_forall. intros name Hname.
  apply list_elem_of_fmap in Hname as (i & -> & Hi).
  apply list_elem_of_filter in Hi as [Hij Hi].
  left. by exists i, j.
Qed.

Lemma node_row_name (i : Z) (name : string) :
  (0 <= i < len (Nodes g))%Z →
  name = tao_name i ∨ name = u_name i ∨ name = y_name i →
  row_name g name.
Proof. intros Hi Hname. right. by exists i. Qed.

Lemma arc_row_name (i j : Z) :
  i ∈ valid_predecessors g → j ∈ valid_successors g → i ≠ j →
  row_name g (x_name i j).
Proof. intros Hi Hj Hij. left. by exists i, j. Qed.

Lemma rows_over_names (row : Solver → Z → Z → linear_constraint)
    (origins : list Z) (c : linear_constraint) :
  (∀ i, i ∈ origins → i ∈ valid_predecessors g) →
  (∀ i j, i ∈ valid_predecessors g → j ∈ valid_successors g → i ≠ j →
     well_formed (row self i j) ∧ Forall (row_name g) (lin_ind (row self i j))) →
  c ∈ rows_over self row origins →
  well_formed c ∧ Forall (row_name g) (lin_ind c).
Proof.
  intros Horig Hrow Hc.
  apply list_elem_of_fmap in Hc as ([i j] & -> & Harc).
  apply elem_of_arcs in Harc as (Hi & Hj & Hij). apply Hrow; auto.
Qed.

Lemma coverage_row_names (i : Z) (sn : sense) :
  i ∈ Customer_Idx g ++ RS_Idx g →
  let c := {| lin_ind := out_arcs i (V_Prime_N_plus_1_sequence self);
              lin_val := list_mul [1] (len (V_Prime_N_plus_1_sequence self) - 1);
              lin_sense := sn; lin_rhs := 1 |} in
  well_formed c ∧ Forall (row_name g) (lin_ind c).
Proof.
  intros Hi c. split.
  - pose proof (length_outgoing g l_0 Hg i Hi) as Hlen.
    unfold well_formed, c. simpl.
    rewrite (out_arcs_outgoing g l_0), list_mul_singleton, length_replicate.
    done.
  - apply out_arcs_row_names. by apply inner_is_predecessor.
Qed.

Lemma flow_row_names (j : Z) :
  j ∈ Customer_Idx g ++ RS_Idx g →
  let c := {| lin_ind := out_arcs j (V_Prime_N_plus_1_sequence self)
                         ++ in_arcs j (V_Prime_0_sequence self);
              lin_val :=
                list_mul [1] (len (out_arcs j (V_Prime_N_plus_1_sequence self)))
                ++ list_mul [-1] (len (in_arcs j (V_Prime_0_sequence self)));
              lin_sense := SenseE; lin_rhs := 0 |} in
  well_formed c ∧ Forall (row_name g) (lin_ind c).
Proof.
  intros Hj c. split.
  - unfold well_formed, c. simpl.
    rewrite !list_mul_singleton. unfold len. rewrite !Nat2Z.id.
    by rewrite !length_app, !length_replicate.
  - apply Forall_app. split.
    + apply out_arcs_row_names. by apply inner_is_predecessor.
    + apply in_arcs_row_names. by apply inner_is_successor.
Qed.

Lemma all_rows_names (c : linear_constraint) :
  c ∈ all_rows self → well_formed c ∧ Forall (row_name g) (lin_ind c).
Proof.
  pose proof (successor_in_range g Hg) as Hsucc.
  pose proof (predecessor_in_range g Hg) as Hpred.
  assert (∀ i, i ∈ Customer_Idx g → i ∈ valid_predecessors g) as HC
    by (apply customer_origin_is_predecessor).
  assert (∀ i, i ∈ RS_Idx g → i ∈ valid_predecessors g) as HS
    by (apply station_origin_is_predecessor).
  assert (∀ i, i ∈ start_depot :: Customer_Idx g → i ∈ valid_predecessors g)
    as H0C.
  { intros i [->|Hi]%elem_of_cons; [apply start_depot_is_predecessor|auto]. }
  assert (∀ i, i ∈ start_depot :: RS_Idx g → i ∈ valid_predecessors g)
    as H0S.
  { intros i [->|Hi]%elem_of_cons; [apply start_depot_is_predecessor|auto]. }
  unfold all_rows. rewrite !elem_of_app.
  intros [Hc|[Hc|[Hc|[Hc|[Hc|[Hc|[Hc|Hc]]]]]]].
  - apply list_elem_of_fmap in Hc as (i & -> & Hi).
    apply coverage_row_names, elem_of_app. by left.
  - apply list_elem_of_fmap in Hc as (i & -> & Hi).
    apply coverage_row_names, elem_of_app. by right.
  - apply list_elem_of_fmap in Hc as (j & -> & Hj).
    by apply flow_row_names.
  - apply (rows_over_names row_time (start_depot :: Customer_Idx g));
      [done| |done].
    intros i j Hi Hj Hij. split; [done|]. simpl.
    repeat (apply Forall_cons; split); [..|done].
    + apply (node_row_name i); auto.
    + apply (node_row_name j); auto.
    + by apply arc_row_name.
  - apply (rows_over_names row_time_RS (RS_Idx g)); [done| |done].
    intros i j Hi Hj Hij. split; [done|]. simpl.
    repeat (apply Forall_cons; split); [..|done].
    + apply (node_row_name i); auto.
    + apply (node_row_name j); auto.
    + by apply arc_row_name.
    + apply (node_row_name i); auto.
  - apply (rows_over_names row_load (valid_predecessors g)); [done| |done].
    intros i j Hi Hj Hij. split; [done|]. simpl.
    repeat (apply Forall_cons; split); [..|done].
    + apply (node_row_name j); auto.
    + apply (node_row_name i); auto.
    + by apply arc_row_name.
  - apply (rows_over_names row_battery (Customer_Idx g)); [done| |done].
    intros i j Hi Hj Hij. split; [done|]. simpl.
    repeat (apply Forall_cons; split); [..|done].
    + apply (node_row_name j); auto.
    + apply (node_row_name i); auto.
    + by apply arc_row_name.
  - apply (rows_over_names row_battery_RS (start_depot :: RS_Idx g));
      [done| |done].
    intros i j Hi Hj Hij. split; [done|]. simpl.
    repeat (apply Forall_cons; split); [..|done].
    + apply (node_row_name j); auto.
    + by apply arc_row_name.
Qed.

(** A name that a row may mention is the name of a variable. *)
Lemma row_name_declared (name : string) :
  row_name g name →
  ∃ x, x ∈ all_variables self ∧ var_name x = name.
Proof.
  unfold all_variables.
  change (model_size self) with (len (Nodes g)).
  intros [(i & j & Hi & Hj & Hij & ->)|(i & Hi & Hname)].
  - exists (arc_variable_at self (i, j)). split; [|done].
    apply elem_of_app. left. apply list_elem_of_fmap. exists (i, j).
    split; [done|]. apply elem_of_arcs.
    apply (predecessor_in_range g Hg) in Hi.
    apply (successor_in_range g Hg) in Hj.
    rewrite !elem_of_range. done.
  - assert (Forall (λ x, x ∈ flat_map (node_variables_at self)
                              (range 0 (len (Nodes g))))
              (node_variables_at self i)) as Hall.
    { apply Forall_forall. intros x Hx.
      apply list_elem_of_In, in_flat_map. exists i.
      rewrite <- !list_elem_of_In. split; [|done]. by apply elem_of_range. }
    unfold node_variables_at in Hall.
    apply Forall_cons in Hall as [Ht Hall].
    apply Forall_cons in Hall as [Hu Hall].
    apply Forall_cons in Hall as [Hy _].
    destruct Hname as [-> | [-> | ->]].
    + eexists. split; [apply elem_of_app; right; exact Ht|done].
    + eexists. split; [apply elem_of_app; right; exact Hu|done].
    + eexists. split; [apply elem_of_app; right; exact Hy|done].
Qed.

Lemma x_name_not_node_name (i j k : Z) :
  x_name i j ≠ tao_name k ∧ x_name i j ≠ u_name k ∧ x_name i j ≠ y_name k.
Proof. by split; [|split]. Qed.

(** Arcs into the start depot and arcs out of the end depot are in no
    row. *)
Lemma row_name_not_into_start (i : Z) : ¬ row_name g (x_name i 0).
Proof.
  intros [(i' & j' & Hi & Hj & Hij & Heq)|(k & Hk & Hname)].
  - apply x_name_inj in Heq as [-> <-].
    apply (successor_in_range g Hg) in Hj as Hj'.
    rewrite valid_successors_range in Hj by done.
    apply elem_of_range in Hj. lia.
  - destruct (x_name_not_node_name i 0 k) as (? & ? & ?).
    destruct Hname as [?|[?|?]]; done.
Qed.

Lemma row_name_not_out_of_end (j : Z) : ¬ row_name g (x_name (end_depot g) j).
Proof.
  intros [(i' & j' & Hi & Hj & Hij & Heq)|(k & Hk & Hname)].
  - apply x_name_inj in Heq as [<- <-].
    rewrite valid_predecessors_range in Hi by done.
    apply elem_of_range in Hi. unfold end_depot in Hi. lia.
  - destruct (x_name_not_node_name (end_depot g) j k) as (? & ? & ?).
    destruct Hname as [?|[?|?]]; done.
Qed.

End solver_on_graph.

(** ** The formulation of an instance: variables, load rows, names *)

(** With at least one depot node and the five parameters: the graph, the
    solver, the variables and the rows. *)
Lemma model_of_instance (first : Node) (more Cn Sn : list Node)
    (params : gmap string R) (Rf : Z) (l_0 : R) :
  has_parameters params = true →
  ∃ g s, Graph_EVRP_TW (first :: more) Cn Sn params Rf = Ok g
    ∧ EVPR_TW_Solver g l_0 = Ok s
    ∧ built_graph g
    ∧ objective (model s) = Some Minimize
    ∧ variables (model s) = all_variables (attributes_of g l_0)
    ∧ linear_constraints (model s) = all_rows (attributes_of g l_0)
    ∧ model_size s = len (Nodes g)
    ∧ D s = Depot_Idx g.
Proof.
  intros Hparams.
  destruct (Graph_EVRP_TW_total (first :: more) Cn Sn params Rf Hparams)
    as [g Hgr].
  assert (built_graph g) as Hg by (by exists (first :: more), Cn, Sn, params, Rf).
  destruct (EVPR_TW_Solver_model g l_0 Hg) as (s & Hs & Hrest).
  by exists g, s.
Qed.

(** X13. For every ordered pair [(i, j)], [i ≠ j], with [i] a valid
    predecessor (start depot, customer or station replica) and [j] a valid
    successor, the formulator adds the row
    [u_j − u_i + (C + demand(i))·x_ij ≤ C]; these are all the rows of the
    load loop. *)
Theorem load_propagation_rows (first : Node) (more Cn Sn : list Node)
    (params : gmap string R) (Rf : Z) (l_0 : R) :
  has_parameters params = true →
  ∃ g s b, Graph_EVRP_TW (first :: more) Cn Sn params Rf = Ok g
    ∧ EVPR_TW_Solver g l_0 = Ok s
    ∧ blocks_of g (linear_constraints (model s)) b
    ∧ Forall2 (load_propagation g)
        (arcs (valid_predecessors g) (valid_successors g)) (load_rows b).
Proof.
  intros Hparams.
  destruct (formulation_of_instance (first :: more) Cn Sn params Rf l_0)
    as (g & s & Hgr & Hs & Hg & Hb); [done..|].
  exists g, s, (blocks_of_solver g l_0).
  split; [done|]. split; [done|]. split; [done|].
  by apply load_rows_spec.
Qed.

Lemma load_propagation_rows_witness :
  ∃ g s b,
    Graph_EVRP_TW [example_depot] [example_customer_1; example_customer_2]
      [example_station] example_parameters 1 = Ok g
    ∧ EVPR_TW_Solver g l_0_default = Ok s
    ∧ blocks_of g (linear_constraints (model s)) b
    ∧ Forall2 (load_propagation g)
        (arcs (valid_predecessors g) (valid_successors g)) (load_rows b).
Proof.
  apply (load_propagation_rows example_depot []
           [example_customer_1; example_customer_2] [example_station]
           example_parameters 1 l_0_default).
  reflexivity.
Defined.

(** X14. The objective is minimised. The model has one binary variable
    [x_i_j] for every ordered pair of distinct node indices, with the
    Euclidean distance between the two nodes as objective coefficient,
    followed by three continuous variables per node with objective
    coefficient 0: [tao_i] within the node's time window, [u_i] between 0
    and [C], and [y_i] between 0 and [Q], but fixed to [Q] at index 0. *)
Theorem declared_variables (first : Node) (more Cn Sn : list Node)
    (params : gmap string R) (Rf : Z) (l_0 : R) :
  has_parameters params = true →
  ∃ g s xs ns, Graph_EVRP_TW (first :: more) Cn Sn params Rf = Ok g
    ∧ EVPR_TW_Solver g l_0 = Ok s
    ∧ objective (model s) = Some Minimize
    ∧ variables (model s) = xs ++ concat ns
    ∧ Forall2 (arc_variable g)
        (arcs (range 0 (len (Nodes g))) (range 0 (len (Nodes g)))) xs
    ∧ Forall2 (node_variables g) (range 0 (len (Nodes g))) ns.
Proof.
  intros Hparams.
  destruct (model_of_instance first more Cn Sn params Rf l_0 Hparams)
    as (g & s & Hgr & Hs & Hg & Hobj & Hvars & _).
  exists g, s. eexists _, _.
  split; [done|]. split; [done|]. split; [done|].
  split; [rewrite Hvars; unfold all_variables;
          rewrite flat_map_concat_map; reflexivity|].
  split.
  - by apply arc_variables_spec.
  - by apply node_variables_spec.
Qed.

Lemma declared_variables_witness :
  ∃ g s xs ns,
    Graph_EVRP_TW [example_depot] [example_customer_1; example_customer_2]
      [example_station] example_parameters 1 = Ok g
    ∧ EVPR_TW_Solver g l_0_default = Ok s
    ∧ objective (model s) = Some Minimize
    ∧ variables (model s) = xs ++ concat ns
    ∧ Forall2 (arc_variable g)
        (arcs (range 0 (len (Nodes g))) (range 0 (len (Nodes g)))) xs
    ∧ Forall2 (node_variables g) (range 0 (len (Nodes g))) ns.
Proof.
  apply (declared_variables example_depot []
           [example_customer_1; example_customer_2] [example_station]
           example_parameters 1 l_0_default).
  reflexivity.
Defined.

(** X15. Every row of the model has as many coefficients as names, and
    every name in it is the name of a declared variable: an arc from a
    valid predecessor to a valid successor, or a variable of a node. *)
Theorem rows_mention_declared_variables (first : Node) (more Cn Sn : list Node)
    (params : gmap string R) (Rf : Z) (l_0 : R) :
  has_parameters params = true →
  ∃ g s, Graph_EVRP_TW (first :: more) Cn Sn params Rf = Ok g
    ∧ EVPR_TW_Solver g l_0 = Ok s
    ∧ Forall (λ c, well_formed c
                   ∧ Forall (λ name, row_name g name ∧ declared s name)
                       (lin_ind c))
        (linear_constraints (model s)).
Proof.
  intros Hparams.
  destruct (model_of_instance first more Cn Sn params Rf l_0 Hparams)
    as (g & s & Hgr & Hs & Hg & Hobj & Hvars & Hrows & _).
  exists g, s. split; [done|]. split; [done|].
  rewrite Hrows. apply Forall_forall. intros c Hc.
  destruct (all_rows_names g l_0 Hg c Hc) as [Hwf Hnames].
  split; [done|]. eapply Forall_impl; [exact Hnames|].
  intros name Hname. split; [done|].
  unfold declared. rewrite Hvars. by apply row_name_declared.
Qed.

Lemma rows_mention_declared_variables_witness :
  ∃ g s,
    Graph_EVRP_TW [example_depot] [example_customer_1; example_customer_2]
      [example_station] example_parameters 1 = Ok g
    ∧ EVPR_TW_Solver g l_0_default = Ok s
    ∧ Forall (λ c, well_formed c
                   ∧ Forall (λ name, row_name g name ∧ declared s name)
                       (lin_ind c))
        (linear_constraints (model s)).
Proof.
  apply (rows_mention_declared_variables example_depot []
           [example_customer_1; example_customer_2] [example_station]
           example_parameters 1 l_0_default).
  reflexivity.
Defined.

Lemma arc_declared g l_0 s (i j : Z) :
  variables (model s) = all_variables (attributes_of g l_0) →
  (0 <= i < len (Nodes g))%Z → (0 <= j < len (Nodes g))%Z → i ≠ j →
  declared s (x_name i j).
Proof.
  intros Hvars Hi Hj Hij. exists (arc_variable_at (attributes_of g l_0) (i, j)).
  split; [|done]. rewrite Hvars. apply elem_of_app. left.
  apply list_elem_of_fmap. exists (i, j). split; [done|].
  apply elem_of_arcs. rewrite !elem_of_range. done.
Qed.

(** X16. The arc variables into the start depot and out of the end depot
    are declared, but no row of the model mentions any of them. *)
Theorem arcs_outside_all_rows (first : Node) (more Cn Sn : list Node)
    (params : gmap string R) (Rf : Z) (l_0 : R) :
  has_parameters params = true →
  ∃ g s, Graph_EVRP_TW (first :: more) Cn Sn params Rf = Ok g
    ∧ EVPR_TW_Solver g l_0 = Ok s
    ∧ (∀ i, (0 < i < len (Nodes g))%Z →
         declared s (x_name i 0)
         ∧ declared s (x_name (end_depot g) (i - 1)))
    ∧ Forall (λ c, ∀ i, (x_name i 0 ∉ lin_ind c)
                        ∧ (x_name (end_depot g) i ∉ lin_ind c))
        (linear_constraints (model s)).
Proof.
  intros Hparams.
  destruct (model_of_instance first more Cn Sn params Rf l_0 Hparams)
    as (g & s & Hgr & Hs & Hg & Hobj & Hvars & Hrows & _).
  exists g, s. split; [done|]. split; [done|]. split.
  - intros i Hi. unfold end_depot. split.
    + apply (arc_declared g l_0); [done|lia..].
    + apply (arc_declared g l_0); [done|lia..].
  - rewrite Hrows. apply Forall_forall. intros c Hc i.
    destruct (all_rows_names g l_0 Hg c Hc) as [_ Hnames].
    rewrite Forall_forall in Hnames.
    split; intros Hin; apply Hnames in Hin.
    + by apply (row_name_not_into_start g Hg) in Hin.
    + by apply (row_name_not_out_of_end g Hg) in Hin.
Qed.

Lemma arcs_outside_all_rows_witness :
  ∃ g s,
    Graph_EVRP_TW [example_depot] [example_customer_1; example_customer_2]
      [example_station] example_parameters 1 = Ok g
    ∧ EVPR_TW_Solver g l_0_default = Ok s
    ∧ (∀ i, (0 < i < len (Nodes g))%Z →
         declared s (x_name i 0)
         ∧ declared s (x_name (end_depot g) (i - 1)))
    ∧ Forall (λ c, ∀ i, (x_name i 0 ∉ lin_ind c)
                        ∧ (x_name (end_depot g) i ∉ lin_ind c))
        (linear_constraints (model s)).
Proof.
  apply (arcs_outside_all_rows example_depot []
           [example_customer_1; example_customer_2] [example_station]
           example_parameters 1 l_0_default).
  reflexivity.
Defined.

(** ** What the arc rows say on selected and on unselected arcs *)
Section readings.
Local Open Scope R_scope.

Lemma time_propagation_reading g L0 arc c :
  time_propagation g L0 arc c → time_reading g L0 arc c.
Proof.
  intros (ni & nj & Hni & Hnj & _ & _ & Hsat). exists ni, nj.
  split; [done|]. split; [done|]. intros ρ.
  set (t := euclidean_distance (Position ni) (Position nj) / v g) in *.
  split; intros Hx; rewrite Hsat, Hx; split; intros H; lra.
Qed.

Lemma time_propagation_RS_reading g L0 arc c :
  time_propagation_RS g L0 arc c → time_reading_RS g L0 arc c.
Proof.
  intros (_ & _ & Hsat) ρ.
  set (gy := EVRP_Graph.g g * ρ (y_name arc.1)) in *.
  set (gQ := EVRP_Graph.g g * EVRP_Graph.Q g) in *.
  split; intros Hx; rewrite Hsat, Hx; fold gy gQ;
    rewrite ?Rmult_minus_distr_l; fold gy gQ; split; intros H; lra.
Qed.

Lemma load_propagation_reading g arc c :
  load_propagation g arc c → load_reading g arc c.
Proof.
  intros (ni & Hni & _ & _ & Hsat). exists ni. split; [done|]. intros ρ.
  split; intros Hx; rewrite Hsat, Hx; split; intros H; lra.
Qed.

Lemma battery_propagation_reading g arc c :
  battery_propagation g arc c → battery_reading g arc c.
Proof.
  intros (ni & nj & Hni & Hnj & _ & _ & Hsat). exists ni, nj.
  split; [done|]. split; [done|]. intros ρ.
  set (hd := r g * euclidean_distance (Position ni) (Position nj)) in *.
  split; intros Hx; rewrite Hsat, Hx; split; intros H; lra.
Qed.

Lemma battery_propagation_RS_reading g arc c :
  battery_propagation_RS g arc c → battery_reading_RS g arc c.
Proof.
  intros (ni & nj & Hni & Hnj & _ & _ & Hsat). exists ni, nj.
  split; [done|]. split; [done|]. intros ρ.
  set (hd := r g * euclidean_distance (Position ni) (Position nj)) in *.
  split; intros Hx; rewrite Hsat, Hx; split; intros H; lra.
Qed.

End readings.

(** X17. The travel-time rows by the value of the arc variable. On a
    selected arc out of the start depot or a customer, the time at [j] is
    at least the time at [i] plus service time and travel time; out of a
    station, at least the time at [i] plus [g·(Q − y_i)]. On an arc that is
    not selected the row is not void: it bounds [τ_i − τ_j] (less [g·y_i]
    for a station) by [L₀]. *)
Theorem time_rows_by_arc_value (first : Node) (more Cn Sn : list Node)
    (params : gmap string R) (Rf : Z) (l_0 : R) :
  has_parameters params = true →
  ∃ g s b, Graph_EVRP_TW (first :: more) Cn Sn params Rf = Ok g
    ∧ EVPR_TW_Solver g l_0 = Ok s
    ∧ blocks_of g (linear_constraints (model s)) b
    ∧ Forall2 (time_reading g l_0)
        (arcs (start_depot :: Customer_Idx g) (valid_successors g)) (time_rows b)
    ∧ Forall2 (time_reading_RS g l_0)
        (arcs (RS_Idx g) (valid_successors g)) (time_RS_rows b).
Proof.
  intros Hparams.
  destruct (formulation_of_instance (first :: more) Cn Sn params Rf l_0)
    as (g & s & Hgr & Hs & Hg & Hb); [done..|].
  exists g, s, (blocks_of_solver g l_0).
  split; [done|]. split; [done|]. split; [done|]. split.
  - eapply Forall2_impl; [by apply time_rows_spec|].
    apply time_propagation_reading.
  - eapply Forall2_impl; [by apply time_RS_rows_spec|].
    apply time_propagation_RS_reading.
Qed.

Lemma time_rows_by_arc_value_witness :
  ∃ g s b,
    Graph_EVRP_TW [example_depot] [example_customer_1; example_customer_2]
      [example_station] example_parameters 1 = Ok g
    ∧ EVPR_TW_Solver g l_0_default = Ok s
    ∧ blocks_of g (linear_constraints (model s)) b
    ∧ Forall2 (time_reading g l_0_default)
        (arcs (start_depot :: Customer_Idx g) (valid_successors g)) (time_rows b)
    ∧ Forall2 (time_reading_RS g l_0_default)
        (arcs (RS_Idx g) (valid_successors g)) (time_RS_rows b).
Proof.
  apply (time_rows_by_arc_value example_depot []
           [example_customer_1; example_customer_2] [example_station]
           example_parameters 1 l_0_default).
  reflexivity.
Defined.

(** X18. The load and battery rows by the value of the arc variable. On
    a selected arc the load at [j] is at most the load at [i] less the
    demand of [i]; the battery level at [j] is at most the level at [i]
    less [h·distance] out of a customer, and at most [Q] less
    [h·distance] out of the start depot or a station. On an arc that is
    not selected the rows bound [u_j − u_i] by [C], [y_j − y_i] by [Q] and
    [y_j] by [Q]. *)
Theorem load_and_battery_rows_by_arc_value (first : Node)
    (more Cn Sn : list Node) (params : gmap string R) (Rf : Z) (l_0 : R) :
  has_parameters params = true →
  ∃ g s b, Graph_EVRP_TW (first :: more) Cn Sn params Rf = Ok g
    ∧ EVPR_TW_Solver g l_0 = Ok s
    ∧ blocks_of g (linear_constraints (model s)) b
    ∧ Forall2 (load_reading g)
        (arcs (valid_predecessors g) (valid_successors g)) (load_rows b)
    ∧ Forall2 (battery_reading g)
        (arcs (Customer_Idx g) (valid_successors g)) (battery_rows b)
    ∧ Forall2 (battery_reading_RS g)
        (arcs (start_depot :: RS_Idx g) (valid_successors g))
        (battery_RS_rows b).
Proof.
  intros Hparams.
  destruct (formulation_of_instance (first :: more) Cn Sn params Rf l_0)
    as (g & s & Hgr & Hs & Hg & Hb); [done..|].
  exists g, s, (blocks_of_solver g l_0).
  split; [done|]. split; [done|]. split; [done|]. split; [|split].
  - eapply Forall2_impl; [by apply load_rows_spec|].
    apply load_propagation_reading.
  - eapply Forall2_impl; [by apply battery_rows_spec|].
    apply battery_propagation_reading.
  - eapply Forall2_impl; [by apply battery_RS_rows_spec|].
    apply battery_propagation_RS_reading.
Qed.

Lemma load_and_battery_rows_by_arc_value_witness :
  ∃ g s b,
    Graph_EVRP_TW [example_depot] [example_customer_1; example_customer_2]
      [example_station] example_parameters 1 = Ok g
    ∧ EVPR_TW_Solver g l_0_default = Ok s
    ∧ blocks_of g (linear_constraints (model s)) b
    ∧ Forall2 (load_reading g)
        (arcs (valid_predecessors g) (valid_successors g)) (load_rows b)
    ∧ Forall2 (battery_reading g)
        (arcs (Customer_Idx g) (valid_successors g)) (battery_rows b)
    ∧ Forall2 (battery_reading_RS g)
        (arcs (start_depot :: RS_Idx g) (valid_successors g))
        (battery_RS_rows b).
Proof.
  apply (load_and_battery_rows_by_arc_value example_depot []
           [example_customer_1; example_customer_2] [example_station]
           example_parameters 1 l_0_default).
  reflexivity.
Defined.

(** ** The size of the model *)

Lemma length_arcs_cons (i : Z) (origins successors : list Z) :
  length (arcs (i :: origins) successors)
  = (length (filter (λ j, i ≠ j) successors)
     + length (arcs origins successors))%nat.
Proof. unfold arcs. simpl. by rewrite length_app, length_map. Qed.

Lemma length_filter_notin (l : list Z) (i : Z) :
  i ∉ l → length (filter (λ j, i ≠ j) l) = length l.
Proof.
  induction l as [|x l IH]; [done|]. intros [Hx Hl]%not_elem_of_cons.
  rewrite filter_cons, decide_True by done. simpl. by rewrite IH.
Qed.

Lemma length_arcs_inner (origins successors : list Z) :
  NoDup successors → (∀ i, i ∈ origins → i ∈ successors) →
  length (arcs origins successors)
  = (length origins * (length successors - 1))%nat.
Proof.
  intros Hnd. induction origins as [|i origins IH]; intros Hsub; [done|].
  rewrite length_arcs_cons, length_filter_ne, IH.
  - simpl. lia.
  - intros j Hj. apply Hsub, elem_of_cons. by right.
  - done.
  - apply Hsub, elem_of_cons. by left.
Qed.

Lemma length_flat_map_const {X Y : Type} (f : X → list Y) (k : nat)
    (l : list X) :
  (∀ x, length (f x) = k) → length (flat_map f l) = (k * length l)%nat.
Proof.
  intros Hf. induction l as [|x l IH]; simpl; [lia|].
  rewrite length_app, Hf, IH. lia.
Qed.

(** X19. The size of the model on a graph with [n] nodes: [n·(n−1)] arc
    variables and [3·n] node variables; [2·(n−2) + 3·(n−1) + 3·(n−2)²]
    rows. *)
Theorem model_dimensions (first : Node) (more Cn Sn : list Node)
    (params : gmap string R) (Rf : Z) (l_0 : R) :
  has_parameters params = true →
  ∃ g s (n : nat), Graph_EVRP_TW (first :: more) Cn Sn params Rf = Ok g
    ∧ EVPR_TW_Solver g l_0 = Ok s
    ∧ n = length (Nodes g) ∧ (2 <= n)%nat
    ∧ length (variables (model s)) = (n * (n - 1) + 3 * n)%nat
    ∧ length (linear_constraints (model s))
      = (2 * (n - 2) + 3 * (n - 1) + 3 * ((n - 2) * (n - 2)))%nat.
Proof.
  intros Hparams.
  destruct (model_of_instance first more Cn Sn params Rf l_0 Hparams)
    as (g & s & Hgr & Hs & Hg & Hobj & Hvars & Hrows & _).
  exists g, s, (length (Nodes g)).
  destruct (built_graph_facts g Hg) as (Hn & _ & (nc & Hnc & HC & HS) & _).
  simpl in Hn, Hnc, HS.
  split; [done|]. split; [done|]. split; [done|]. split; [done|].
  set (n := length (Nodes g)) in *.
  pose proof (valid_successors_range g Hg) as Hsucc. fold n in Hsucc.
  unfold len in Hsucc. fold n in Hsucc.
  assert (NoDup (valid_successors g)) as Hnd
    by (rewrite Hsucc; apply NoDup_range).
  assert (length (valid_successors g) = (n - 1)%nat) as Hlsucc
    by (rewrite Hsucc, length_range; lia).
  assert (length (Customer_Idx g) = nc) as HlC
    by (rewrite HC, length_range; lia).
  assert (length (RS_Idx g) = (n - 2 - nc)%nat) as HlS
    by (rewrite HS, length_range; lia).
  assert (∀ i, i ∈ Customer_Idx g → i ∈ valid_successors g) as HCsub.
  { intros i Hi. apply (inner_is_successor g), elem_of_app. by left. }
  assert (∀ i, i ∈ RS_Idx g → i ∈ valid_successors g) as HSsub.
  { intros i Hi. apply (inner_is_successor g), elem_of_app. by right. }
  assert (∀ i, i ∈ Customer_Idx g ++ RS_Idx g → i ∈ valid_successors g)
    as HCSsub by (apply inner_is_successor).
  assert (start_depot ∉ valid_successors g) as H0.
  { rewrite Hsucc, elem_of_range. unfold start_depot. lia. }
  split.
  - rewrite Hvars. unfold all_variables.
    change (model_size (attributes_of g l_0)) with (Z.of_nat n).
    rewrite length_app, length_map, length_arcs_inner;
      [|apply NoDup_range|done].
    rewrite (length_flat_map_const _ 3) by done.
    rewrite length_range. lia.
  - rewrite Hrows. unfold all_rows, rows_customer, rows_station, rows_flow,
      rows_over.
    rewrite !length_app, !length_map.
    change (V_Prime_N_plus_1_sequence (attributes_of g l_0))
      with (valid_successors g).
    change (V_sequence (attributes_of g l_0)) with (Customer_Idx g).
    change (F_Prime_sequence (attributes_of g l_0)) with (RS_Idx g).
    change (V_Prime_sequence (attributes_of g l_0))
      with (Customer_Idx g ++ RS_Idx g).
    change (V_Prime_0_sequence (attributes_of g l_0))
      with (start_depot :: Customer_Idx g ++ RS_Idx g).
    change (Depot_start (attributes_of g l_0) ++ Customer_Idx g)
      with (start_depot :: Customer_Idx g).
    change (Depot_start (attributes_of g l_0) ++ RS_Idx g)
      with (start_depot :: RS_Idx g).
    rewrite !length_arcs_cons, !length_filter_notin by done.
    rewrite !length_arcs_inner by done.
    rewrite length_app, Hlsucc, HlC, HlS. nia.
Qed.

Lemma model_dimensions_witness :
  ∃ g s (n : nat),
    Graph_EVRP_TW [example_depot] [example_customer_1; example_customer_2]
      [example_station] example_parameters 1 = Ok g
    ∧ EVPR_TW_Solver g l_0_default = Ok s
    ∧ n = length (Nodes g) ∧ (2 <= n)%nat
    ∧ length (variables (model s)) = (n * (n - 1) + 3 * n)%nat
    ∧ length (linear_constraints (model s))
      = (2 * (n - 2) + 3 * (n - 1) + 3 * ((n - 2) * (n - 2)))%nat.
Proof.
  apply (model_dimensions example_depot []
           [example_customer_1; example_customer_2] [example_station]
           example_parameters 1 l_0_default).
  reflexivity.
Defined.

(** ** Reading the solution: [print_results] *)
Section print_results_loop.
Local Open Scope R_scope.

Lemma for_each_ext {X S : Type} (l : list X) (b1 b2 : X → S → result S) s :
  (∀ x s, b1 x s = b2 x s) → for_each l b1 s = for_each l b2 s.
Proof.
  intros Hb. revert s. induction l as [|x l IH]; intros s; simpl; [done|].
  rewrite Hb. destruct (b2 x s); auto.
Qed.

Lemma for_each_successors {S : Type} (i : Z) (successors : list Z)
    (f : Z → Z → S → result S) s :
  for_each successors (λ j s, if bool_decide (i ≠ j) then f i j s else Ok s) s
  = for_each (map (pair i) (filter (λ j, i ≠ j) successors))
      (λ p s, f p.1 p.2 s) s.
Proof.
  revert s. induction successors as [|j successors IH]; intros s; [done|].
  rewrite filter_cons. simpl. case_bool_decide; case_decide; try done; simpl.
  destruct (f i j s); auto.
Qed.

(** Nested loops over distinct pairs are one loop over the arcs. *)
Lemma for_each_arcs {S : Type} (origins successors : list Z)
    (f : Z → Z → S → result S) s0 :
  for_each origins (λ i s,
    for_each successors (λ j s,
      if bool_decide (i ≠ j) then f i j s else Ok s) s) s0
  = for_each (arcs origins successors) (λ p s, f p.1 p.2 s) s0.
Proof.
  revert s0. induction origins as [|i origins IH]; intros s0; [done|].
  unfold arcs. simpl. rewrite for_each_app, for_each_successors.
  destruct (for_each _ _ s0); simpl; [apply IH|done].
Qed.

Lemma NoDup_arcs (origins successors : list Z) :
  NoDup origins → NoDup successors → NoDup (arcs origins successors).
Proof.
  intros Ho Hs. induction Ho as [|i origins Hi Ho IH]; [constructor|].
  unfold arcs. simpl. apply NoDup_app. split; [|split; [|exact IH]].
  - apply NoDup_fmap_2; [intros j1 j2 [= ->]; done|]. by apply NoDup_filter.
  - intros [i' j'] Hin1 Hin2.
    apply list_elem_of_fmap in Hin1 as (j & [= -> ->] & _).
    apply (elem_of_arcs origins successors) in Hin2 as (Hin2 & _). done.
Qed.

Variable ρ : string → R.

(** The loop of [print_results] over a list of distinct arcs adds the
    labels of the selected ones, in order. *)
Lemma dict_loop (ps : list (Z * Z)) (d0 : list (string * Z)) :
  NoDup ps →
  (∀ p, p ∈ ps → x_name p.1 p.2 ∉ d0.*1) →
  ∃ d, for_each ps (λ p d,
         if bool_decide (ρ (x_name p.1 p.2) > 0.5)
         then Ok (dict_setitem d (x_name p.1 p.2) 1%Z) else Ok d) d0 = Ok d
    ∧ d.*1 = d0.*1
             ++ map (λ p, x_name p.1 p.2)
                  (filter (λ p, ρ (x_name p.1 p.2) > 0.5) ps).
Proof.
  intros Hnd. revert d0. induction Hnd as [|p ps Hp Hnd IH]; intros d0 Hfresh.
  - exists d0. simpl. by rewrite app_nil_r.
  - simpl. rewrite filter_cons. case_bool_decide as Hsel.
    + rewrite decide_True by done.
      unfold dict_setitem.
      rewrite bool_decide_eq_false_2
        by (apply Hfresh, elem_of_cons; by left).
      destruct (IH (d0 ++ [(x_name p.1 p.2, 1%Z)])) as (d & Hd & Hkeys).
      { intros q Hq. rewrite fmap_app. simpl.
        intros [Hin|Hin%list_elem_of_singleton]%elem_of_app.
        - revert Hin. apply Hfresh, elem_of_cons. by right.
        - apply x_name_inj in Hin as [H1 H2].
          apply Hp. destruct p, q. simpl in *. by subst. }
      exists d. split; [done|]. rewrite Hkeys, fmap_app. simpl.
      by rewrite <- app_assoc.
    + rewrite decide_False by done. apply IH.
      intros q Hq. apply Hfresh, elem_of_cons. by right.
Qed.

Lemma index_last {A : Type} (front : list A) (x : A) :
  Py.index (front ++ [x]) (-1) = Ok x.
Proof.
  unfold Py.index, position.
  replace (Z.of_nat (length (front ++ [x]))) with (Z.of_nat (length front) + 1)%Z
    by (rewrite length_app; simpl; lia).
  change (-1 <? 0)%Z with true. cbv iota.
  rewrite (proj2 (Z.leb_le _ _)), (proj2 (Z.ltb_lt _ _)) by lia.
  cbn [andb mbind result_bind].
  replace (Z.to_nat (-1 + (Z.of_nat (length front) + 1))) with (length front)
    by lia.
  by rewrite list_lookup_middle.
Qed.

(** [print_results] on a solver whose depot list ends with [d_last]. *)
Lemma print_results_spec (self : Solver) (front : list Z) (d_last : Z)
    (Optimal_Value DV_Info Routes : bool) :
  D self = front ++ [d_last] →
  print_results self ρ Optimal_Value DV_Info Routes
  = if DV_Info || Routes then
      match selected_labels (model_size self) ρ with
      | [] => Ok None
      | labels =>
          routes ← find_and_print_routes labels d_last; Ok (Some routes)
      end
    else Ok None.
Proof.
  intros HD. unfold print_results. destruct (DV_Info || Routes); [|done].
  rewrite (for_each_ext _ _ (λ i d,
    for_each (range 0 (model_size self)) (λ j d,
      if bool_decide (i ≠ j)
      then (if bool_decide (ρ (x_name i j) > 0.5)
            then Ok (dict_setitem d (x_name i j) 1%Z) else Ok d)
      else Ok d) d)).
  2:{ intros i d. apply for_each_ext. intros j d'.
      by destruct (bool_decide (i ≠ j)). }
  rewrite (for_each_arcs _ _ (λ i j d,
    if bool_decide (ρ (x_name i j) > 0.5)
    then Ok (dict_setitem d (x_name i j) 1%Z) else Ok d)).
  destruct (dict_loop
    (arcs (range 0 (model_size self)) (range 0 (model_size self))) [])
    as (d & -> & Hkeys).
  { apply NoDup_arcs; apply NoDup_range. }
  { intros p _. simpl. apply not_elem_of_nil. }
  cbn [mbind result_bind]. simpl in Hkeys.
  fold (selected_arcs (model_size self) ρ) in Hkeys.
  fold (selected_labels (model_size self) ρ) in Hkeys.
  rewrite <- Hkeys.
  destruct d as [|kv d]; [done|].
  rewrite bool_decide_eq_true_2 by done.
  by rewrite HD, index_last.
Qed.

End print_results_loop.

(** ** From a solution to routes *)
Section solution_routes.
Local Open Scope R_scope.

Lemma elem_of_selected_labels (n : Z) (ρ : string → R) (label : string) :
  label ∈ selected_labels n ρ
  ↔ ∃ i j, label = x_name i j ∧ (0 <= i < n)%Z ∧ (0 <= j < n)%Z ∧ i ≠ j
           ∧ ρ (x_name i j) > 0.5.
Proof.
  unfold selected_labels, selected_arcs. rewrite list_elem_of_fmap. split.
  - intros ([i j] & -> & Hp). apply list_elem_of_filter in Hp as [Hsel Hp].
    apply elem_of_arcs in Hp as (Hi & Hj & Hij).
    apply elem_of_range in Hi, Hj. by exists i, j.
  - intros (i & j & -> & Hi & Hj & Hij & Hsel). exists (i, j).
    split; [done|]. apply list_elem_of_filter. split; [done|].
    apply elem_of_arcs. rewrite !elem_of_range. done.
Qed.

Lemma selected_labels_parse (n : Z) (ρ : string → R) (label : string) :
  label ∈ selected_labels n ρ → ∃ arc, label_indices label = Ok arc.
Proof.
  intros (i & j & -> & _)%elem_of_selected_labels.
  exists (i, j). apply label_indices_x_name.
Qed.

Lemma NoDup_selected_labels (n : Z) (ρ : string → R) :
  NoDup (selected_labels n ρ).
Proof.
  unfold selected_labels, selected_arcs. apply NoDup_fmap_2.
  - intros [i j] [i' j'] Heq. simpl in Heq.
    by apply x_name_inj in Heq as [-> ->].
  - apply NoDup_filter, NoDup_arcs; apply NoDup_range.
Qed.

Lemma Forall2_map_self_inv {X Y : Type} (P : X → Y → Prop) (f : X → Y)
    (l : list X) (x : X) :
  Forall2 P l (map f l) → x ∈ l → P x (f x).
Proof.
  induction l as [|y l IH]; simpl; intros HP Hx.
  - by apply elem_of_nil in Hx.
  - apply Forall2_cons in HP as [Hy HP].
    apply elem_of_cons in Hx as [->|Hx]; auto.
Qed.

Lemma sum_of_nonneg (ρ : string → R) (names : list string) :
  (∀ name, name ∈ names → 0 <= ρ name) → 0 <= sum_of ρ names.
Proof.
  unfold sum_of. induction names as [|a names IH]; intros Hpos; simpl; [lra|].
  pose proof (Hpos a (list_elem_of_here _ _)).
  assert (0 <= foldr Rplus 0 (map ρ names)); [|lra].
  apply IH. intros name Hname. apply Hpos, elem_of_cons. by right.
Qed.

Lemma sum_of_ge_one (ρ : string → R) (names : list string) (a : string) :
  (∀ name, name ∈ names → 0 <= ρ name) → a ∈ names → ρ a <= sum_of ρ names.
Proof.
  induction names as [|b names IH]; intros Hpos Ha.
  - by apply elem_of_nil in Ha.
  - assert (∀ name, name ∈ names → 0 <= ρ name) as Hpos'.
    { intros name Hname. apply Hpos, elem_of_cons. by right. }
    pose proof (Hpos b (list_elem_of_here _ _)) as Hb.
    pose proof (sum_of_nonneg ρ names Hpos') as Hsum.
    change (sum_of ρ (b :: names)) with (ρ b + sum_of ρ names).
    apply elem_of_cons in Ha as [->|Ha]; [lra|].
    pose proof (IH Hpos' Ha). lra.
Qed.

Lemma sum_of_ge_two (ρ : string → R) (names : list string) (a b : string) :
  (∀ name, name ∈ names → 0 <= ρ name) →
  a ∈ names → b ∈ names → a ≠ b → ρ a + ρ b <= sum_of ρ names.
Proof.
  induction names as [|c names IH]; intros Hpos Ha Hb Hab.
  - by apply elem_of_nil in Ha.
  - assert (∀ name, name ∈ names → 0 <= ρ name) as Hpos'.
    { intros name Hname. apply Hpos, elem_of_cons. by right. }
    pose proof (Hpos c (list_elem_of_here _ _)) as Hc.
    change (sum_of ρ (c :: names)) with (ρ c + sum_of ρ names).
    apply elem_of_cons in Ha as [->|Ha]; apply elem_of_cons in Hb as [->|Hb].
    + done.
    + pose proof (sum_of_ge_one ρ names b Hpos' Hb). lra.
    + pose proof (sum_of_ge_one ρ names a Hpos' Ha). lra.
    + pose proof (IH Hpos' Ha Hb Hab). lra.
Qed.

Variable g : Graph.
Variable l_0 : R.
Hypothesis Hg : built_graph g.
Variable ρ : string → R.
Hypothesis Hbinary : binary_arcs ρ.
Hypothesis Hrows : Forall (satisfies ρ) (all_rows (attributes_of g l_0)).
Hypothesis Hstart : no_arc_into_start ρ.

Lemma selected_is_one (i j : Z) : ρ (x_name i j) > 0.5 → ρ (x_name i j) = 1.
Proof. destruct (Hbinary i j) as [H|H]; [lra|done]. Qed.

(** The arcs out of a customer or a station replica sum to at most 1. *)
Lemma outgoing_at_most_one (i : Z) :
  i ∈ Customer_Idx g ++ RS_Idx g → sum_of ρ (outgoing g i) <= 1.
Proof.
  intros Hi. rewrite Forall_forall in Hrows.
  apply elem_of_app in Hi as [Hi|Hi].
  - pose proof (Forall2_map_self_inv _ _ _ i (customer_rows_spec g l_0 Hg) Hi)
      as (_ & _ & _ & Hsat).
    assert (sum_of ρ (outgoing g i) = 1); [|lra].
    apply Hsat, Hrows. unfold all_rows. apply elem_of_app. left.
    apply list_elem_of_fmap. by exists i.
  - pose proof (Forall2_map_self_inv _ _ _ i (station_rows_spec g l_0 Hg) Hi)
      as (_ & _ & _ & Hsat).
    apply Hsat, Hrows. unfold all_rows. apply elem_of_app. right.
    apply elem_of_app. left. apply list_elem_of_fmap. by exists i.
Qed.

Lemma selected_successor (i j : Z) :
  (0 <= j < len (Nodes g))%Z → i ≠ j → ρ (x_name i j) > 0.5 →
  x_name i j ∈ outgoing g i.
Proof.
  intros Hj Hij Hsel. unfold outgoing. apply list_elem_of_fmap. exists j.
  split; [done|]. apply list_elem_of_filter. split; [done|].
  rewrite valid_successors_range by done. apply elem_of_range.
  assert (j ≠ 0%Z); [|lia]. intros ->. pose proof (Hstart i). lra.
Qed.

Lemma selected_labels_no_branching :
  no_branching_before (end_depot g) (selected_labels (len (Nodes g)) ρ).
Proof.
  split; [apply NoDup_selected_labels|]. split.
  - intros a b i ja jb Ha Hb Hla Hlb Hi0 Hiend.
    apply elem_of_selected_labels in Ha
      as (ia & ja' & -> & Hia & Hja & Hija & Hsela).
    apply elem_of_selected_labels in Hb
      as (ib & jb' & -> & Hib & Hjb & Hijb & Hselb).
    rewrite label_indices_x_name in Hla, Hlb.
    injection Hla as -> ->. injection Hlb as -> ->.
    destruct (decide (ja = jb)) as [->|Hne]; [done|]. exfalso.
    assert (i ∈ Customer_Idx g ++ RS_Idx g) as Hinner.
    { rewrite customers_stations_range by done. apply elem_of_range.
      unfold end_depot in Hiend. lia. }
    pose proof (outgoing_at_most_one i Hinner) as Hsum.
    pose proof (sum_of_ge_two ρ (outgoing g i) (x_name i ja) (x_name i jb))
      as Htwo.
    rewrite (selected_is_one i ja), (selected_is_one i jb) in Htwo by done.
    assert (1 + 1 <= sum_of ρ (outgoing g i)); [|lra].
    apply Htwo.
    + intros name (j & -> & _)%list_elem_of_fmap.
      destruct (Hbinary i j) as [H|H]; lra.
    + by apply selected_successor.
    + by apply selected_successor.
    + by intros [_ ?]%x_name_inj.
  - intros a i Ha Hla.
    apply elem_of_selected_labels in Ha
      as (ia & ja & -> & Hia & Hja & Hija & Hsela).
    rewrite label_indices_x_name in Hla. injection Hla as -> ->.
    pose proof (Hstart i). lra.
Qed.

End solution_routes.

(** [print_results] on a solver of a constructed graph. *)
Lemma print_results_on_graph g (s : Solver) (ρ : string → R)
    (Optimal_Value DV_Info Routes : bool) :
  built_graph g → model_size s = len (Nodes g) → D s = Depot_Idx g →
  let labels := selected_labels (len (Nodes g)) ρ in
  ∃ out, print_results s ρ Optimal_Value DV_Info Routes = Ok out
    ∧ (out = None ↔ DV_Info || Routes = false ∨ labels = [])
    ∧ ∀ routes, out = Some routes →
        find_and_print_routes labels (end_depot g) = Ok routes
        ∧ Forall (route_ends labels (end_depot g)) routes.
Proof.
  intros Hg Hsize HD labels.
  destruct (built_graph_facts g Hg) as (_ & HDI & _).
  rewrite (print_results_spec ρ s [0%Z] (end_depot g)), Hsize
    by (by rewrite HD, HDI).
  fold labels.
  destruct (find_and_print_routes_total labels (end_depot g))
    as [routes Hroutes]; [apply selected_labels_parse|].
  pose proof (find_and_print_routes_ends _ _ _ Hroutes) as Hends.
  destruct (DV_Info || Routes).
  - destruct labels as [|label labels'] eqn:Hlabels.
    + exists None. split; [done|]. split; [|done]. split; [by right|done].
    + rewrite Hroutes. exists (Some routes). split; [done|].
      split; [split; [done|by intros [?|?]]|]. by intros ? [= <-].
  - exists None. split; [done|]. split; [|done]. split; [by left|done].
Qed.

(** X20. [print_results] on the solver of an instance returns for all
    values of the variables and all flags. It calls the reconstructor
    exactly when [DV_Info] or [Routes] is set and some arc variable
    [x_i_j], [i ≠ j], has a value above 0.5; the labels handed over are
    those of these arcs, in row-major order, each once, with the last
    index as end depot; every reported route begins with a start arc and
    ends with an arc into the end depot. *)
Theorem print_results_returns (first : Node) (more Cn Sn : list Node)
    (params : gmap string R) (Rf : Z) (l_0 : R) :
  has_parameters params = true →
  ∃ g s, Graph_EVRP_TW (first :: more) Cn Sn params Rf = Ok g
    ∧ EVPR_TW_Solver g l_0 = Ok s
    ∧ ∀ (ρ : string → R) (Optimal_Value DV_Info Routes : bool),
        let labels := selected_labels (len (Nodes g)) ρ in
        NoDup labels
        ∧ ∃ out, print_results s ρ Optimal_Value DV_Info Routes = Ok out
          ∧ (out = None ↔ DV_Info || Routes = false ∨ labels = [])
          ∧ ∀ routes, out = Some routes →
              find_and_print_routes labels (end_depot g) = Ok routes
              ∧ Forall (route_ends labels (end_depot g)) routes.
Proof.
  intros Hparams.
  destruct (model_of_instance first more Cn Sn params Rf l_0 Hparams)
    as (g & s & Hgr & Hs & Hg & _ & _ & _ & Hsize & HD).
  exists g, s. split; [done|]. split; [done|].
  intros ρ Optimal_Value DV_Info Routes labels.
  split; [apply NoDup_selected_labels|].
  by apply print_results_on_graph.
Qed.

Lemma print_results_returns_witness :
  ∃ g s,
    Graph_EVRP_TW [example_depot] [example_customer_1; example_customer_2]
      [example_station] example_parameters 1 = Ok g
    ∧ EVPR_TW_Solver g l_0_default = Ok s
    ∧ ∀ (ρ : string → R) (Optimal_Value DV_Info Routes : bool),
        let labels := selected_labels (len (Nodes g)) ρ in
        NoDup labels
        ∧ ∃ out, print_results s ρ Optimal_Value DV_Info Routes = Ok out
          ∧ (out = None ↔ DV_Info || Routes = false ∨ labels = [])
          ∧ ∀ routes, out = Some routes →
              find_and_print_routes labels (end_depot g) = Ok routes
              ∧ Forall (route_ends labels (end_depot g)) routes.
Proof.
  apply (print_results_returns example_depot []
           [example_customer_1; example_customer_2] [example_station]
           example_parameters 1 l_0_default).
  reflexivity.
Defined.

(** X21. From a solution to routes. For every assignment of the
    variables that gives the arc variables the values 0 or 1, satisfies
    all rows of the model and selects no arc into the start depot,
    [print_results] returns, and every route it reports is a route: a
    path from the start depot to the end depot without a repeated arc. *)
Theorem routes_of_a_solution (first : Node) (more Cn Sn : list Node)
    (params : gmap string R) (Rf : Z) (l_0 : R) :
  has_parameters params = true →
  ∃ g s, Graph_EVRP_TW (first :: more) Cn Sn params Rf = Ok g
    ∧ EVPR_TW_Solver g l_0 = Ok s
    ∧ ∀ (ρ : string → R) (Optimal_Value DV_Info Routes : bool),
        binary_arcs ρ →
        Forall (satisfies ρ) (linear_constraints (model s)) →
        no_arc_into_start ρ →
        ∃ out, print_results s ρ Optimal_Value DV_Info Routes = Ok out
          ∧ ∀ routes, out = Some routes →
              Forall (is_route (end_depot g)) routes.
Proof.
  intros Hparams.
  destruct (model_of_instance first more Cn Sn params Rf l_0 Hparams)
    as (g & s & Hgr & Hs & Hg & _ & _ & Hrows & Hsize & HD).
  exists g, s. split; [done|]. split; [done|].
  intros ρ Optimal_Value DV_Info Routes Hbinary Hsat Hstart.
  rewrite Hrows in Hsat.
  destruct (built_graph_facts g Hg) as (_ & HDI & _).
  rewrite (print_results_spec ρ s [0%Z] (end_depot g)), Hsize
    by (by rewrite HD, HDI).
  destruct (routes_without_branching_before
              (selected_labels (len (Nodes g)) ρ) (end_depot g))
    as (routes & Hroutes & Hall).
  { by apply (selected_labels_no_branching g l_0). }
  { apply selected_labels_parse. }
  destruct (DV_Info || Routes); [|by exists None].
  destruct (selected_labels (len (Nodes g)) ρ) as [|label labels];
    [by exists None|].
  rewrite Hroutes. exists (Some routes). split; [done|]. by intros ? [= <-].
Qed.

(** ** Visits *)
Section visits.
Local Open Scope R_scope.

Variable g : Graph.
Variable l_0 : R.
Hypothesis Hg : built_graph g.
Variable ρ : string → R.
Hypothesis Hrows : Forall (satisfies ρ) (all_rows (attributes_of g l_0)).

Lemma flow_balance (j : Z) :
  j ∈ Customer_Idx g ++ RS_Idx g →
  sum_of ρ (incoming g j) = sum_of ρ (outgoing g j).
Proof.
  intros Hj. rewrite Forall_forall in Hrows.
  pose proof (Forall2_map_self_inv _ _ _ j (flow_rows_spec g l_0) Hj)
    as (_ & _ & _ & Hsat).
  apply Hsat, Hrows. unfold all_rows. apply elem_of_app. right.
  apply elem_of_app. right. apply elem_of_app. left.
  apply list_elem_of_fmap. by exists j.
Qed.

Lemma customer_left_once (i : Z) :
  i ∈ Customer_Idx g → sum_of ρ (outgoing g i) = 1.
Proof.
  intros Hi. rewrite Forall_forall in Hrows.
  pose proof (Forall2_map_self_inv _ _ _ i (customer_rows_spec g l_0 Hg) Hi)
    as (_ & _ & _ & Hsat).
  apply Hsat, Hrows. unfold all_rows. apply elem_of_app. left.
  apply list_elem_of_fmap. by exists i.
Qed.

End visits.

(** X22. Visits. Every assignment of the variables that satisfies all
    rows of the model enters every customer exactly once and leaves it
    exactly once (the arcs from its valid predecessors sum to 1, and so do
    the arcs to its valid successors), and enters every station replica
    as often as it leaves it, at most once. *)
Theorem customers_visited_once (first : Node) (more Cn Sn : list Node)
    (params : gmap string R) (Rf : Z) (l_0 : R) :
  has_parameters params = true →
  ∃ g s, Graph_EVRP_TW (first :: more) Cn Sn params Rf = Ok g
    ∧ EVPR_TW_Solver g l_0 = Ok s
    ∧ ∀ ρ : string → R,
        Forall (satisfies ρ) (linear_constraints (model s)) →
        Forall (λ j, sum_of ρ (incoming g j) = 1%R
                     ∧ sum_of ρ (outgoing g j) = 1%R) (Customer_Idx g)
        ∧ Forall (λ j, sum_of ρ (incoming g j) = sum_of ρ (outgoing g j)
                       ∧ (sum_of ρ (outgoing g j) <= 1)%R) (RS_Idx g).
Proof.
  intros Hparams.
  destruct (model_of_instance first more Cn Sn params Rf l_0 Hparams)
    as (g & s & Hgr & Hs & Hg & _ & _ & Hrows & _).
  exists g, s. split; [done|]. split; [done|].
  intros ρ Hsat. rewrite Hrows in Hsat. split.
  - apply Forall_forall. intros j Hj.
    pose proof (customer_left_once g l_0 Hg ρ Hsat j Hj) as Hout.
    rewrite (flow_balance g l_0 ρ Hsat j) by (apply elem_of_app; by left).
    done.
  - apply Forall_forall. intros j Hj.
    assert (j ∈ Customer_Idx g ++ RS_Idx g) as Hj'
      by (apply elem_of_app; by right).
    split; [by apply (flow_balance g l_0 ρ Hsat)|].
    by apply (outgoing_at_most_one g l_0 Hg ρ Hsat).
Qed.

Lemma customers_visited_once_witness :
  ∃ g s,
    Graph_EVRP_TW [example_depot] [example_customer_1; example_customer_2]
      [example_station] example_parameters 1 = Ok g
    ∧ EVPR_TW_Solver g l_0_default = Ok s
    ∧ ∀ ρ : string → R,
        Forall (satisfies ρ) (linear_constraints (model s)) →
        Forall (λ j, sum_of ρ (incoming g j) = 1%R
                     ∧ sum_of ρ (outgoing g j) = 1%R) (Customer_Idx g)
        ∧ Forall (λ j, sum_of ρ (incoming g j) = sum_of ρ (outgoing g j)
                       ∧ (sum_of ρ (outgoing g j) <= 1)%R) (RS_Idx g).
Proof.
  apply (customers_visited_once example_depot []
           [example_customer_1; example_customer_2] [example_station]
           example_parameters 1 l_0_default).
  reflexivity.
Defined.

(** ** The parser: filing, parameters and errors *)
Section parser_filing.

Variable node_match : string → option node_groups.
Variable parameter_match : string → option (string * string).
Variable float : string → result R.

Ltac in_list := repeat (apply elem_of_cons; first [by left | right]).

Lemma parse_line_filed line st st' :
  parse_line node_match parameter_match float line st = Ok st' →
  filed_by_prefix st → filed_by_prefix st'.
Proof.
  unfold DataParser.parse_line, filed_by_prefix.
  intros Hline (HD & HS & HC).
  destruct (node_match line) as [m|].
  - destruct (float (group3 m)); [|done]. destruct (float (group4 m)); [|done].
    destruct (float (group5 m)); [|done]. destruct (float (group6 m)); [|done].
    destruct (float (group7 m)); [|done]. destruct (float (group8 m)); [|done].
    simpl in Hline.
    destruct (startswith (group1 m) "D") eqn:HpD.
    { injection Hline as <-. simpl. split; [|done].
      apply Forall_app. split; [done|]. by apply Forall_singleton. }
    destruct (startswith (group1 m) "S") eqn:HpS.
    { injection Hline as <-. simpl. split; [done|]. split; [|done].
      apply Forall_app. split; [done|]. by apply Forall_singleton. }
    destruct (startswith (group1 m) "C") eqn:HpC; [|done].
    injection Hline as <-. simpl. split; [done|]. split; [done|].
    apply Forall_app. split; [done|]. by apply Forall_singleton.
  - destruct (parameter_match line) as [[key value]|].
    + destruct (float value); [|done]. by injection Hline as <-.
    + by injection Hline as <-.
Qed.

Lemma parse_lines_filed file st :
  parse_lines node_match parameter_match float file = Ok st →
  filed_by_prefix st.
Proof.
  unfold DataParser.parse_lines. intros Hfile.
  match type of Hfile with
  | for_each ?l ?body ?s = _ =>
      pose proof (for_each_partial filed_by_prefix (λ _, True) l body s) as Hloop
  end.
  rewrite Hfile in Hloop. apply Hloop.
  - by repeat split.
  - intros line st1 _ Hst1.
    destruct (parse_line node_match parameter_match float line st1)
      as [st2|] eqn:Hline; [|done].
    by eapply parse_line_filed.
Qed.

(** What [parse_file] returns, from what the loop over the lines has
    collected. *)
Lemma parse_file_inv file p :
  parse_file node_match parameter_match float file = Ok p →
  ∃ st c cs d ds, parse_lines node_match parameter_match float file = Ok st
    ∧ DataParser.Customer_nodes st = c :: cs
    ∧ DataParser.Depot_nodes st = d :: ds
    ∧ DataParser.Depot_nodes p = d :: ds
    ∧ DataParser.RS_nodes p = DataParser.RS_nodes st
    ∧ DataParser.parameters p = DataParser.parameters st
    ∧ DataParser.Customer_nodes p
      = if bool_decide (Position c = Position d) then cs else c :: cs.
Proof.
  unfold DataParser.parse_file.
  destruct (parse_lines node_match parameter_match float file) as [st|];
    [|done].
  cbn [mbind result_bind].
  destruct (DataParser.Customer_nodes st) as [|c cs] eqn:HC; [done|].
  destruct (DataParser.Depot_nodes st) as [|d ds] eqn:HD; [done|].
  change (Py.index (c :: cs) 0) with (Ok c).
  change (Py.index (d :: ds) 0) with (Ok d).
  cbn [mbind result_bind]. intros [= <-].
  exists st, c, cs, d, ds. simpl. rewrite HC, HD.
  repeat split; done.
Qed.

(** X23. Nodes are filed by the first letter of their identifier, not by
    their type letter: in what [parse_file] returns every depot has an
    identifier that begins with [D], every station one that begins with
    [S], and every customer one that begins with [C]. *)
Theorem nodes_filed_by_identifier (file : list string) (p : parsed) :
  parse_file node_match parameter_match float file = Ok p → filed_by_prefix p.
Proof.
  intros (st & c & cs & d & ds & Hst & HC & HD & HpD & HpS & _ & HpC)
    %parse_file_inv.
  destruct (parse_lines_filed file st Hst) as (HfD & HfS & HfC).
  unfold filed_by_prefix. rewrite HpD, HpS, HpC, <- HD.
  split; [done|]. split; [done|].
  rewrite HC in HfC. case_bool_decide; [|done].
  by apply Forall_cons in HfC as [_ ?].
Qed.

(** X24. The clean-up step of [parse_file]. After a loop that raised
    nothing, [parse_file] raises exactly when no customer or no depot was
    read, and it raises [IndexError]. Otherwise it returns the depots,
    the stations and the parameters as read, and the customers without
    the first one if that one is at the position of the first depot;
    later customers at that position stay. *)
Theorem parse_file_clean_up (file : list string) (st : parsed) :
  parse_lines node_match parameter_match float file = Ok st →
  match parse_file node_match parameter_match float file with
  | Raise e =>
      e = IndexError
      ∧ (DataParser.Customer_nodes st = [] ∨ DataParser.Depot_nodes st = [])
  | Ok p =>
      ∃ c cs d ds,
        DataParser.Customer_nodes st = c :: cs
        ∧ DataParser.Depot_nodes st = d :: ds
        ∧ DataParser.Depot_nodes p = d :: ds
        ∧ DataParser.RS_nodes p = DataParser.RS_nodes st
        ∧ DataParser.parameters p = DataParser.parameters st
        ∧ DataParser.Customer_nodes p
          = if bool_decide (Position c = Position d) then cs else c :: cs
  end.
Proof.
  intros Hst.
  destruct (parse_file node_match parameter_match float file) as [p|e]
    eqn:Hfile.
  - apply parse_file_inv in Hfile
      as (st' & c & cs & d & ds & Hst' & Hrest).
    rewrite Hst in Hst'. injection Hst' as <-. by exists c, cs, d, ds.
  - revert Hfile. unfold DataParser.parse_file. rewrite Hst.
    cbn [mbind result_bind].
    destruct (DataParser.Customer_nodes st) as [|c cs].
    { intros [= <-]. split; [done|by left]. }
    change (Py.index (c :: cs) 0) with (Ok c). cbn [mbind result_bind].
    destruct (DataParser.Depot_nodes st) as [|d ds]; [|done].
    intros [= <-]. split; [done|by right].
Qed.

Lemma parse_line_parameters line st st' :
  parse_line node_match parameter_match float line st = Ok st' →
  DataParser.parameters st' = DataParser.parameters st
  ∨ ∃ k v x, parameter_line node_match parameter_match line k v
      ∧ float v = Ok x
      ∧ DataParser.parameters st' = <[k := x]> (DataParser.parameters st).
Proof.
  unfold DataParser.parse_line, parameter_line.
  destruct (node_match line) as [m|].
  - destruct (float (group3 m)); [|done]. destruct (float (group4 m)); [|done].
    destruct (float (group5 m)); [|done]. destruct (float (group6 m)); [|done].
    destruct (float (group7 m)); [|done]. destruct (float (group8 m)); [|done].
    simpl.
    destruct (startswith (group1 m) "D"); [intros [= <-]; by left|].
    destruct (startswith (group1 m) "S"); [intros [= <-]; by left|].
    destruct (startswith (group1 m) "C"); [intros [= <-]; by left|done].
  - destruct (parameter_match line) as [[key value]|].
    + destruct (float value) as [x|] eqn:Hx; [|done]. simpl. intros [= <-].
      right. by exists key, value, x.
    + intros [= <-]. by left.
Qed.

Lemma for_each_parameters_kept (post : list string) (k : string)
    (st st' : parsed) :
  (∀ line v, line ∈ post →
     ¬ parameter_line node_match parameter_match line k v) →
  for_each post (parse_line node_match parameter_match float) st = Ok st' →
  DataParser.parameters st' !! k = DataParser.parameters st !! k.
Proof.
  revert st. induction post as [|line post IH]; intros st Hnone; simpl.
  - by intros [= <-].
  - destruct (parse_line node_match parameter_match float line st)
      as [st1|] eqn:Hline; [|done].
    intros Hpost. rewrite (IH st1); [| |done].
    2:{ intros l v Hl. apply Hnone, elem_of_cons. by right. }
    destruct (parse_line_parameters _ _ _ Hline)
      as [->|(k' & v & x & Hpl & _ & ->)]; [done|].
    apply lookup_insert_ne. intros ->.
    apply (Hnone line v); [apply elem_of_cons; by left|done].
Qed.

(** X25. Of several lines that give a parameter, the last one wins: when
    a line gives the parameter [k] the value [v], and no later line gives
    [k] a value, the parsed dictionary maps [k] to [float(v)]. *)
Theorem last_parameter_line_wins (pre post : list string)
    (line k v : string) (p : parsed) :
  parse_file node_match parameter_match float (pre ++ line :: post) = Ok p →
  parameter_line node_match parameter_match line k v →
  (∀ later v', later ∈ post →
     ¬ parameter_line node_match parameter_match later k v') →
  ∃ x, float v = Ok x ∧ DataParser.parameters p !! k = Some x.
Proof.
  intros (st & _ & _ & _ & _ & Hst & _ & _ & _ & _ & -> & _)%parse_file_inv
    [Hnode Hparam] Hlater.
  revert Hst. unfold DataParser.parse_lines. rewrite for_each_app.
  destruct (for_each pre _ _) as [st0|]; [|done]. cbn [mbind result_bind].
  simpl.
  destruct (parse_line node_match parameter_match float line st0)
    as [st1|] eqn:Hline; [|done].
  intros Hpost.
  rewrite (for_each_parameters_kept post k st1 st Hlater Hpost).
  revert Hline. unfold DataParser.parse_line. rewrite Hnode, Hparam.
  destruct (float v) as [x|]; [|done]. simpl. intros [= <-]. exists x.
  split; [done|]. simpl. apply lookup_insert_eq.
Qed.

(** X26. A line that matches the node pattern with an identifier that
    begins with none of [D], [S], [C] aborts the parse with [ValueError],
    whatever follows it. *)
Theorem unexpected_identifier_aborts (pre post : list string) (line : string)
    (st : parsed) (m : node_groups) :
  parse_lines node_match parameter_match float pre = Ok st →
  node_match line = Some m →
  (∀ s, s ∈ [group3 m; group4 m; group5 m; group6 m; group7 m; group8 m] →
     ∃ x, float s = Ok x) →
  startswith (group1 m) "D" = false →
  startswith (group1 m) "S" = false →
  startswith (group1 m) "C" = false →
  parse_file node_match parameter_match float (pre ++ line :: post)
  = Raise ValueError.
Proof.
  intros Hpre Hnode Hfloat HD HS HC.
  unfold DataParser.parse_file, DataParser.parse_lines in *.
  rewrite for_each_app, Hpre. cbn [mbind result_bind]. simpl.
  unfold DataParser.parse_line at 1. rewrite Hnode.
  destruct (Hfloat (group3 m)) as [x3 ->]; [in_list|].
  destruct (Hfloat (group4 m)) as [x4 ->]; [in_list|].
  destruct (Hfloat (group5 m)) as [x5 ->]; [in_list|].
  destruct (Hfloat (group6 m)) as [x6 ->]; [in_list|].
  destruct (Hfloat (group7 m)) as [x7 ->]; [in_list|].
  destruct (Hfloat (group8 m)) as [x8 ->]; [in_list|].
  simpl. by rewrite HD, HS, HC.
Qed.

End parser_filing.

(** The example file, parsed. *)
Lemma example_file_collected :
  parse_lines example_file_node_match example_file_parameter_match
    example_file_float example_file = Ok example_collected.
Proof. reflexivity. Qed.

Lemma example_file_parsed :
  parse_file example_file_node_match example_file_parameter_match
    example_file_float example_file = Ok example_parsed.
Proof.
  unfold DataParser.parse_file. rewrite example_file_collected.
  cbn [mbind result_bind].
  change (Py.index (DataParser.Customer_nodes example_collected) 0)
    with (Ok {| StringId := "C0"; Type_ := "c"; Position := (40, 50)%R;
                Demand := 0%R; Window := (0, 1236)%R; ServiceTime := 0%R |}).
  change (Py.index (DataParser.Depot_nodes example_collected) 0)
    with (Ok {| StringId := "D0"; Type_ := "d"; Position := (40, 50)%R;
                Demand := 0%R; Window := (0, 1236)%R; ServiceTime := 0%R |}).
  cbn [mbind result_bind Position]. by rewrite bool_decide_eq_true_2.
Qed.

Lemma nodes_filed_by_identifier_witness : filed_by_prefix example_parsed.
Proof.
  apply (nodes_filed_by_identifier example_file_node_match
           example_file_parameter_match example_file_float example_file).
  apply example_file_parsed.
Defined.

Lemma parse_file_clean_up_witness :
  match parse_file example_file_node_match example_file_parameter_match
          example_file_float example_file with
  | Raise e =>
      e = IndexError
      ∧ (DataParser.Customer_nodes example_collected = []
         ∨ DataParser.Depot_nodes example_collected = [])
  | Ok p =>
      ∃ c cs d ds,
        DataParser.Customer_nodes example_collected = c :: cs
        ∧ DataParser.Depot_nodes example_collected = d :: ds
        ∧ DataParser.Depot_nodes p = d :: ds
        ∧ DataParser.RS_nodes p = DataParser.RS_nodes example_collected
        ∧ DataParser.parameters p = DataParser.parameters example_collected
        ∧ DataParser.Customer_nodes p
          = if bool_decide (Position c = Position d) then cs else c :: cs
  end.
Proof.
  apply (parse_file_clean_up example_file_node_match
           example_file_parameter_match example_file_float example_file
           example_collected).
  reflexivity.
Defined.

Lemma last_parameter_line_wins_witness :
  ∃ x, example_file_float "1.0" = Ok x
    ∧ DataParser.parameters example_parsed !! "v" = Some x.
Proof.
  apply (last_parameter_line_wins example_file_node_match
           example_file_parameter_match example_file_float
           ["D0 d 40.0 50.0 0.0 0.0 1236.0 0.0";
            "S5 c 31.0 84.0 0.0 0.0 1236.0 0.0";
            "C0 c 40.0 50.0 0.0 0.0 1236.0 0.0";
            "C1 c 20.0 55.0 10.0 355.0 407.0 90.0";
            "v first /2.0/"] [] "v second /1.0/" "v" "1.0" example_parsed).
  - apply example_file_parsed.
  - split; reflexivity.
  - intros later v' Hlater. by apply elem_of_nil in Hlater.
Defined.

Lemma unexpected_identifier_aborts_witness :
  parse_file example_file_node_match example_file_parameter_match
    example_file_float
    ([] ++ "X1 c 20.0 55.0 10.0 355.0 407.0 90.0"
        :: ["C1 c 20.0 55.0 10.0 355.0 407.0 90.0"])
  = Raise ValueError.
Proof.
  apply (unexpected_identifier_aborts example_file_node_match
           example_file_parameter_match example_file_float [] _ _
           {| DataParser.Depot_nodes := []; DataParser.Customer_nodes := [];
              DataParser.RS_nodes := []; DataParser.parameters := ∅ |}
           (example_groups "X1" "c" "20.0" "55.0" "10.0" "355.0" "407.0"
              "90.0")).
  - reflexivity.
  - reflexivity.
  - intros s Hs.
    repeat (apply elem_of_cons in Hs as [->|Hs]; [eexists; reflexivity|]).
    by apply elem_of_nil in Hs.
  - reflexivity.
  - reflexivity.
  - reflexivity.
Defined.

(** ** main.py: the whole run *)
Section main_run.

Variable node_match : string → option node_groups.
Variable parameter_match : string → option (string * string).
Variable float : string → result R.
Variable solve : Model → string → R.

(** X27. The whole run. [main] raises what [parse_file] raises; after a
    parse that returned it raises only [KeyError], and only if one of the
    five parameters is not in the file. Otherwise the graph is built on
    depots, customers, stations (each once) and depots, the formulation
    is generated with [L₀ = 1000], and [print_results] returns; the
    reconstructor is called exactly when some arc variable of the
    solution has a value above 0.5. *)
Theorem main_outcome (file : list string) :
  match main node_match parameter_match float solve file with
  | Raise e =>
      parse_file node_match parameter_match float file = Raise e
      ∨ (e = KeyError
         ∧ ∃ p, parse_file node_match parameter_match float file = Ok p
             ∧ has_parameters (DataParser.parameters p) = false)
  | Ok out =>
      ∃ p g s,
        parse_file node_match parameter_match float file = Ok p
        ∧ has_parameters (DataParser.parameters p) = true
        ∧ Graph_EVRP_TW (DataParser.Depot_nodes p) (DataParser.Customer_nodes p)
            (DataParser.RS_nodes p) (DataParser.parameters p) 1 = Ok g
        ∧ Nodes g = DataParser.Depot_nodes p ++ DataParser.Customer_nodes p
                    ++ DataParser.RS_nodes p ++ DataParser.Depot_nodes p
        ∧ EVPR_TW_Solver g 1000 = Ok s
        ∧ print_results s (solve (model s)) true false true = Ok out
        ∧ (out = None
           ↔ selected_labels (len (Nodes g)) (solve (model s)) = [])
  end.
Proof.
  unfold main.
  destruct (parse_file node_match parameter_match float file) as [p|e]
    eqn:Hfile; [|by left].
  cbn [mbind result_bind].
  destruct (parse_file_inv _ _ _ _ _ Hfile)
    as (st & c & cs & d & ds & _ & _ & _ & HD & _).
  destruct (has_parameters (DataParser.parameters p)) eqn:Hparams.
  - rewrite HD.
    destruct (model_of_instance d ds (DataParser.Customer_nodes p)
                (DataParser.RS_nodes p) (DataParser.parameters p)
                RS_dummy_count_default l_0_default Hparams)
      as (g & s & Hgr & Hs & Hg & _ & _ & _ & Hsize & HDs).
    rewrite Hgr. cbn [mbind result_bind]. rewrite Hs.
    cbn [mbind result_bind].
    destruct (print_results_on_graph g s (solve (model s)) true false true
                Hg Hsize HDs) as (out & Hout & Hnone & _).
    rewrite Hout. exists p, g, s.
    split; [done|]. split; [done|]. split; [rewrite HD; exact Hgr|].
    split.
    { destruct (Graph_EVRP_TW_inv _ _ _ _ _ _ Hgr) as (-> & _).
      unfold RS_dummy_count_default, list_mul. simpl.
      by rewrite HD, app_nil_r. }
    split; [exact Hs|]. split; [done|].
    rewrite Hnone. simpl. split; [by intros [?|?]|by right].
  - rewrite Graph_EVRP_TW_KeyError by done. right. split; [done|].
    by exists p.
Qed.

End main_run.

(** ** A solution of a small instance *)
Section tour.
Local Open Scope R_scope.

Lemma euclidean_distance_3_4 : euclidean_distance (0, 0) (3, 4) = 5.
Proof.
  unfold euclidean_distance. simpl.
  replace ((3 - 0) * ((3 - 0) * 1) + (4 - 0) * ((4 - 0) * 1)) with (5 * 5)
    by lra.
  apply sqrt_square. lra.
Qed.

Lemma Forall2_Forall_r {X Y : Type} (P : X → Y → Prop) (Q : Y → Prop)
    (l : list X) (k : list Y) :
  Forall2 P l k → (∀ x y, x ∈ l → P x y → Q y) → Forall Q k.
Proof.
  induction 1 as [|x y l k Hxy _ IH]; intros HPQ; constructor.
  - apply (HPQ x); [apply elem_of_cons; by left|done].
  - apply IH. intros x' y' Hx'. apply HPQ, elem_of_cons. by right.
Qed.

Lemma tour_values_binary : binary_arcs tour_values.
Proof.
  intros i j. unfold tour_values, x_name. cbn.
  repeat case_match; auto;
    match goal with
    | H : String.eqb _ _ = true |- _ => by apply String.eqb_eq in H
    end.
Qed.

Lemma tour_values_start : no_arc_into_start tour_values.
Proof.
  intros i. unfold tour_values.
  destruct (String.eqb_spec (x_name i 0) "x_0_1") as [Heq|_].
  { change "x_0_1" with (x_name 0 1) in Heq. apply x_name_inj in Heq. lia. }
  destruct (String.eqb_spec (x_name i 0) "x_1_2") as [Heq|_].
  { change "x_1_2" with (x_name 1 2) in Heq. apply x_name_inj in Heq. lia. }
  repeat case_match; try lra;
    match goal with
    | H : String.eqb _ _ = true |- _ => by apply String.eqb_eq in H
    end.
Qed.

Lemma tour_selected_labels : selected_labels 3 tour_values = ["x_0_1"; "x_1_2"].
Proof.
  unfold selected_labels, selected_arcs.
  change (arcs (range 0 3) (range 0 3))
    with [(0, 1); (0, 2); (1, 0); (1, 2); (2, 0); (2, 1)]%Z.
  assert (tour_values (x_name 0 1) = 1) as H01 by reflexivity.
  assert (tour_values (x_name 0 2) = 0) as H02 by reflexivity.
  assert (tour_values (x_name 1 0) = 0) as H10 by reflexivity.
  assert (tour_values (x_name 1 2) = 1) as H12 by reflexivity.
  assert (tour_values (x_name 2 0) = 0) as H20 by reflexivity.
  assert (tour_values (x_name 2 1) = 0) as H21 by reflexivity.
  rewrite !filter_cons, filter_nil. cbn [fst snd].
  rewrite H01, H02, H10, H12, H20, H21.
  repeat (case_decide; try lra). reflexivity.
Qed.

(** The tour depot, customer, depot satisfies every row of the model of
    the instance; [print_results] reports it as the one route. *)
Lemma tour_is_a_solution :
  ∃ g s,
    Graph_EVRP_TW [tour_depot] [tour_customer] [] example_parameters 1 = Ok g
    ∧ EVPR_TW_Solver g l_0_default = Ok s
    ∧ binary_arcs tour_values
    ∧ Forall (satisfies tour_values) (linear_constraints (model s))
    ∧ no_arc_into_start tour_values
    ∧ print_results s tour_values true false true
      = Ok (Some [["x_0_1"; "x_1_2"]]).
Proof.
  destruct (model_of_instance tour_depot [] [tour_customer] []
              example_parameters 1 l_0_default)
    as (g & s & Hgr & Hs & Hg & _ & _ & Hrows & Hsize & HD); [reflexivity|].
  destruct (Graph_EVRP_TW_inv _ _ _ _ _ _ Hgr)
    as (HN & HDI & HC & HS & _ & _ & _ & _ & _ & HQ & HCap & Hr & Hgg & Hv).
  change (Nodes g = [tour_depot; tour_customer; tour_depot]) in HN.
  assert (len (Nodes g) = 3%Z) as Hlen by (by rewrite HN).
  assert (Customer_Idx g = [1%Z]) as HC' by (by rewrite HC).
  assert (RS_Idx g = []) as HS' by (by rewrite HS, Hlen).
  assert (valid_successors g = [1; 2]%Z) as Hsucc.
  { unfold valid_successors, end_depot. by rewrite HC', HS', Hlen. }
  assert (valid_predecessors g = [0; 1]%Z) as Hpred.
  { unfold valid_predecessors. by rewrite HC', HS'. }
  assert (EVRP_Graph.Q g = 77.75) as HQ'.
  { assert (example_parameters !! "Q" = Some 77.75) by reflexivity. congruence. }
  assert (EVRP_Graph.C g = 200) as HCap'.
  { assert (example_parameters !! "C" = Some 200) by reflexivity. congruence. }
  assert (r g = 1) as Hr'.
  { assert (example_parameters !! "r" = Some 1) by reflexivity. congruence. }
  assert (v g = 1) as Hv'.
  { assert (example_parameters !! "v" = Some 1) by reflexivity. congruence. }
  exists g, s. split; [done|]. split; [done|].
  split; [apply tour_values_binary|].
  split; [|split; [apply tour_values_start|]].
  2:{ rewrite (print_results_spec tour_values s [0%Z] 2%Z), Hsize, Hlen
        by (by rewrite HD, HDI, Hlen).
      rewrite tour_selected_labels. reflexivity. }
  rewrite Hrows.
  assert (node_at g 0 tour_depot) as Hn0 by (split; [done|by rewrite HN]).
  assert (node_at g 1 tour_customer) as Hn1 by (split; [done|by rewrite HN]).
  assert (node_at g 2 tour_depot) as Hn2 by (split; [done|by rewrite HN]).
  assert (∀ i a b, node_at g i a → node_at g i b → a = b) as Hsame.
  { intros i a b [_ Ha] [_ Hb]. congruence. }
  assert (tour_values (tao_name 0) = 0) as Ht0 by reflexivity.
  assert (tour_values (tao_name 1) = 5) as Ht1 by reflexivity.
  assert (tour_values (tao_name 2) = 100) as Ht2 by reflexivity.
  assert (tour_values (u_name 0) = 200) as Hu0 by reflexivity.
  assert (tour_values (u_name 1) = 200) as Hu1 by reflexivity.
  assert (tour_values (u_name 2) = 190) as Hu2 by reflexivity.
  assert (tour_values (y_name 1) = 72.75) as Hy1 by reflexivity.
  assert (tour_values (y_name 2) = 67.75) as Hy2 by reflexivity.
  assert (tour_values (x_name 0 1) = 1) as Hx01 by reflexivity.
  assert (tour_values (x_name 0 2) = 0) as Hx02 by reflexivity.
  assert (tour_values (x_name 1 2) = 1) as Hx12 by reflexivity.
  assert (euclidean_distance (Position tour_depot) (Position tour_customer) = 5)
    as Hdc by apply euclidean_distance_3_4.
  assert (euclidean_distance (Position tour_customer) (Position tour_depot) = 5)
    as Hcd by (rewrite euclidean_distance_sym; apply euclidean_distance_3_4).
  assert (euclidean_distance (Position tour_depot) (Position tour_depot) = 0)
    as Hdd by apply euclidean_distance_refl.
  unfold all_rows. repeat (apply Forall_app; split).
  - eapply Forall2_Forall_r; [apply (customer_rows_spec g l_0_default Hg)|].
    intros i c Hi (_ & _ & _ & Hsat). apply Hsat.
    rewrite HC' in Hi. apply list_elem_of_singleton in Hi as ->.
    unfold outgoing. rewrite Hsucc.
    replace (filter (λ j, j ≠ 1%Z) [1%Z; 2%Z]) with [2%Z] by reflexivity.
    unfold sum_of. simpl. rewrite Hx12. lra.
  - eapply Forall2_Forall_r; [apply (station_rows_spec g l_0_default Hg)|].
    intros i c Hi. rewrite HS' in Hi. by apply elem_of_nil in Hi.
  - eapply Forall2_Forall_r; [apply (flow_rows_spec g l_0_default)|].
    intros i c Hi (_ & _ & _ & Hsat). apply Hsat.
    rewrite HC', HS' in Hi. apply list_elem_of_singleton in Hi as ->.
    unfold incoming, outgoing. rewrite Hsucc, Hpred.
    replace (filter (λ j, j ≠ 1%Z) [1%Z; 2%Z]) with [2%Z] by reflexivity.
    replace (filter (λ j, j ≠ 1%Z) [0%Z; 1%Z]) with [0%Z] by reflexivity.
    unfold sum_of. simpl. rewrite Hx01, Hx12. lra.
  - eapply Forall2_Forall_r; [apply (time_rows_spec g l_0_default Hg)|].
    intros arc c Harc (ni & nj & Hni & Hnj & _ & _ & Hsat). apply Hsat.
    rewrite HC', Hsucc in Harc.
    replace (arcs (start_depot :: [1%Z]) [1%Z; 2%Z])
      with [(0, 1); (0, 2); (1, 2)]%Z in Harc by reflexivity.
    rewrite Hv'. unfold l_0_default.
    repeat (apply elem_of_cons in Harc as [->|Harc]);
      [..|by apply elem_of_nil in Harc]; cbn [fst snd] in *.
    + rewrite (Hsame _ _ _ Hni Hn0), (Hsame _ _ _ Hnj Hn1).
      rewrite Hdc, Ht0, Ht1, Hx01.
      cbn [ServiceTime Demand tour_depot tour_customer]. lra.
    + rewrite (Hsame _ _ _ Hni Hn0), (Hsame _ _ _ Hnj Hn2).
      rewrite Hdd, Ht0, Ht2, Hx02.
      cbn [ServiceTime Demand tour_depot tour_customer]. lra.
    + rewrite (Hsame _ _ _ Hni Hn1), (Hsame _ _ _ Hnj Hn2).
      rewrite Hcd, Ht1, Ht2, Hx12.
      cbn [ServiceTime Demand tour_depot tour_customer]. lra.
  - eapply Forall2_Forall_r; [apply (time_RS_rows_spec g l_0_default)|].
    intros arc c Harc. rewrite HS' in Harc. by apply elem_of_nil in Harc.
  - eapply Forall2_Forall_r; [apply (load_rows_spec g l_0_default Hg)|].
    intros arc c Harc (ni & Hni & _ & _ & Hsat). apply Hsat.
    rewrite Hpred, Hsucc in Harc.
    replace (arcs [0%Z; 1%Z] [1%Z; 2%Z])
      with [(0, 1); (0, 2); (1, 2)]%Z in Harc by reflexivity.
    rewrite HCap'.
    repeat (apply elem_of_cons in Harc as [->|Harc]);
      [..|by apply elem_of_nil in Harc]; cbn [fst snd] in *.
    + rewrite (Hsame _ _ _ Hni Hn0), Hu0, Hu1, Hx01.
      cbn [ServiceTime Demand tour_depot tour_customer]. lra.
    + rewrite (Hsame _ _ _ Hni Hn0), Hu0, Hu2, Hx02.
      cbn [ServiceTime Demand tour_depot tour_customer]. lra.
    + rewrite (Hsame _ _ _ Hni Hn1), Hu1, Hu2, Hx12.
      cbn [ServiceTime Demand tour_depot tour_customer]. lra.
  - eapply Forall2_Forall_r; [apply (battery_rows_spec g l_0_default Hg)|].
    intros arc c Harc (ni & nj & Hni & Hnj & _ & _ & Hsat). apply Hsat.
    rewrite HC', Hsucc in Harc.
    replace (arcs [1%Z] [1%Z; 2%Z]) with [(1, 2)]%Z in Harc by reflexivity.
    rewrite HQ', Hr'.
    apply list_elem_of_singleton in Harc as ->. cbn [fst snd] in *.
    rewrite (Hsame _ _ _ Hni Hn1), (Hsame _ _ _ Hnj Hn2).
    rewrite Hcd, Hy1, Hy2, Hx12. lra.
  - eapply Forall2_Forall_r; [apply (battery_RS_rows_spec g l_0_default Hg)|].
    intros arc c Harc (ni & nj & Hni & Hnj & _ & _ & Hsat). apply Hsat.
    rewrite HS', Hsucc in Harc.
    replace (arcs [start_depot] [1%Z; 2%Z])
      with [(0, 1); (0, 2)]%Z in Harc by reflexivity.
    rewrite HQ', Hr'.
    repeat (apply elem_of_cons in Harc as [->|Harc]);
      [..|by apply elem_of_nil in Harc]; cbn [fst snd] in *.
    + rewrite (Hsame _ _ _ Hni Hn0), (Hsame _ _ _ Hnj Hn1).
      rewrite Hdc, Hy1, Hx01. lra.
    + rewrite (Hsame _ _ _ Hni Hn0), (Hsame _ _ _ Hnj Hn2).
      rewrite Hdd, Hy2, Hx02. lra.
Qed.

End tour.

(** The tour is reported as a route. *)
Lemma routes_of_a_solution_witness :
  ∃ g s out,
    Graph_EVRP_TW [tour_depot] [tour_customer] [] example_parameters 1 = Ok g
    ∧ EVPR_TW_Solver g l_0_default = Ok s
    ∧ binary_arcs tour_values
    ∧ Forall (satisfies tour_values) (linear_constraints (model s))
    ∧ no_arc_into_start tour_values
    ∧ print_results s tour_values true false true = Ok out
    ∧ ∀ routes, out = Some routes → Forall (is_route (end_depot g)) routes.
Proof.
  destruct (routes_of_a_solution tour_depot [] [tour_customer] []
              example_parameters 1 l_0_default)
    as (g & s & Hgr & Hs & Hall); [reflexivity|].
  destruct tour_is_a_solution
    as (g' & s' & Hgr' & Hs' & Hbinary & Hsat & Hstart & _).
  rewrite Hgr in Hgr'. injection Hgr' as <-.
  rewrite Hs in Hs'. injection Hs' as <-.
  destruct (Hall tour_values true false true Hbinary Hsat Hstart)
    as (out & Hout & Hroutes).
  exists g, s, out. repeat (split; [done|]). done.
Defined.
